(** * The define-by-run graph core of [chain/function.py]

    A shallow embedding of [Function], [Split] and [ParameterizedFunction]
    over an explicit object store.  Python objects are identified by their
    address in the store, so that sharing, in-place update and the state left
    behind by a raised exception can all be stated. *)

From Stdlib Require Import ZArith.
From stdpp Require Import base option list strings gmap.

Set Default Proof Using "Type".
Open Scope Z_scope.

(** ** Exceptions and the store monad *)

Inductive PyError : Type :=
| NotImplementedError
| RuntimeError (msg : string)
| ValueError
| AttributeError
| TypeError
| IndexError
| BackendError (code : nat)     (* raised from inside a numeric kernel *)
| DanglingReference.            (* an address outside the store; no Python
                                   program can produce one *)

Inductive result (A : Type) : Type :=
| Ok (a : A)
| Raise (e : PyError).
Arguments Ok {A} a.
Arguments Raise {A} e.

(** A computation reads and writes a store of type [S]; a raised exception
    keeps the writes made before it. *)
Definition ST (S A : Type) : Type := S → S * result A.

Definition ret {S A} (a : A) : ST S A := λ s, (s, Ok a).
Definition raise {S A} (e : PyError) : ST S A := λ s, (s, Raise e).
Definition bind {S A B} (m : ST S A) (k : A → ST S B) : ST S B :=
  λ s, match m s with
       | (s', Ok a) => k a s'
       | (s', Raise e) => (s', Raise e)
       end.
Definition gets {S A} (f : S → A) : ST S A := λ s, (s, Ok (f s)).
Definition modify {S} (f : S → S) : ST S unit := λ s, (f s, Ok tt).
Definition lift {S A} (r : result A) : ST S A := λ s, (s, r).

Declare Scope py_scope.
Delimit Scope py_scope with py.
Notation "x <- m ;; k" := (bind m (λ x, k))
  (at level 100, m at next level, right associativity) : py_scope.
Notation "m ;;; k" := (bind m (λ _, k))
  (at level 100, right associativity) : py_scope.
Open Scope py_scope.

(** [for x in xs: body x] *)
Fixpoint for_each {S A} (body : A → ST S unit) (xs : list A) : ST S unit :=
  match xs with
  | [] => ret tt
  | x :: rest => body x ;;; for_each body rest
  end.

(** [tuple(f x for x in xs)] *)
Fixpoint map_m {S A B} (f : A → ST S B) (xs : list A) : ST S (list B) :=
  match xs with
  | [] => ret []
  | x :: rest => y <- f x ;; ys <- map_m f rest ;; ret (y :: ys)
  end.

(** ** Objects *)

Abbreviation aref := nat.   (* address of a raw array *)
Abbreviation vref := nat.   (* address of a Variable *)
Abbreviation fref := nat.   (* address of a Function object *)

(** The element-wise sum of the numeric backend, [gx += gy] on its arrays.
    Nothing is assumed of it. *)
Class Tensor (T : Type) : Type := tadd : T → T → T.

(** [type(x)] of a raw value. *)
Inductive ArrayType : Type := ndarray | GPUArray | other_type.

Global Instance ArrayType_eq_dec : EqDecision ArrayType.
Proof. solve_decision. Defined.

Record Array (T : Type) : Type := mkArray {
  a_type : ArrayType;
  a_val  : T
}.
Arguments mkArray {T} _ _.
Arguments a_type {T} _.
Arguments a_val {T} _.

(** Modelled from the spec: the DataNode class, [Variable] of the module
    [variable] that function.py imports, is not among the sources.  A node
    holds its raw value, its producer (none for a leaf), its rank, a gradient
    slot, and the branch link.  The branch link is an attribute that
    function.py attaches on first use and tests with [hasattr]: [None] is
    "no such attribute", [Some None] is "attribute set to None",
    [Some (Some s)] is a link to the Split object [s]. *)
Record VariableObj : Type := mkVariable {
  v_data     : aref;
  v_creator  : option fref;
  v_rank     : Z;
  v_grad     : option aref;
  v_splitter : option (option fref)
}.

(** A kernel supplied by the author of a concrete operation: it receives the
    attribute values of the object it runs on and raw values only, and works
    on the store of raw arrays. *)
Definition forward_kernel (T : Type) : Type :=
  gmap string aref → list aref → ST (list (Array T)) (list aref).
Definition backward_kernel (T : Type) : Type :=
  gmap string aref → list aref → list (option aref) →
  ST (list (Array T)) (list (option aref)).

(** The four backend methods a subclass may define; [None] is "inherited
    from Function". *)
Record Methods (T : Type) : Type := mkMethods {
  m_forward_cpu  : option (forward_kernel T);
  m_forward_gpu  : option (forward_kernel T);
  m_backward_cpu : option (backward_kernel T);
  m_backward_gpu : option (backward_kernel T)
}.
Arguments mkMethods {T} _ _ _ _.
Arguments m_forward_cpu {T} _.
Arguments m_forward_gpu {T} _.
Arguments m_backward_cpu {T} _.
Arguments m_backward_gpu {T} _.

Definition no_methods {T} : Methods T := mkMethods None None None None.

(** The class of a function object. *)
Inductive FunctionClass (T : Type) : Type :=
| SplitClass
| PlainClass (m : Methods T)
| ParameterizedClass (m : Methods T) (parameter_names gradient_names : list string).
Arguments SplitClass {T}.
Arguments PlainClass {T} m.
Arguments ParameterizedClass {T} m parameter_names gradient_names.

Definition methods_of {T} (c : FunctionClass T) : Methods T :=
  match c with
  | SplitClass => no_methods
  | PlainClass m => m
  | ParameterizedClass m _ _ => m
  end.

Record FunctionObj (T : Type) : Type := mkFunction {
  f_class   : FunctionClass T;
  f_inputs  : option (list vref);
  f_outputs : option (list vref);
  f_rank    : option Z;
  f_attrs   : gmap string aref
}.
Arguments mkFunction {T} _ _ _ _ _.
Arguments f_class {T} _.
Arguments f_inputs {T} _.
Arguments f_outputs {T} _.
Arguments f_rank {T} _.
Arguments f_attrs {T} _.

(** The store: an object's address is its index; allocation appends. *)
Record Heap (T : Type) : Type := mkHeap {
  arrays    : list (Array T);
  variables : list VariableObj;
  functions : list (FunctionObj T)
}.
Arguments mkHeap {T} _ _ _.
Arguments arrays {T} _.
Arguments variables {T} _.
Arguments functions {T} _.

Abbreviation Py T := (ST (Heap T)).

Section store.
Context {T : Type}.

Definition with_arrays (f : list (Array T) → list (Array T)) (h : Heap T) : Heap T :=
  mkHeap (f (arrays h)) (variables h) (functions h).
Definition with_variables (f : list VariableObj → list VariableObj) (h : Heap T) : Heap T :=
  mkHeap (arrays h) (f (variables h)) (functions h).
Definition with_functions (f : list (FunctionObj T) → list (FunctionObj T)) (h : Heap T) : Heap T :=
  mkHeap (arrays h) (variables h) (f (functions h)).

Definition deref {A} (o : option A) : Py T A :=
  match o with
  | Some a => ret a
  | None => raise DanglingReference
  end.

Definition get_array (a : aref) : Py T (Array T) := λ h, deref (arrays h !! a) h.
Definition get_var (v : vref) : Py T VariableObj := λ h, deref (variables h !! v) h.
Definition get_fun (f : fref) : Py T (FunctionObj T) := λ h, deref (functions h !! f) h.

Definition alloc_array (x : Array T) : Py T aref :=
  λ h, (with_arrays (λ l, l ++ [x]) h, Ok (length (arrays h))).
Definition alloc_var (x : VariableObj) : Py T vref :=
  λ h, (with_variables (λ l, l ++ [x]) h, Ok (length (variables h))).
Definition alloc_fun (x : FunctionObj T) : Py T fref :=
  λ h, (with_functions (λ l, l ++ [x]) h, Ok (length (functions h))).

(** Attribute assignment on an existing object. *)
Definition update_array (a : aref) (g : Array T → Array T) : Py T unit :=
  get_array a ;;; modify (with_arrays (alter g a)).
Definition update_var (v : vref) (g : VariableObj → VariableObj) : Py T unit :=
  get_var v ;;; modify (with_variables (alter g v)).
Definition update_fun (f : fref) (g : FunctionObj T → FunctionObj T) : Py T unit :=
  get_fun f ;;; modify (with_functions (alter g f)).

(** A kernel runs on the raw arrays and leaves the graph alone. *)
Definition run_kernel {A} (k : ST (list (Array T)) A) : Py T A :=
  λ h, let '(arrs, r) := k (arrays h) in (with_arrays (λ _, arrs) h, r).
End store.

Definition set_creator_field (c : option fref) (x : VariableObj) : VariableObj :=
  mkVariable (v_data x) c (v_rank x) (v_grad x) (v_splitter x).
Definition set_rank_field (r : Z) (x : VariableObj) : VariableObj :=
  mkVariable (v_data x) (v_creator x) r (v_grad x) (v_splitter x).
Definition set_splitter_field (s : option (option fref)) (x : VariableObj) : VariableObj :=
  mkVariable (v_data x) (v_creator x) (v_rank x) (v_grad x) s.

Definition set_inputs_field {T} (i : option (list vref)) (f : FunctionObj T) : FunctionObj T :=
  mkFunction (f_class f) i (f_outputs f) (f_rank f) (f_attrs f).
Definition set_outputs_field {T} (o : option (list vref)) (f : FunctionObj T) : FunctionObj T :=
  mkFunction (f_class f) (f_inputs f) o (f_rank f) (f_attrs f).
Definition set_rank_of_function {T} (r : option Z) (f : FunctionObj T) : FunctionObj T :=
  mkFunction (f_class f) (f_inputs f) (f_outputs f) r (f_attrs f).
Definition set_attr {T} (name : string) (a : aref) (f : FunctionObj T) : FunctionObj T :=
  mkFunction (f_class f) (f_inputs f) (f_outputs f) (f_rank f) (<[name := a]> (f_attrs f)).

(** ** Variable (DataNode); [Variable] itself is a reserved word here *)

Module Variable_.
Section ops.
Context {T : Type}.

(** Modelled from the spec: [create(value, rank=0)], a leaf with no
    producer, an empty gradient slot and no branch link. *)
Definition __init__ (value : aref) : Py T vref :=
  alloc_var (mkVariable value None 0 None None).

(** Modelled from the spec: [set_producer(op)] records the producer and
    takes its rank ("topological depth = producer's rank").  Both call
    sites in function.py pass a producer whose rank is already set. *)
Definition set_creator (v : vref) (gen_func : fref) : Py T unit :=
  f <- get_fun gen_func ;;
  match f_rank f with
  | Some r => update_var v (λ x, set_rank_field r (set_creator_field (Some gen_func) x))
  | None => raise TypeError
  end.
End ops.
End Variable_.

(** ** Python values that appear in the code *)

(** [max] over a generator of ranks: a ValueError on the empty sequence. *)
Definition py_max (l : list Z) : result Z :=
  match l with
  | [] => Raise ValueError
  | x :: rest => Ok (foldl Z.max x rest)
  end.

(** A value handed to a property setter. *)
Inductive PyValue : Type :=
| PyNone
| PyTuple (items : list aref)
| PyList (items : list aref).

(** [values != ()] *)
Definition differs_from_empty_tuple (values : PyValue) : bool :=
  match values with
  | PyTuple [] => false
  | _ => true
  end.

(** What [__call__] hands back: the single output, or the list of them. *)
Inductive CallResult : Type :=
| Single (y : vref)
| Multiple (ys : list vref).

(** [if len(self.outputs) == 1: return self.outputs[0]] and
    [return self.outputs] otherwise. *)
Definition pack_outputs (outs : list vref) : CallResult :=
  match outs with
  | [y] => Single y
  | _ => Multiple outs
  end.

Definition result_vars (r : CallResult) : list vref :=
  match r with
  | Single y => [y]
  | Multiple ys => ys
  end.

(** ** Split (BranchNode) *)

Module Split.
Section ops.
Context {T : Type} `{!Tensor T}.

(** [Split(var)]: inputs [var], no outputs yet, the rank of [var]. *)
Definition __init__ (var : vref) : Py T fref :=
  x <- get_var var ;;
  alloc_fun (mkFunction SplitClass (Some [var]) (Some []) (Some (v_rank x)) ∅).

Definition add_branch (self : fref) : Py T vref :=
  s <- get_fun self ;;
  match f_class s with
  | SplitClass =>
      ins <- match f_inputs s with Some l => ret l | None => raise TypeError end ;;
      x <- match ins !! 0%nat with Some x => ret x | None => raise IndexError end ;;
      xv <- get_var x ;;
      output <- Variable_.__init__ (v_data xv) ;;
      Variable_.set_creator output self ;;;
      s' <- get_fun self ;;
      match f_outputs s' with
      | Some outs => update_fun self (set_outputs_field (Some (outs ++ [output]))) ;;;
                     ret output
      | None => raise AttributeError
      end
  | _ => raise AttributeError
  end.

(** [gy.copy()] *)
Definition array_copy (gy : aref) : Py T aref :=
  a <- get_array gy ;; alloc_array a.

(** [gx += gy], in place on the array [gx]. *)
Definition array_iadd (gx gy : aref) : Py T unit :=
  b <- get_array gy ;;
  update_array gx (λ a, mkArray (a_type a) (tadd (a_val a) (a_val b))).

(** The loop of [backward]; [n] is [len(grad_outputs)]. *)
Fixpoint accumulate (n : nat) (gx : option aref) (gys : list (option aref))
  : Py T (option aref) :=
  match gys with
  | [] => ret gx
  | None :: rest => accumulate n gx rest
  | Some gy :: rest =>
      match gx with
      | None =>
          if (n =? 1)%nat
          then accumulate n (Some gy) rest
          else (c <- array_copy gy ;; accumulate n (Some c) rest)
      | Some g => array_iadd g gy ;;; accumulate n (Some g) rest
      end
  end.

Definition backward (inputs : list aref) (grad_outputs : list (option aref))
  : Py T (list (option aref)) :=
  gx <- accumulate (length grad_outputs) None grad_outputs ;;
  ret [gx].
End ops.
End Split.

(** ** Function (OperationNode) *)

(** [any(type(x) == GPUArray for x in inputs)] *)
Definition _is_gpu_input {T} (arrs : list (Array T)) (inputs : list aref) : bool :=
  existsb (λ x, bool_decide (a_type <$> arrs !! x = Some GPUArray)) inputs.

Module Function.
Section ops.
Context {T : Type}.

(** [Function.__init__], for an object of class [c] with attributes [attrs]
    set by the subclass constructor. *)
Definition __init__ (c : FunctionClass T) (attrs : gmap string aref) : Py T fref :=
  alloc_fun (mkFunction c None None None attrs).

Definition forward_cpu (self : fref) (inputs : list aref) : Py T (list aref) :=
  f <- get_fun self ;;
  match m_forward_cpu (methods_of (f_class f)) with
  | Some k => run_kernel (k (f_attrs f) inputs)
  | None => raise NotImplementedError
  end.

Definition forward_gpu (self : fref) (inputs : list aref) : Py T (list aref) :=
  f <- get_fun self ;;
  match m_forward_gpu (methods_of (f_class f)) with
  | Some k => run_kernel (k (f_attrs f) inputs)
  | None => raise NotImplementedError
  end.

Definition forward (self : fref) (inputs : list aref) : Py T (list aref) :=
  gpu <- gets (λ h, _is_gpu_input (arrays h) inputs) ;;
  if gpu then forward_gpu self inputs else forward_cpu self inputs.

Definition backward_cpu (self : fref) (inputs : list aref)
    (grad_outputs : list (option aref)) : Py T (list (option aref)) :=
  f <- get_fun self ;;
  match m_backward_cpu (methods_of (f_class f)) with
  | Some k => run_kernel (k (f_attrs f) inputs grad_outputs)
  | None => ret (map (λ _, None) inputs)
  end.

Definition backward_gpu (self : fref) (inputs : list aref)
    (grad_outputs : list (option aref)) : Py T (list (option aref)) :=
  f <- get_fun self ;;
  match m_backward_gpu (methods_of (f_class f)) with
  | Some k => run_kernel (k (f_attrs f) inputs grad_outputs)
  | None => ret (map (λ _, None) inputs)
  end.

Definition backward (self : fref) (inputs : list aref)
    (grad_outputs : list (option aref)) : Py T (list (option aref)) :=
  gpu <- gets (λ h, _is_gpu_input (arrays h) inputs) ;;
  if gpu then backward_gpu self inputs grad_outputs
  else backward_cpu self inputs grad_outputs.

(** [self.inputs], [self.outputs]: iterating or indexing None is a TypeError. *)
Definition get_inputs (self : fref) : Py T (list vref) :=
  f <- get_fun self ;;
  match f_inputs f with Some l => ret l | None => raise TypeError end.
Definition get_outputs (self : fref) : Py T (list vref) :=
  f <- get_fun self ;;
  match f_outputs f with Some l => ret l | None => raise TypeError end.

(** [self.inputs[i] = d] *)
Definition set_input (self : fref) (i : nat) (d : vref) : Py T unit :=
  l <- get_inputs self ;;
  if decide (i < length l)%nat
  then update_fun self (set_inputs_field (Some (<[i := d]> l)))
  else raise IndexError.

(** The body of the first loop of [__call__], for input number [i]. *)
Definition resolve_input `{!Tensor T} (self : fref) (i : nat) (x : vref) : Py T unit :=
  xv <- get_var x ;;
  match v_splitter xv with
  | None => s <- Split.__init__ x ;;
            update_var x (set_splitter_field (Some (Some s)))
  | Some _ => ret tt
  end ;;;
  xv' <- get_var x ;;
  match v_splitter xv' with
  | Some (Some s) => d <- Split.add_branch s ;; set_input self i d
  | _ => raise AttributeError
  end.

(** [for i, x in enumerate(inputs)], counting from [i]. *)
Fixpoint resolve_inputs `{!Tensor T} (self : fref) (i : nat) (inputs : list vref)
  : Py T unit :=
  match inputs with
  | [] => ret tt
  | x :: rest => resolve_input self i x ;;; resolve_inputs self (S i) rest
  end.

Definition rank_of (x : vref) : Py T Z := v <- get_var x ;; ret (v_rank v).
Definition data_of (x : vref) : Py T aref := v <- get_var x ;; ret (v_data v).

(** [self.rank = max(x.rank for x in self.inputs)] *)
Definition compute_rank (self : fref) : Py T unit :=
  ins <- get_inputs self ;;
  ranks <- map_m rank_of ins ;;
  r <- lift (py_max ranks) ;;
  update_fun self (set_rank_of_function (Some r)).

(** The first half of [__call__]: the inputs are stored and replaced by
    their branches, and the rank is taken. *)
Definition chain_inputs `{!Tensor T} (self : fref) (inputs : list vref) : Py T unit :=
  update_fun self (set_inputs_field (Some inputs)) ;;;
  resolve_inputs self 0 inputs ;;;
  compute_rank self.

(** The second half of [__call__]: run forward on the raw values, wrap the
    results. *)
Definition run_forward (self : fref) : Py T CallResult :=
  ins <- get_inputs self ;;
  datas <- map_m data_of ins ;;
  outputs <- forward self datas ;;
  outs <- map_m Variable_.__init__ outputs ;;
  update_fun self (set_outputs_field (Some outs)) ;;;
  for_each (λ y, Variable_.set_creator y self) outs ;;;
  ret (pack_outputs outs).

Definition __call__ `{!Tensor T} (self : fref) (inputs : list vref) : Py T CallResult :=
  chain_inputs self inputs ;;;
  run_forward self.

Definition forget (self : fref) : Py T unit :=
  outs <- get_outputs self ;;
  for_each (λ y, update_var y (set_creator_field None)) outs ;;;
  ins <- get_inputs self ;;
  for_each (λ x, update_var x (set_splitter_field (Some None))) ins ;;;
  update_fun self (set_outputs_field None) ;;;
  update_fun self (set_inputs_field None).

(** The [parameters] and [gradients] properties of the base class. *)
Definition parameters (self : fref) : Py T (list aref) := ret [].

Definition set_parameters (self : fref) (values : PyValue) : Py T unit :=
  if differs_from_empty_tuple values
  then raise (RuntimeError "Cannot set parameters")
  else ret tt.

Definition gradients (self : fref) : Py T (list aref) := ret [].

Definition set_gradients (self : fref) (values : PyValue) : Py T unit :=
  if differs_from_empty_tuple values
  then raise (RuntimeError "Cannot set gradients")
  else ret tt.
End ops.
End Function.

(** ** ParameterizedFunction *)


Module ParameterizedFunction.
Section ops.
Context {T : Type}.

(** [copy.copy(self)]: a new object with the same attribute values. *)
Definition shallow_copy (self : fref) : Py T fref :=
  f <- get_fun self ;; alloc_fun f.

Definition __call__ `{!Tensor T} (self : fref) (inputs : list vref) : Py T CallResult :=
  cp <- shallow_copy self ;;
  Function.__call__ cp inputs.

(** [getattr(self, name)] for a name that the subclass binds on the object
    itself: one outside [node_fields].  Under a name of [node_fields]
    Python reads node state or a class-level definition instead, which
    this definition does not cover. *)
Definition getattr (self : fref) (name : string) : Py T aref :=
  f <- get_fun self ;;
  match f_attrs f !! name with
  | Some a => ret a
  | None => raise AttributeError
  end.

(** [setattr(self, name, value)], again for a name outside [node_fields]:
    under ["inputs"], ["outputs"] or ["rank"] Python overwrites node
    state, and under ["parameters"] or ["gradients"] it enters the
    property setter again. *)
Definition setattr (self : fref) (nv : string * aref) : Py T unit :=
  update_fun self (set_attr nv.1 nv.2).

Definition parameter_names (self : fref) : Py T (list string) :=
  f <- get_fun self ;;
  match f_class f with
  | ParameterizedClass _ names _ => ret names
  | _ => raise AttributeError
  end.

Definition gradient_names (self : fref) : Py T (list string) :=
  f <- get_fun self ;;
  match f_class f with
  | ParameterizedClass _ _ names => ret names
  | _ => raise AttributeError
  end.

(** Iterating the assigned value for [zip]. *)
Definition iterate (values : PyValue) : Py T (list aref) :=
  match values with
  | PyNone => raise TypeError
  | PyTuple items | PyList items => ret items
  end.

Definition parameters (self : fref) : Py T (list aref) :=
  names <- parameter_names self ;;
  map_m (getattr self) names.

Definition set_parameters (self : fref) (values : PyValue) : Py T unit :=
  names <- parameter_names self ;;
  items <- iterate values ;;
  for_each (setattr self) (zip names items).

Definition gradients (self : fref) : Py T (list aref) :=
  names <- gradient_names self ;;
  map_m (getattr self) names.

Definition set_gradients (self : fref) (values : PyValue) : Py T unit :=
  names <- gradient_names self ;;
  items <- iterate values ;;
  for_each (setattr self) (zip names items).
End ops.
End ParameterizedFunction.

(** ** Method resolution: the definition an attribute access reaches *)

Section resolution.
Context {T : Type} `{!Tensor T}.

Definition class_of (self : fref) : Py T (FunctionClass T) :=
  f <- get_fun self ;; ret (f_class f).

(** calling the object: [self] applied to the inputs *)
Definition invoke (self : fref) (inputs : list vref) : Py T CallResult :=
  c <- class_of self ;;
  match c with
  | ParameterizedClass _ _ _ => ParameterizedFunction.__call__ self inputs
  | _ => Function.__call__ self inputs
  end.

(** [self.backward(inputs, grad_outputs)] *)
Definition invoke_backward (self : fref) (inputs : list aref)
    (grad_outputs : list (option aref)) : Py T (list (option aref)) :=
  c <- class_of self ;;
  match c with
  | SplitClass => Split.backward inputs grad_outputs
  | _ => Function.backward self inputs grad_outputs
  end.

(** [self.parameters] *)
Definition read_parameters (self : fref) : Py T (list aref) :=
  c <- class_of self ;;
  match c with
  | ParameterizedClass _ _ _ => ParameterizedFunction.parameters self
  | _ => Function.parameters self
  end.

(** [self.gradients] *)
Definition read_gradients (self : fref) : Py T (list aref) :=
  c <- class_of self ;;
  match c with
  | ParameterizedClass _ _ _ => ParameterizedFunction.gradients self
  | _ => Function.gradients self
  end.
End resolution.


(** ** Notions the statements are phrased in *)

Global Instance PyValue_eq_dec : EqDecision PyValue.
Proof. solve_decision. Defined.

(** [Variable(y)]: a leaf over the raw value [y]. *)
Definition leaf_variable (y : aref) : VariableObj := mkVariable y None 0 None None.

(** What [set_creator] does to a variable when the producer [f] has rank [r]. *)
Definition produced_by (f : fref) (r : Z) (x : VariableObj) : VariableObj :=
  set_rank_field r (set_creator_field (Some f) x).

(** The derived variable [add_branch] creates for the branch point [s] of
    rank [r] over a variable [xv]. *)
Definition branch_variable (s : fref) (r : Z) (xv : VariableObj) : VariableObj :=
  mkVariable (v_data xv) (Some s) r None None.

Section spec_side.
Context {T : Type} `{!Tensor T}.

(** The numeric content behind a gradient slot: None for an absent
    gradient. *)
Definition grad_value (arrs : list (Array T)) (g : option aref) : option T :=
  a ← g; a_val <$> arrs !! a.

(** Every gradient that is present is an array of the store. *)
Definition grads_valid (arrs : list (Array T)) (gys : list (option aref)) : Prop :=
  Forall (λ og, ∀ a, og = Some a → is_Some (arrs !! a)) gys.

(** In the spec's words, "the sum of all present branch gradients", None
    when every one is absent; the sum runs left to right. *)
Definition sum_of_present (grads : list (option T)) : option T :=
  match omap id grads with
  | [] => None
  | g :: rest => Some (foldl tadd g rest)
  end.
End spec_side.

Section frames.
Context {T : Type}.
Implicit Types (h : Heap T).

(** The shape of the store in which a consumption of [x] returns: either
    [x] has no splitter attribute yet, or the attribute holds a Split
    object that is intact. *)
Inductive consumable h (x : vref) : Prop :=
| consumable_fresh xv :
    variables h !! x = Some xv → v_splitter xv = None → consumable h x
| consumable_branched xv s (so : FunctionObj T) x0 rest x0v r outs :
    variables h !! x = Some xv → v_splitter xv = Some (Some s) →
    functions h !! s = Some so → f_class so = SplitClass →
    f_inputs so = Some (x0 :: rest) → f_rank so = Some r → f_outputs so = Some outs →
    variables h !! x0 = Some x0v → consumable h x.

(** The Split object [x.splitter] refers to, if any. *)
Definition branch_of h (x : vref) : option fref :=
  match variables h !! x with
  | Some xv => match v_splitter xv with
               | Some (Some s) => Some s
               | _ => None
               end
  | None => None
  end.

(** The derived variables handed out so far for [x]. *)
Definition branch_outputs h (x : vref) : list vref :=
  match branch_of h x with
  | Some s => match functions h !! s with
              | Some so => default [] (f_outputs so)
              | None => []
              end
  | None => []
  end.

(** [x] can be consumed and its branch bookkeeping is in order: either it
    has no splitter attribute, or the attribute holds a Split object whose
    only input is [x] itself. *)
Inductive branch_ready h (x : vref) : Prop :=
| ready_unbranched xv :
    variables h !! x = Some xv → v_splitter xv = None → branch_ready h x
| ready_branched xv s (so : FunctionObj T) r outs :
    variables h !! x = Some xv → v_splitter xv = Some (Some s) →
    functions h !! s = Some so → f_class so = SplitClass →
    f_inputs so = Some [x] → f_rank so = Some r → f_outputs so = Some outs →
    branch_ready h x.

(** How many times [x] occurs among the inputs of a call. *)
Definition consumptions (x : vref) (inputs : list vref) : nat :=
  length (filter (λ y, y = x) inputs).

(** A variable keeps everything but, possibly, its branch link. *)
Definition var_stable (xv xv' : VariableObj) : Prop :=
  v_data xv' = v_data xv ∧ v_creator xv' = v_creator xv ∧
  v_rank xv' = v_rank xv ∧ v_grad xv' = v_grad xv.

(** From [h] to [h'] nothing is deallocated; every variable that was
    there is stable; every function object keeps its class and attribute
    values, and is left as it was unless it is [self] or a Split. *)
Definition extends (self : fref) (h h' : Heap T) : Prop :=
  (length (variables h) ≤ length (variables h'))%nat ∧
  (∀ v xv, variables h !! v = Some xv →
           ∃ xv', variables h' !! v = Some xv' ∧ var_stable xv xv') ∧
  (length (functions h) ≤ length (functions h'))%nat ∧
  (∀ g go, functions h !! g = Some go →
           ∃ go', functions h' !! g = Some go' ∧
                  f_class go' = f_class go ∧ f_attrs go' = f_attrs go ∧
                  (g ≠ self → f_class go ≠ SplitClass → go' = go)).

(** In [h] the node [self] holds [n] inputs and a rank, and the rank is
    the maximum of the ranks its inputs have in [h]: it is the rank of one
    of them, and none has a greater one. *)
Definition rank_is_max (self : fref) (n : nat) (h : Heap T) : Prop :=
  ∃ (fo : FunctionObj T) ins ranks rk,
    functions h !! self = Some fo ∧
    f_inputs fo = Some ins ∧ f_rank fo = Some rk ∧ length ins = n ∧
    Forall2 (λ x rx, v_rank <$> variables h !! x = Some rx) ins ranks ∧
    py_max ranks = Ok rk ∧ rk ∈ ranks ∧
    Forall (λ x, ∃ xv, variables h !! x = Some xv ∧ v_rank xv ≤ rk) ins.

(** From [h] to [h'] the node [self] keeps its output list, and no
    variable has come to name [self] as its creator. *)
Definition quiet (self : fref) (h h' : Heap T) : Prop :=
  f_outputs <$> functions h' !! self = f_outputs <$> functions h !! self ∧
  (∀ y yv', variables h' !! y = Some yv' → v_creator yv' = Some self →
            ∃ yv, variables h !! y = Some yv ∧ v_creator yv = Some self).
End frames.

(** ** A concrete backend, concrete operations and stores, for the examples *)

(** Integer "tensors" under addition. *)
Global Instance Z_tensor : Tensor Z := Z.add.

(** [forward_cpu] of an operation adding one to its single input. *)
Definition add_one_forward : forward_kernel Z := λ _ ins arrs,
  match ins with
  | [x] => match arrs !! x with
           | Some a => (arrs ++ [mkArray (a_type a) (a_val a + 1)], Ok [length arrs])
           | None => (arrs, Raise DanglingReference)
           end
  | _ => (arrs, Raise (BackendError 0))
  end.

(** A plain operation with a host forward only. *)
Definition add_one : FunctionClass Z :=
  PlainClass (mkMethods (Some add_one_forward) None None None).

(** A plain operation that defines no backend method at all. *)
Definition abstract_op : FunctionClass Z := PlainClass no_methods.

(** A parameterized operation with one parameter [W] and its gradient [gW];
    its forward adds one to the input, like [add_one]. *)
Definition linear : FunctionClass Z :=
  ParameterizedClass (mkMethods (Some add_one_forward) None None None) ["W"] ["gW"].

(** One host array holding 2, wrapped in a leaf variable; no operation yet. *)
Definition leaf_heap : Heap Z :=
  mkHeap [mkArray ndarray 2] [mkVariable 0%nat None 0 None None] [].

(** The reading of C3 as it is worded: the branch point of a variable
    appears at its second consumption, so a variable without one still has
    none after being consumed once. *)
Definition branch_made_at_second_consumption : Prop :=
  ∀ (h h' : Heap Z) (self : fref) (x : vref) (r : CallResult),
    branch_of h x = None →
    Function.__call__ self [x] h = (h', Ok r) →
    branch_of h' x = None.

(** The leaf of [leaf_heap] together with a new [add_one] object, at address 0. *)
Definition leaf_and_add_one : Heap Z := (Function.__init__ add_one ∅ leaf_heap).1.

(** The store after [add_one] at address 0 has been called on the leaf. *)
Definition after_add_one : Heap Z :=
  (Function.__call__ 0%nat [0%nat] leaf_and_add_one).1.

(** The leaf together with a new object of the class without methods. *)
Definition leaf_and_abstract_op : Heap Z := (Function.__init__ abstract_op ∅ leaf_heap).1.

(** Two host gradients, holding 2 and 5. *)
Definition two_gradients : Heap Z :=
  mkHeap [mkArray ndarray 2; mkArray ndarray 5] [] [].

(** An input [x], a parameter [W] and its gradient [gW]; a leaf over [x];
    and a [linear] object whose attributes point at [W] and [gW]. *)
Definition linear_heap : Heap Z :=
  mkHeap [mkArray ndarray 2; mkArray ndarray 10; mkArray ndarray 0]
         [mkVariable 0%nat None 0 None None]
         [mkFunction linear None None None (<["W" := 1%nat]> (<["gW" := 2%nat]> ∅))].



(** The [add_one] object with one input slot, as [__call__] leaves it just
    before its first loop. *)
Definition add_one_with_slot : Heap Z :=
  (update_fun 0%nat (set_inputs_field (Some [0%nat])) leaf_and_add_one).1.

(** ** Further notions and stores *)

(** An operation with a host forward and a host backward, and nothing for
    the accelerator; its backward hands the output gradients through. *)
Definition pass_through_backward : backward_kernel Z := λ _ _ gys arrs, (arrs, Ok gys).

Definition host_only : FunctionClass Z :=
  PlainClass (mkMethods (Some add_one_forward) None (Some pass_through_backward) None).

(** A host array holding 2 and an accelerator array holding 5, each wrapped
    in a leaf, and a [host_only] object, at address 0. *)
Definition two_leaves_and_host_only : Heap Z :=
  mkHeap [mkArray ndarray 2; mkArray GPUArray 5]
         [mkVariable 0%nat None 0 None None; mkVariable 1%nat None 0 None None]
         [mkFunction host_only None None None ∅].

(** The store after that object has been called on the host leaf. *)
Definition host_only_called_on_host : Heap Z :=
  (Function.__call__ 0%nat [0%nat] two_leaves_and_host_only).1.

(** The reading of C8 as it is worded: when an operation is called on
    inputs that are ready to be consumed and its class lacks the forward
    method that their raw values select, then after the failed call the
    node has no output list, and no variable anywhere has the node as its
    creator. *)
Definition failed_call_leaves_no_outputs : Prop :=
  ∀ (h h' : Heap Z) (self : fref) (fo : FunctionObj Z)
    (inputs : list vref) (datas : list aref),
    functions h !! self = Some fo →
    f_class fo ≠ SplitClass →
    inputs ≠ [] →
    Forall (branch_ready h) inputs →
    mapM (λ x, v_data <$> variables h !! x) inputs = Some datas →
    (if _is_gpu_input (arrays h) datas
     then m_forward_gpu (methods_of (f_class fo))
     else m_forward_cpu (methods_of (f_class fo))) = None →
    invoke self inputs h = (h', Raise NotImplementedError) →
    f_outputs <$> functions h' !! self = Some None ∧
    ∀ y yv, variables h' !! y = Some yv → v_creator yv ≠ Some self.

(** One accelerator array holding 2, wrapped in a leaf, and a [host_only]
    object. *)
Definition gpu_leaf_and_host_only : Heap Z :=
  mkHeap [mkArray GPUArray 2] [mkVariable 0%nat None 0 None None]
         [mkFunction host_only None None None ∅].

(** The store after [add_one] at address 0 has been called a second time,
    on the same leaf. *)
Definition after_add_one_twice : Heap Z :=
  (Function.__call__ 0%nat [0%nat] after_add_one).1.





(** A host forward that writes a scratch array and then fails. *)
Definition failing_forward : forward_kernel Z := λ _ _ arrs,
  (arrs ++ [mkArray ndarray 0], Raise (BackendError 7)).

Definition failing_op : FunctionClass Z :=
  PlainClass (mkMethods (Some failing_forward) None None None).

(** The leaf together with a new object of the failing class. *)
Definition leaf_and_failing_op : Heap Z := (Function.__init__ failing_op ∅ leaf_heap).1.

(** The store after the node made by calling [add_one] on the leaf has
    been forgotten. *)
Definition after_forget : Heap Z := (Function.forget 0%nat after_add_one).1.

Section links.
Context {T : Type}.

(** In [h] the variable [d] is a branch of [x]: the splitter attribute of
    [x] holds a Split whose only input is [x] and which lists [d] among
    its outputs, and [d] names that Split as its creator and holds the
    raw array of [x]. *)
Definition linked (h : Heap T) (x d : vref) : Prop :=
  ∃ s (so : FunctionObj T) xv dv outs,
    variables h !! x = Some xv ∧ v_splitter xv = Some (Some s) ∧
    functions h !! s = Some so ∧ f_class so = SplitClass ∧
    f_inputs so = Some [x] ∧ f_outputs so = Some outs ∧ d ∈ outs ∧
    variables h !! d = Some dv ∧ v_creator dv = Some s ∧ v_data dv = v_data xv.
End links.

(** ** Running computations: equations of the store monad *)

Section monad_facts.
Context {S : Type}.

Lemma bind_unfold {A B} (m : ST S A) (k : A → ST S B) s :
  bind m k s = match m s with
               | (s', Ok a) => k a s'
               | (s', Raise e) => (s', Raise e)
               end.
Proof. reflexivity. Qed.

Lemma bind_ret {A B} (a : A) (k : A → ST S B) s : bind (ret a) k s = k a s.
Proof. reflexivity. Qed.

Lemma bind_ok {A B} (m : ST S A) (k : A → ST S B) s s' a :
  m s = (s', Ok a) → bind m k s = k a s'.
Proof. intros E. by rewrite bind_unfold, E. Qed.

Lemma bind_raise {A B} (m : ST S A) (k : A → ST S B) s s' e :
  m s = (s', Raise e) → bind m k s = (s', Raise e).
Proof. intros E. by rewrite bind_unfold, E. Qed.

(** A bind returns only if both halves do. *)
Lemma bind_ok_inv {A B} (m : ST S A) (k : A → ST S B) s s' b :
  bind m k s = (s', Ok b) →
  ∃ s1 a, m s = (s1, Ok a) ∧ k a s1 = (s', Ok b).
Proof.
  rewrite bind_unfold. destruct (m s) as [s1 [a|e]]; [eauto | discriminate].
Qed.

(** A bind that raises does so in its first half or in its second. *)
Lemma bind_raise_inv {A B} (m : ST S A) (k : A → ST S B) s s' e :
  bind m k s = (s', Raise e) →
  m s = (s', Raise e) ∨ ∃ s1 a, m s = (s1, Ok a) ∧ k a s1 = (s', Raise e).
Proof.
  rewrite bind_unfold. destruct (m s) as [s1 [a|e1]]; [eauto | intros [= -> ->]; eauto].
Qed.

(** A read-only traversal: [map_m] of a function that only inspects the
    store. *)
Lemma map_m_pure {A B} (f : A → ST S B) (g : S → A → option B) (err : PyError) xs s :
  (∀ x, f x s = (s, match g s x with Some b => Ok b | None => Raise err end)) →
  map_m f xs s = (s, match mapM (g s) xs with Some bs => Ok bs | None => Raise err end).
Proof.
  intros Hf. induction xs as [|x xs IH]; [done|].
  cbn [map_m]. rewrite bind_unfold, Hf.
  change (mapM (g s) (x :: xs)) with (b ← g s x; bs ← mapM (g s) xs; Some (b :: bs)).
  destruct (g s x) as [b|]; [|done].
  rewrite bind_unfold, IH. cbn. by destruct (mapM (g s) xs).
Qed.
End monad_facts.

(** ** Addresses: a freshly appended object sits at the old length *)

Lemma lookup_snoc_new {A} (l : list A) (x : A) : (l ++ [x]) !! length l = Some x.
Proof. by apply list_lookup_middle. Qed.

Lemma lookup_snoc_old {A} (l : list A) (x y : A) (i : nat) :
  l !! i = Some y → (l ++ [x]) !! i = Some y.
Proof. apply lookup_app_l_Some. Qed.

Lemma alter_snoc_new {A} (g : A → A) (l : list A) (x : A) :
  alter g (length l) (l ++ [x]) = l ++ [g x].
Proof. rewrite alter_app_r_alt by done. by rewrite Nat.sub_diag. Qed.

Lemma alter_snoc_old {A} (g : A → A) (l : list A) (x : A) (i : nat) :
  (i < length l)%nat → alter g i (l ++ [x]) = alter g i l ++ [x].
Proof. apply alter_app_l. Qed.

(** Writing the same field of several cells, one after the other. *)
Lemma foldl_alter_length {A} (g : A → A) (ys : list nat) (l : list A) :
  length (foldl (λ l y, alter g y l) l ys) = length l.
Proof.
  revert l. induction ys as [|y ys IH]; intros l; [done|].
  cbn. by rewrite IH, length_alter.
Qed.

Lemma foldl_alter_lookup {A} (g : A → A) (ys : list nat) (l : list A) (v : nat) :
  (∀ x, g (g x) = g x) →
  foldl (λ l y, alter g y l) l ys !! v
  = if decide (v ∈ ys) then g <$> l !! v else l !! v.
Proof.
  intros Hg. revert l. induction ys as [|y ys IH]; intros l.
  { cbn. by rewrite decide_False by apply not_elem_of_nil. }
  cbn [foldl]. rewrite IH.
  destruct (decide (v = y)) as [->|Hne].
  - rewrite list_lookup_alter_eq.
    rewrite (decide_True (P := y ∈ y :: ys)) by apply list_elem_of_here.
    destruct (l !! y) as [x|]; cbn; [|by case_decide].
    case_decide; by rewrite ?Hg.
  - rewrite list_lookup_alter_ne by done.
    destruct (decide (v ∈ ys)) as [Hin|Hnin].
    + by rewrite decide_True by by apply list_elem_of_further.
    + rewrite decide_False; [done|]. by intros [?|?]%elem_of_cons.
Qed.

(** ** Reading and writing the store *)

Section store_facts.
Context {T : Type}.
Implicit Types (h : Heap T) (v x y : vref) (f s : fref) (a : aref).

Lemma get_array_ok h a arr : arrays h !! a = Some arr → get_array a h = (h, Ok arr).
Proof. unfold get_array. by intros ->. Qed.
Lemma get_var_ok h v xv : variables h !! v = Some xv → get_var v h = (h, Ok xv).
Proof. unfold get_var. by intros ->. Qed.
Lemma get_fun_ok h f fo : functions h !! f = Some fo → get_fun f h = (h, Ok fo).
Proof. unfold get_fun. by intros ->. Qed.

Lemma get_var_inv h v h' xv :
  get_var v h = (h', Ok xv) → h' = h ∧ variables h !! v = Some xv.
Proof. unfold get_var. destruct (variables h !! v); cbn; [by intros [= <- <-] | discriminate]. Qed.
Lemma get_fun_inv h f h' fo :
  get_fun f h = (h', Ok fo) → h' = h ∧ functions h !! f = Some fo.
Proof. unfold get_fun. destruct (functions h !! f); cbn; [by intros [= <- <-] | discriminate]. Qed.
Lemma get_array_inv h a h' arr :
  get_array a h = (h', Ok arr) → h' = h ∧ arrays h !! a = Some arr.
Proof. unfold get_array. destruct (arrays h !! a); cbn; [by intros [= <- <-] | discriminate]. Qed.

Lemma get_var_raise h v h' e : get_var v h = (h', Raise e) → h' = h.
Proof. unfold get_var. destruct (variables h !! v); cbn; [discriminate | by intros [= <- _]]. Qed.
Lemma get_fun_raise h f h' e : get_fun f h = (h', Raise e) → h' = h.
Proof. unfold get_fun. destruct (functions h !! f); cbn; [discriminate | by intros [= <- _]]. Qed.

Lemma update_var_ok h v g xv :
  variables h !! v = Some xv →
  update_var v g h = (with_variables (alter g v) h, Ok tt).
Proof. intros E. unfold update_var. by rewrite (bind_ok _ _ _ _ _ (get_var_ok _ _ _ E)). Qed.
Lemma update_fun_ok h f g fo :
  functions h !! f = Some fo →
  update_fun f g h = (with_functions (alter g f) h, Ok tt).
Proof. intros E. unfold update_fun. by rewrite (bind_ok _ _ _ _ _ (get_fun_ok _ _ _ E)). Qed.
Lemma update_array_ok h a g arr :
  arrays h !! a = Some arr →
  update_array a g h = (with_arrays (alter g a) h, Ok tt).
Proof. intros E. unfold update_array. by rewrite (bind_ok _ _ _ _ _ (get_array_ok _ _ _ E)). Qed.

Lemma update_var_inv h v g h' u :
  update_var v g h = (h', Ok u) →
  is_Some (variables h !! v) ∧ h' = with_variables (alter g v) h.
Proof.
  unfold update_var. intros (h1 & xv & [-> E]%get_var_inv & E')%bind_ok_inv.
  injection E' as <-. eauto.
Qed.
Lemma update_fun_inv h f g h' u :
  update_fun f g h = (h', Ok u) →
  is_Some (functions h !! f) ∧ h' = with_functions (alter g f) h.
Proof.
  unfold update_fun. intros (h1 & fo & [-> E]%get_fun_inv & E')%bind_ok_inv.
  injection E' as <-. eauto.
Qed.
Lemma update_fun_raise h f g h' e : update_fun f g h = (h', Raise e) → h' = h.
Proof.
  unfold update_fun. intros [E|(h1 & fo & _ & E)]%bind_raise_inv; [|discriminate].
  by apply get_fun_raise in E.
Qed.
Lemma update_var_raise h v g h' e : update_var v g h = (h', Raise e) → h' = h.
Proof.
  unfold update_var. intros [E|(h1 & fo & _ & E)]%bind_raise_inv; [|discriminate].
  by apply get_var_raise in E.
Qed.

(** [for y in ys: y.field = c] over cells that exist. *)
Lemma for_each_update_var (g : VariableObj → VariableObj) (ys : list vref) h :
  Forall (λ y, is_Some (variables h !! y)) ys →
  for_each (λ y, update_var y g) ys h
  = (with_variables (λ l, foldl (λ l y, alter g y l) l ys) h, Ok tt).
Proof.
  revert h. induction ys as [|y ys IH]; intros h Hv.
  { by destruct h. }
  inversion_clear Hv as [|? ? [xv Hy] Hys].
  cbn [for_each]. rewrite (bind_ok _ _ _ _ _ (update_var_ok _ _ g _ Hy)).
  rewrite IH; [done|].
  eapply Forall_impl; [exact Hys|]. intros z Hz. cbn.
  apply lookup_lt_is_Some. rewrite length_alter. by apply lookup_lt_is_Some.
Qed.
End store_facts.

(** ** Branch points: [Split.__init__] and [Split.add_branch] *)

(** Peel one bind off a computation that returned. *)
Tactic Notation "bind_inv" hyp(H) "as" ident(h1) ident(a) ident(E) :=
  apply bind_ok_inv in H as (h1 & a & E & H).

Section split_facts.
Context {T : Type} `{!Tensor T}.
Implicit Types (h : Heap T) (v x y d : vref) (f s self : fref) (a : aref).

Lemma Split_init_ok h x xv :
  variables h !! x = Some xv →
  Split.__init__ x h
  = (with_functions
       (λ l, l ++ [mkFunction SplitClass (Some [x]) (Some []) (Some (v_rank xv)) ∅]) h,
     Ok (length (functions h))).
Proof.
  intros Hx. unfold Split.__init__.
  by rewrite (bind_ok _ _ _ _ _ (get_var_ok _ _ _ Hx)).
Qed.

Lemma add_branch_ok h s (so : FunctionObj T) x rest xv r outs :
  functions h !! s = Some so →
  f_class so = SplitClass →
  f_inputs so = Some (x :: rest) →
  f_rank so = Some r →
  f_outputs so = Some outs →
  variables h !! x = Some xv →
  Split.add_branch s h
  = (mkHeap (arrays h)
            (variables h ++ [branch_variable s r xv])
            (alter (set_outputs_field (Some (outs ++ [length (variables h)]))) s
                   (functions h)),
     Ok (length (variables h))).
Proof.
  intros Hs Hc Hi Hr Ho Hx. unfold Split.add_branch.
  rewrite (bind_ok _ _ _ _ _ (get_fun_ok _ _ _ Hs)), Hc, Hi, bind_ret.
  cbn [lookup list_lookup]. rewrite bind_ret.
  rewrite (bind_ok _ _ _ _ _ (get_var_ok _ _ _ Hx)).
  unfold Variable_.__init__, Variable_.set_creator, alloc_var.
  rewrite bind_unfold, bind_unfold, bind_unfold.
  rewrite (get_fun_ok _ _ so) by done. rewrite Hr.
  erewrite update_var_ok by (cbn; apply lookup_snoc_new).
  rewrite bind_unfold, (get_fun_ok _ _ so) by done. rewrite Ho.
  rewrite bind_unfold, (update_fun_ok _ _ _ so) by done.
  unfold ret, with_functions, with_variables. cbn [arrays variables functions].
  by rewrite alter_snoc_new.
Qed.

(** [add_branch] returns only on a well-formed Split object, and then as
    above. *)
Lemma add_branch_inv h s h' d :
  Split.add_branch s h = (h', Ok d) →
  ∃ (so : FunctionObj T) x rest xv r outs,
    functions h !! s = Some so ∧ f_class so = SplitClass ∧
    f_inputs so = Some (x :: rest) ∧ f_rank so = Some r ∧
    f_outputs so = Some outs ∧ variables h !! x = Some xv.
Proof.
  unfold Split.add_branch. intros H.
  bind_inv H as h1 so E. apply get_fun_inv in E as [-> Hs].
  destruct (f_class so) eqn:Hc; try discriminate.
  destruct (f_inputs so) as [[|x rest]|] eqn:Hi; try discriminate.
  rewrite bind_ret in H. cbn [lookup list_lookup] in H. rewrite bind_ret in H.
  bind_inv H as h1 xv E. apply get_var_inv in E as [-> Hx].
  unfold Variable_.__init__, Variable_.set_creator, alloc_var in H.
  rewrite bind_unfold, bind_unfold, bind_unfold in H.
  rewrite (get_fun_ok _ _ so) in H by done.
  destruct (f_rank so) as [r|] eqn:Hr; [|discriminate].
  erewrite update_var_ok in H by (cbn; apply lookup_snoc_new).
  rewrite bind_unfold, (get_fun_ok _ _ so) in H by done.
  destruct (f_outputs so) as [outs|] eqn:Ho; [|discriminate].
  by exists so, x, rest, xv, r, outs.
Qed.
End split_facts.

(** ** One consumption: the body of the first loop of [__call__] *)

Section resolve_facts.
Context {T : Type} `{!Tensor T}.
Implicit Types (h : Heap T) (v x y d : vref) (f s self : fref) (a : aref).
Implicit Types (fo so : FunctionObj T) (xv : VariableObj).

Lemma get_inputs_ok h self fo l :
  functions h !! self = Some fo → f_inputs fo = Some l →
  Function.get_inputs self h = (h, Ok l).
Proof.
  intros Hf Hi. unfold Function.get_inputs.
  by rewrite (bind_ok _ _ _ _ _ (get_fun_ok _ _ _ Hf)), Hi.
Qed.

Lemma get_inputs_inv h self h' l :
  Function.get_inputs self h = (h', Ok l) →
  h' = h ∧ ∃ fo, functions h !! self = Some fo ∧ f_inputs fo = Some l.
Proof.
  unfold Function.get_inputs. intros H.
  bind_inv H as h1 fo E. apply get_fun_inv in E as [-> Hf].
  destruct (f_inputs fo) as [l'|] eqn:Hi; [|discriminate].
  injection H as <- <-. eauto.
Qed.

Lemma set_input_ok h self fo l i d :
  functions h !! self = Some fo → f_inputs fo = Some l → (i < length l)%nat →
  Function.set_input self i d h
  = (with_functions (alter (set_inputs_field (Some (<[i := d]> l))) self) h, Ok tt).
Proof.
  intros Hf Hi Hlt. unfold Function.set_input.
  rewrite (bind_ok _ _ _ _ _ (get_inputs_ok _ _ _ _ Hf Hi)).
  rewrite decide_True by done. by apply update_fun_ok with fo.
Qed.

Lemma set_input_inv h self i d h' u :
  Function.set_input self i d h = (h', Ok u) →
  ∃ fo l, functions h !! self = Some fo ∧ f_inputs fo = Some l ∧ (i < length l)%nat.
Proof.
  unfold Function.set_input. intros H.
  bind_inv H as h1 l E. apply get_inputs_inv in E as (-> & fo & Hf & Hi).
  case_decide; [eauto|discriminate].
Qed.

(** First consumption of [x]: a Split is made for it and gets its first
    branch. *)
Lemma resolve_input_first h self fo l i x xv :
  variables h !! x = Some xv → v_splitter xv = None →
  functions h !! self = Some fo → f_inputs fo = Some l → (i < length l)%nat →
  let s := length (functions h) in
  let d := length (variables h) in
  Function.resolve_input self i x h
  = (mkHeap (arrays h)
       (alter (set_splitter_field (Some (Some s))) x (variables h)
          ++ [branch_variable s (v_rank xv) xv])
       (alter (set_inputs_field (Some (<[i := d]> l))) self (functions h)
          ++ [mkFunction SplitClass (Some [x]) (Some [d]) (Some (v_rank xv)) ∅]),
     Ok tt).
Proof.
  intros Hx Hsp Hf Hi Hlt s d. unfold Function.resolve_input.
  rewrite (bind_ok _ _ _ _ _ (get_var_ok _ _ _ Hx)), Hsp.
  rewrite bind_unfold, bind_unfold, (Split_init_ok _ _ _ Hx).
  erewrite update_var_ok by (cbn; exact Hx).
  set (h2 := with_variables _ _).
  assert (Hx2 : variables h2 !! x = Some (set_splitter_field (Some (Some s)) xv)).
  { unfold h2. cbn. by rewrite list_lookup_alter_eq, Hx. }
  rewrite (bind_ok _ _ _ _ _ (get_var_ok _ _ _ Hx2)). cbn [v_splitter set_splitter_field].
  rewrite bind_unfold.
  erewrite (add_branch_ok h2 s _ x [] _ (v_rank xv) []);
    [| unfold h2; cbn; apply lookup_snoc_new | done | done | done | done | exact Hx2].
  assert (Hlen : length (variables h2) = d).
  { unfold h2. cbn. by rewrite length_alter. }
  assert (Hself : (self < s)%nat) by (by eapply lookup_lt_Some).
  erewrite set_input_ok; [| | exact Hi | exact Hlt].
  2:{ cbn. rewrite list_lookup_alter_ne by lia. by apply lookup_snoc_old. }
  unfold with_functions. cbn [arrays variables functions]. rewrite Hlen.
  unfold h2. cbn [arrays variables functions with_variables with_functions].
  f_equal. f_equal. unfold s.
  rewrite alter_snoc_new, alter_snoc_old by done. done.
Qed.

(** A later consumption of [x]: its Split gets one more branch. *)
Lemma resolve_input_again h self fo l i x xv s so x0 rest x0v r outs :
  variables h !! x = Some xv → v_splitter xv = Some (Some s) →
  functions h !! s = Some so → f_class so = SplitClass →
  f_inputs so = Some (x0 :: rest) → f_rank so = Some r → f_outputs so = Some outs →
  variables h !! x0 = Some x0v →
  functions h !! self = Some fo → f_inputs fo = Some l → (i < length l)%nat →
  let d := length (variables h) in
  Function.resolve_input self i x h
  = (mkHeap (arrays h)
       (variables h ++ [branch_variable s r x0v])
       (alter (set_inputs_field (Some (<[i := d]> l))) self
          (alter (set_outputs_field (Some (outs ++ [d]))) s (functions h))),
     Ok tt).
Proof.
  intros Hx Hsp Hs Hc Hsi Hr Ho Hx0 Hf Hi Hlt d. unfold Function.resolve_input.
  rewrite (bind_ok _ _ _ _ _ (get_var_ok _ _ _ Hx)), Hsp, bind_ret.
  rewrite (bind_ok _ _ _ _ _ (get_var_ok _ _ _ Hx)), Hsp.
  rewrite bind_unfold, (add_branch_ok _ _ _ _ _ _ _ _ Hs Hc Hsi Hr Ho Hx0).
  destruct (decide (self = s)) as [->|Hne].
  - assert (fo = so) as -> by congruence.
    erewrite (set_input_ok _ s (set_outputs_field _ so) l); [done| |exact Hi|done].
    cbn. by rewrite list_lookup_alter_eq, Hs.
  - erewrite (set_input_ok _ self fo l); [done| |done|done].
    cbn. by rewrite list_lookup_alter_ne.
Qed.

(** A consumption returns only from such a store, and only if the
    operation has a slot [i] to put the branch in. *)
Lemma resolve_input_inv h self fo i x h' u :
  functions h !! self = Some fo →
  Function.resolve_input self i x h = (h', Ok u) →
  consumable h x ∧ ∃ l, f_inputs fo = Some l ∧ (i < length l)%nat.
Proof.
  intros Hf H. pose proof H as H0. unfold Function.resolve_input in H.
  bind_inv H as h1 xv E. apply get_var_inv in E as [-> Hx].
  destruct (v_splitter xv) as [[s|]|] eqn:Hsp.
  - rewrite bind_ret, (bind_ok _ _ _ _ _ (get_var_ok _ _ _ Hx)), Hsp in H.
    bind_inv H as h1 d E.
    pose proof E as (so & x0 & rest & x0v & r & outs & Hs & Hc & Hsi & Hr & Ho & Hx0)%add_branch_inv.
    split; [by eapply consumable_branched|].
    rewrite (add_branch_ok _ _ _ _ _ _ _ _ Hs Hc Hsi Hr Ho Hx0) in E.
    injection E as <- <-.
    apply set_input_inv in H as (fo1 & l & Hf1 & Hi & Hlt). cbn in Hf1.
    exists l. split; [|done].
    destruct (decide (self = s)) as [->|Hne].
    + rewrite list_lookup_alter_eq, Hs in Hf1. injection Hf1 as <-.
      replace fo with so by congruence. done.
    + rewrite list_lookup_alter_ne in Hf1 by done. congruence.
  - rewrite bind_ret, (bind_ok _ _ _ _ _ (get_var_ok _ _ _ Hx)), Hsp in H.
    discriminate.
  - split; [by eapply consumable_fresh|].
    rewrite bind_unfold, bind_unfold, (Split_init_ok _ _ _ Hx) in H.
    erewrite update_var_ok in H by (cbn; exact Hx).
    set (h2 := with_variables _ _) in H.
    assert (Hx2 : variables h2 !! x
                  = Some (set_splitter_field (Some (Some (length (functions h)))) xv)).
    { unfold h2. cbn. by rewrite list_lookup_alter_eq, Hx. }
    rewrite (bind_ok _ _ _ _ _ (get_var_ok _ _ _ Hx2)) in H.
    cbn [v_splitter set_splitter_field] in H. rewrite bind_unfold in H.
    erewrite (add_branch_ok h2 _ _ x [] _ (v_rank xv) []) in H;
      [| unfold h2; cbn; apply lookup_snoc_new | done | done | done | done | exact Hx2].
    apply set_input_inv in H as (fo1 & l & Hf1 & Hi & Hlt). cbn in Hf1.
    assert (Hself : (self < length (functions h))%nat) by (by eapply lookup_lt_Some).
    rewrite list_lookup_alter_ne in Hf1 by lia.
    rewrite (lookup_snoc_old _ _ _ _ Hf) in Hf1. injection Hf1 as <-. eauto.
Qed.

Lemma extends_refl self h : extends self h h.
Proof. split_and!; try done; intros ? o ?; exists o; by split_and!. Qed.

Lemma extends_trans self h1 h2 h3 :
  extends self h1 h2 → extends self h2 h3 → extends self h1 h3.
Proof.
  intros (L1 & V1 & M1 & F1) (L2 & V2 & M2 & F2). split_and!; [lia| |lia|].
  - intros v xv Hv. destruct (V1 _ _ Hv) as (xv1 & Hv1 & ? & ? & ? & ?).
    destruct (V2 _ _ Hv1) as (xv2 & Hv2 & ? & ? & ? & ?).
    exists xv2. split; [done|]. unfold var_stable. split_and!; congruence.
  - intros g go Hg. destruct (F1 _ _ Hg) as (go1 & Hg1 & Hc1 & Ha1 & Hsame1).
    destruct (F2 _ _ Hg1) as (go2 & Hg2 & Hc2 & Ha2 & Hsame2).
    exists go2. split_and!; [done|congruence|congruence|].
    intros Hne Hns. rewrite Hsame2, Hsame1; [done..|]. by rewrite Hsame1.
Qed.

(** Every variable survives an append and an update of its splitter. *)
Lemma variables_stable_step (vars : list VariableObj) (g : VariableObj → VariableObj)
    x (dv : VariableObj) v xv :
  (∀ o, var_stable o (g o)) →
  vars !! v = Some xv →
  ∃ xv', (alter g x vars ++ [dv]) !! v = Some xv' ∧ var_stable xv xv'.
Proof.
  intros Hg Hv. destruct (decide (x = v)) as [->|Hne].
  - exists (g xv). split; [|done].
    apply lookup_snoc_old. by rewrite list_lookup_alter_eq, Hv.
  - exists xv. split; [|done].
    apply lookup_snoc_old. by rewrite list_lookup_alter_ne.
Qed.

(** What one consumption does to the store. *)
Lemma resolve_input_step h self fo i x h' u :
  functions h !! self = Some fo →
  Function.resolve_input self i x h = (h', Ok u) →
  extends self h h' ∧ arrays h' = arrays h ∧
  length (variables h') = S (length (variables h)) ∧
  ∃ l fo', f_inputs fo = Some l ∧ (i < length l)%nat ∧
           functions h' !! self = Some fo' ∧
           f_inputs fo' = Some (<[i := length (variables h)]> l).
Proof.
  intros Hf H.
  destruct (resolve_input_inv _ _ _ _ _ _ _ Hf H) as (Hcons & l & Hi & Hlt).
  assert (Hself : (self < length (functions h))%nat) by (by eapply lookup_lt_Some).
  destruct Hcons as [xv Hx Hsp | xv s so x0 rest x0v r outs Hx Hsp Hs Hc Hsi Hr Ho Hx0].
  - rewrite (resolve_input_first _ _ _ _ _ _ _ Hx Hsp Hf Hi Hlt) in H.
    injection H as <- <-. cbn [arrays variables functions].
    split_and!.
    + unfold extends. cbn [arrays variables functions]. split_and!.
      * rewrite length_app, length_alter. lia.
      * intros v xv0 Hv. by apply variables_stable_step.
      * rewrite length_app, length_alter. lia.
      * intros g go Hg. destruct (decide (self = g)) as [->|Hne].
        -- eexists. split; [apply lookup_snoc_old; by rewrite list_lookup_alter_eq, Hg|].
           by split_and!.
        -- exists go. split; [apply lookup_snoc_old; by rewrite list_lookup_alter_ne|].
           by split_and!.
    + done.
    + rewrite length_app, length_alter. cbn. lia.
    + exists l, (set_inputs_field (Some (<[i := length (variables h)]> l)) fo).
      split_and!; try done.
      apply lookup_snoc_old. by rewrite list_lookup_alter_eq, Hf.
  - rewrite (resolve_input_again _ _ _ _ _ _ _ _ _ _ _ _ _ _
               Hx Hsp Hs Hc Hsi Hr Ho Hx0 Hf Hi Hlt) in H.
    injection H as <- <-. cbn [arrays variables functions].
    split_and!.
    + unfold extends. cbn [arrays variables functions]. split_and!.
      * rewrite length_app. lia.
      * intros v xv0 Hv. exists xv0. split; [by apply lookup_snoc_old|done].
      * rewrite !length_alter. lia.
      * intros g go Hg.
        destruct (decide (self = g)) as [->|Hne];
          [rewrite list_lookup_alter_eq | rewrite list_lookup_alter_ne by done];
          (destruct (decide (s = g)) as [->|Hne2];
           [rewrite list_lookup_alter_eq | rewrite list_lookup_alter_ne by done]);
          rewrite Hg; cbn; eexists; (split; [reflexivity|]);
          split_and!; try done.
        intros _ Hns. destruct Hns. congruence.
    + done.
    + rewrite length_app. cbn. lia.
    + rewrite list_lookup_alter_eq.
      destruct (decide (self = s)) as [->|Hne].
      * rewrite list_lookup_alter_eq, Hf. cbn. eauto 10.
      * rewrite list_lookup_alter_ne, Hf by done. cbn. eauto 10.
Qed.

(** The whole first loop: input number [k] is replaced by the variable
    allocated [k]-th, and the store is extended. *)
Lemma resolve_inputs_step self xs : ∀ i h h' fo l u,
  functions h !! self = Some fo → f_inputs fo = Some l →
  Function.resolve_inputs self i xs h = (h', Ok u) →
  extends self h h' ∧ arrays h' = arrays h ∧
  length (variables h') = (length (variables h) + length xs)%nat ∧
  ∃ fo' l', functions h' !! self = Some fo' ∧ f_inputs fo' = Some l' ∧
            length l' = length l ∧
            (∀ j, (j < i ∨ i + length xs ≤ j)%nat → l' !! j = l !! j) ∧
            (∀ k, (k < length xs)%nat →
                  l' !! (i + k)%nat = Some (length (variables h) + k)%nat).
Proof.
  induction xs as [|x xs IH]; intros i h h' fo l u Hf Hi H.
  { injection H as <- _. split_and!; [apply extends_refl|done|cbn; lia|].
    exists fo, l. split_and!; try done. cbn. intros; lia. }
  cbn [Function.resolve_inputs] in H. bind_inv H as h1 u1 E.
  destruct (resolve_input_step _ _ _ _ _ _ _ Hf E)
    as (Hext1 & Harr1 & Hlen1 & l0 & fo1 & Hi0 & Hlt & Hf1 & Hi1).
  assert (l0 = l) as -> by congruence.
  destruct (IH _ _ _ _ _ _ Hf1 Hi1 H)
    as (Hext & Harr & Hlen & fo' & l' & Hf' & Hi' & Hll & Hout & Hin).
  rewrite length_insert in Hll.
  split_and!; [by eapply extends_trans|congruence|cbn; lia|].
  exists fo', l'. split_and!; try done.
  - intros j Hj. rewrite Hout by (cbn in Hj; lia).
    apply list_lookup_insert_ne. cbn in Hj. lia.
  - intros [|k] Hk.
    + rewrite Nat.add_0_r, Hout by lia. rewrite Nat.add_0_r.
      by apply list_lookup_insert_eq.
    + replace (i + S k)%nat with (S i + k)%nat by lia.
      rewrite Hin by (cbn in Hk; lia). f_equal. lia.
Qed.
End resolve_facts.

(** ** Rank, forward, and wrapping the outputs *)

Lemma py_max_spec (l : list Z) (m : Z) :
  py_max l = Ok m → m ∈ l ∧ Forall (λ r, r ≤ m) l.
Proof.
  destruct l as [|x l]; [discriminate|]. cbn. intros [= <-].
  revert x. induction l as [|y l IH]; intros x.
  { cbn. split; [apply list_elem_of_here|]. by repeat constructor. }
  cbn [foldl]. destruct (IH (Z.max x y)) as [Hin Hall].
  inversion_clear Hall as [|? ? Hxy Hl]. split.
  - apply elem_of_cons in Hin as [Heq|Hin].
    + rewrite Heq. destruct (Z.max_spec x y) as [[_ ->]|[_ ->]].
      * apply list_elem_of_further, list_elem_of_here.
      * apply list_elem_of_here.
    + by do 2 apply list_elem_of_further.
  - constructor; [lia|]. constructor; [lia|done].
Qed.

Section call_facts.
Context {T : Type} `{!Tensor T}.
Implicit Types (h : Heap T) (v x y d : vref) (f s self : fref) (a : aref).
Implicit Types (fo so : FunctionObj T) (xv : VariableObj).

Lemma rank_of_pure x h :
  Function.rank_of x h
  = (h, match v_rank <$> variables h !! x with
        | Some r => Ok r
        | None => Raise DanglingReference
        end).
Proof.
  unfold Function.rank_of, get_var. rewrite bind_unfold.
  by destruct (variables h !! x).
Qed.

Lemma data_of_pure x h :
  Function.data_of x h
  = (h, match v_data <$> variables h !! x with
        | Some r => Ok r
        | None => Raise DanglingReference
        end).
Proof.
  unfold Function.data_of, get_var. rewrite bind_unfold.
  by destruct (variables h !! x).
Qed.

Lemma compute_rank_inv self h h' u :
  Function.compute_rank self h = (h', Ok u) →
  ∃ fo ins ranks rk,
    functions h !! self = Some fo ∧ f_inputs fo = Some ins ∧
    mapM (λ x, v_rank <$> variables h !! x) ins = Some ranks ∧
    py_max ranks = Ok rk ∧
    h' = with_functions (alter (set_rank_of_function (Some rk)) self) h.
Proof.
  unfold Function.compute_rank. intros H.
  bind_inv H as h1 ins E. apply get_inputs_inv in E as (-> & fo & Hf & Hi).
  rewrite bind_unfold in H.
  rewrite (map_m_pure _ (λ h x, v_rank <$> variables h !! x) DanglingReference) in H
    by (intros; apply rank_of_pure).
  destruct (mapM _ ins) as [ranks|] eqn:Hr; [|discriminate].
  bind_inv H as h1 rk E. unfold lift in E.
  destruct (py_max ranks) as [rk'|] eqn:Hm; [|discriminate].
  injection E as <- <-.
  apply update_fun_inv in H as [_ ->]. by exists fo, ins, ranks, rk'.
Qed.

(** [forward] works on the raw arrays only. *)
Lemma forward_frame self datas h h' (r : result (list aref)) :
  Function.forward self datas h = (h', r) →
  variables h' = variables h ∧ functions h' = functions h.
Proof.
  assert (Hk : ∀ (k : option (forward_kernel T)) (fo : FunctionObj T) h0 h1 r0,
    match k with
    | Some k => run_kernel (k (f_attrs fo) datas)
    | None => raise NotImplementedError
    end h0 = (h1, r0) → variables h1 = variables h0 ∧ functions h1 = functions h0).
  { intros [k|] fo0 h0 h1 r0; [|by intros [= <- _]].
    unfold run_kernel. destruct (k _ _ _) as [arrs r1]. by intros [= <- _]. }
  unfold Function.forward, gets. rewrite bind_unfold.
  destruct (_is_gpu_input _ _);
    unfold Function.forward_gpu, Function.forward_cpu, get_fun;
    rewrite bind_unfold; (destruct (functions h !! self) as [fo|]; cbn [deref ret raise];
      [apply Hk | by intros [= <- _]]).
Qed.

(** A leaf as [Variable(y)] makes it. *)
Lemma map_m_Variable_init (outputs : list aref) : ∀ h,
  map_m Variable_.__init__ outputs h
  = (with_variables (λ l, l ++ map leaf_variable outputs) h,
     Ok (seq (length (variables h)) (length outputs))).
Proof.
  induction outputs as [|y outputs IH]; intros h.
  { cbn. unfold with_variables. rewrite app_nil_r. by destruct h. }
  cbn [map_m]. unfold Variable_.__init__ at 1. unfold alloc_var at 1.
  rewrite bind_unfold, bind_unfold, IH.
  unfold with_variables. cbn [arrays variables functions ret].
  rewrite <- app_assoc, length_app. cbn [length map app seq].
  by rewrite Nat.add_1_r.
Qed.

Lemma for_each_set_creator self fo rk (outs : list vref) : ∀ h,
  functions h !! self = Some fo → f_rank fo = Some rk →
  Forall (λ y, is_Some (variables h !! y)) outs →
  for_each (λ y, Variable_.set_creator y self) outs h
  = (with_variables
       (λ l, foldl (λ l y, alter (produced_by self rk) y l) l outs) h,
     Ok tt).
Proof.
  induction outs as [|y outs IH]; intros h Hf Hr Hv.
  { by destruct h. }
  inversion_clear Hv as [|? ? [xv Hy] Hys].
  cbn [for_each]. unfold Variable_.set_creator at 1.
  rewrite bind_unfold, bind_unfold, (get_fun_ok _ _ _ Hf), Hr.
  rewrite (update_var_ok _ _ _ _ Hy).
  rewrite IH; [done|done|done|].
  eapply Forall_impl; [exact Hys|]. intros z Hz. cbn.
  apply lookup_lt_is_Some. rewrite length_alter. by apply lookup_lt_is_Some.
Qed.

(** Updating the cells appended last, each once. *)
Lemma foldl_alter_appended {A} (g : A → A) (l l2 : list A) (n : nat) :
  (∀ o, g (g o) = g o) → n = length l2 →
  foldl (λ l y, alter g y l) (l ++ l2) (seq (length l) n) = l ++ map g l2.
Proof.
  intros Hg ->. apply list_eq. intros i. rewrite foldl_alter_lookup by done.
  destruct (decide (i < length l)%nat) as [Hlt|Hge].
  - rewrite decide_False by (rewrite elem_of_seq; lia).
    by rewrite !lookup_app_l.
  - rewrite !lookup_app_r by lia. change (map g l2) with (g <$> l2).
    rewrite list_lookup_fmap.
    case_decide as Hin; [done|].
    rewrite elem_of_seq in Hin.
    rewrite (lookup_ge_None_2 l2) by lia. done.
Qed.

Lemma run_forward_inv self fo rk h h' r :
  functions h !! self = Some fo → f_rank fo = Some rk →
  Function.run_forward self h = (h', Ok r) →
  ∃ ins datas arrs' outputs,
    f_inputs fo = Some ins ∧
    mapM (λ x, v_data <$> variables h !! x) ins = Some datas ∧
    Function.forward self datas h = (with_arrays (λ _, arrs') h, Ok outputs) ∧
    let outs := seq (length (variables h)) (length outputs) in
    h' = mkHeap arrs'
           (variables h ++ map (λ y, produced_by self rk (leaf_variable y)) outputs)
           (alter (set_outputs_field (Some outs)) self (functions h)) ∧
    r = pack_outputs outs.
Proof.
  intros Hf Hr H. unfold Function.run_forward in H.
  bind_inv H as h1 ins E. apply get_inputs_inv in E as (-> & fo0 & Hf0 & Hi).
  assert (fo0 = fo) as -> by congruence.
  rewrite bind_unfold in H.
  rewrite (map_m_pure _ (λ h x, v_data <$> variables h !! x) DanglingReference) in H
    by (intros; apply data_of_pure).
  destruct (mapM _ ins) as [datas|] eqn:Hd; [|discriminate].
  bind_inv H as h1 outputs E.
  destruct (forward_frame _ _ _ _ _ E) as [Hv1 Hf1].
  rewrite bind_unfold, map_m_Variable_init in H.
  rewrite bind_unfold in H.
  erewrite update_fun_ok in H by (cbn; rewrite Hf1; exact Hf).
  rewrite bind_unfold in H.
  erewrite (for_each_set_creator self (set_outputs_field _ fo) rk) in H.
  2:{ cbn. by rewrite Hf1, list_lookup_alter_eq, Hf. }
  2:{ done. }
  2:{ cbn. apply Forall_forall. intros y [Hy1 Hy2]%elem_of_seq.
      apply lookup_lt_is_Some. rewrite length_app, length_map. lia. }
  cbn in H. injection H as <- <-.
  exists ins, datas, (arrays h1), outputs.
  split; [done|]. split; [done|]. split.
  { rewrite E. f_equal. destruct h1. unfold with_arrays. cbn in *. congruence. }
  cbv zeta. unfold with_variables, with_functions. cbn [arrays variables functions].
  rewrite Hv1, Hf1. split; [|done]. f_equal.
  rewrite (foldl_alter_appended (produced_by self rk)) by (by rewrite ?length_map).
  by rewrite map_map.
Qed.

Lemma extends_update_self self h fo (g : FunctionObj T → FunctionObj T) :
  functions h !! self = Some fo →
  f_class (g fo) = f_class fo → f_attrs (g fo) = f_attrs fo →
  extends self h (with_functions (alter g self) h).
Proof.
  intros Hf Hc Ha. unfold extends. cbn. split_and!; [done| |by rewrite length_alter|].
  - intros v xv Hv. by exists xv.
  - intros g0 go Hg. destruct (decide (self = g0)) as [->|Hne].
    + exists (g fo). rewrite list_lookup_alter_eq, Hf.
      assert (go = fo) as -> by congruence. by split_and!.
    + exists go. by rewrite list_lookup_alter_ne.
Qed.

(** A list that holds [n + k] at every position [k] is a [seq]. *)
Lemma list_is_seq (l : list nat) (n m : nat) :
  length l = m → (∀ k, (k < m)%nat → l !! k = Some (n + k)%nat) → l = seq n m.
Proof.
  intros Hlen Hl. apply list_eq. intros k.
  destruct (decide (k < m)%nat) as [Hlt|Hge].
  - rewrite Hl by done. symmetry. by apply lookup_seq_lt.
  - rewrite lookup_ge_None_2 by lia. symmetry. apply lookup_seq_ge. lia.
Qed.

(** The first half of a call, when it returns: [h1] is the store after the
    inputs have been resolved, in which the operation holds the newly made
    branches, one per input; the rank stored last is the maximum of their
    ranks. *)
Lemma chain_inputs_inv self fo inputs h h2 u :
  functions h !! self = Some fo →
  Function.chain_inputs self inputs h = (h2, Ok u) →
  ∃ h1 fo1 ranks rk,
    extends self h h1 ∧ arrays h1 = arrays h ∧
    length (variables h1) = (length (variables h) + length inputs)%nat ∧
    functions h1 !! self = Some fo1 ∧
    f_inputs fo1 = Some (seq (length (variables h)) (length inputs)) ∧
    mapM (λ x, v_rank <$> variables h1 !! x) (seq (length (variables h)) (length inputs))
      = Some ranks ∧
    py_max ranks = Ok rk ∧
    h2 = with_functions (alter (set_rank_of_function (Some rk)) self) h1.
Proof.
  intros Hf H. unfold Function.chain_inputs in H.
  rewrite (bind_ok _ _ _ _ _ (update_fun_ok _ _ _ _ Hf)) in H.
  set (h0 := with_functions _ h) in H.
  assert (Hf0 : functions h0 !! self = Some (set_inputs_field (Some inputs) fo)).
  { unfold h0. cbn. by rewrite list_lookup_alter_eq, Hf. }
  assert (Hext0 : extends self h h0) by (by apply extends_update_self with fo).
  bind_inv H as h1 u1 E.
  destruct (resolve_inputs_step _ _ _ _ _ _ _ _ Hf0 eq_refl E)
    as (Hext1 & Harr1 & Hlen1 & fo1 & l' & Hf1 & Hi1 & Hll & _ & Hin).
  assert (l' = seq (length (variables h)) (length inputs)) as ->.
  { apply list_is_seq; [done|]. intros k Hk. exact (Hin k Hk). }
  apply compute_rank_inv in H as (fo1' & ins & ranks & rk & Hf1' & Hi1' & Hranks & Hmax & ->).
  assert (fo1' = fo1) as -> by congruence.
  assert (ins = seq (length (variables h)) (length inputs)) as -> by congruence.
  exists h1, fo1, ranks, rk. split_and!; try done.
  by eapply extends_trans.
Qed.

(** The anatomy of a call that returns: after the first half, forward ran
    on the raw values of the branches, and the results are wrapped in new
    variables produced by [self]. *)
Lemma call_inv self fo inputs h h' r :
  functions h !! self = Some fo →
  Function.__call__ self inputs h = (h', Ok r) →
  ∃ h1 fo1 ranks rk datas arrs' outputs,
    extends self h h1 ∧ arrays h1 = arrays h ∧
    length (variables h1) = (length (variables h) + length inputs)%nat ∧
    functions h1 !! self = Some fo1 ∧
    f_inputs fo1 = Some (seq (length (variables h)) (length inputs)) ∧
    mapM (λ x, v_rank <$> variables h1 !! x) (seq (length (variables h)) (length inputs))
      = Some ranks ∧
    py_max ranks = Ok rk ∧
    mapM (λ x, v_data <$> variables h1 !! x) (seq (length (variables h)) (length inputs))
      = Some datas ∧
    Function.forward self datas
        (with_functions (alter (set_rank_of_function (Some rk)) self) h1)
      = (with_arrays (λ _, arrs')
           (with_functions (alter (set_rank_of_function (Some rk)) self) h1),
         Ok outputs) ∧
    h' = mkHeap arrs'
           (variables h1 ++ map (λ y, produced_by self rk (leaf_variable y)) outputs)
           (alter (set_outputs_field
                     (Some (seq (length (variables h1)) (length outputs)))) self
              (alter (set_rank_of_function (Some rk)) self (functions h1))) ∧
    r = pack_outputs (seq (length (variables h1)) (length outputs)).
Proof.
  intros Hf H. unfold Function.__call__ in H.
  bind_inv H as h2 u2 E2.
  apply (chain_inputs_inv _ _ _ _ _ _ Hf) in E2
    as (h1 & fo1 & ranks & rk & Hext & Harr & Hlen & Hf1 & Hi1 & Hranks & Hmax & ->).
  eapply (run_forward_inv self (set_rank_of_function (Some rk) fo1) rk) in H;
    [| cbn; by rewrite list_lookup_alter_eq, Hf1 | done].
  destruct H as (ins & datas & arrs' & outputs & Hi2 & Hdatas & Hfwd & -> & ->).
  cbn in Hi2. assert (ins = seq (length (variables h)) (length inputs)) as -> by congruence.
  by exists h1, fo1, ranks, rk, datas, arrs', outputs.
Qed.

(** The second half of a call, however it ends, leaves the variables that
    were there, and the inputs and rank of [self], as they were. *)
Lemma run_forward_keeps_rank self fo rk h h' (res : result CallResult) :
  functions h !! self = Some fo → f_rank fo = Some rk →
  Function.run_forward self h = (h', res) →
  (∀ v xv, variables h !! v = Some xv → variables h' !! v = Some xv) ∧
  ∃ fo', functions h' !! self = Some fo' ∧
         f_inputs fo' = f_inputs fo ∧ f_rank fo' = f_rank fo.
Proof.
  intros Hf Hr H. destruct res as [r|e].
  - destruct (run_forward_inv _ _ _ _ _ _ Hf Hr H)
      as (ins & datas & arrs' & outputs & Hi & _ & _ & -> & _).
    cbn [variables functions]. split.
    + intros v xv Hv. by apply lookup_app_l_Some.
    + eexists. by rewrite list_lookup_alter_eq, Hf.
  - assert (variables h' = variables h ∧ functions h' = functions h) as [Hv Hfs].
    2:{ rewrite Hv, Hfs. eauto. }
    unfold Function.run_forward, Function.get_inputs in H.
    rewrite bind_unfold, bind_unfold, (get_fun_ok _ _ _ Hf) in H.
    destruct (f_inputs fo) as [ins|]; [|by injection H as <- _].
    cbn [ret] in H. rewrite bind_unfold in H.
    rewrite (map_m_pure _ (λ h x, v_data <$> variables h !! x) DanglingReference) in H
      by (intros; apply data_of_pure).
    destruct (mapM _ ins) as [datas|]; [|by injection H as <- _].
    rewrite bind_unfold in H.
    destruct (Function.forward self datas h) as [h1 [outputs|e1]] eqn:E.
    2:{ injection H as <- _. by eapply forward_frame. }
    destruct (forward_frame _ _ _ _ _ E) as [Hv1 Hf1].
    rewrite bind_unfold, map_m_Variable_init in H.
    rewrite bind_unfold in H.
    erewrite update_fun_ok in H by (cbn; rewrite Hf1; exact Hf).
    rewrite bind_unfold in H.
    erewrite (for_each_set_creator self (set_outputs_field _ fo) rk) in H.
    + discriminate.
    + cbn. by rewrite Hf1, list_lookup_alter_eq, Hf.
    + done.
    + cbn. apply Forall_forall. intros y [Hy1 Hy2]%elem_of_seq.
      apply lookup_lt_is_Some. rewrite length_app, length_map. lia.
Qed.

Lemma rank_is_max_intro self n fo ins ranks rk h :
  functions h !! self = Some fo →
  f_inputs fo = Some ins → f_rank fo = Some rk → length ins = n →
  mapM (λ x, v_rank <$> variables h !! x) ins = Some ranks →
  py_max ranks = Ok rk →
  rank_is_max self n h.
Proof.
  intros Hf Hi Hr Hn Hranks%mapM_Some_1 Hmax.
  destruct (py_max_spec _ _ Hmax) as [Hin Hall].
  exists fo, ins, ranks, rk. split_and!; try done.
  eapply Forall2_Forall_l; [exact Hranks|].
  eapply Forall_impl; [exact Hall|]. intros rx Hle x Hx. cbn beta in *.
  destruct (_ !! x) as [xv|]; [|discriminate]. injection Hx as <-. eauto.
Qed.

Lemma rank_is_max_frame self n h h' :
  rank_is_max self n h →
  (∀ v xv, variables h !! v = Some xv → variables h' !! v = Some xv) →
  (∀ fo, functions h !! self = Some fo →
         ∃ fo', functions h' !! self = Some fo' ∧
                f_inputs fo' = f_inputs fo ∧ f_rank fo' = f_rank fo) →
  rank_is_max self n h'.
Proof.
  intros (fo & ins & ranks & rk & Hf & Hi & Hr & Hn & Hranks & Hmax & Hin & Hall) Hv Hfs.
  destruct (Hfs _ Hf) as (fo' & Hf' & Hi' & Hr').
  exists fo', ins, ranks, rk. split_and!; try done; try congruence.
  - eapply Forall2_impl; [exact Hranks|]. intros x rx Hx. cbn beta in *.
    destruct (variables h !! x) as [xv|] eqn:E; [|discriminate].
    by rewrite (Hv _ _ E).
  - eapply Forall_impl; [exact Hall|]. intros x (xv & Hx & Hle). eauto.
Qed.

Lemma result_vars_pack (outs : list vref) : result_vars (pack_outputs outs) = outs.
Proof. by destruct outs as [|y [|z outs]]. Qed.

Lemma extends_alloc_fun self h fo :
  extends self h (with_functions (λ l, l ++ [fo]) h).
Proof.
  unfold extends. cbn. split_and!; [done| |rewrite length_app; lia|].
  - intros v xv Hv. by exists xv.
  - intros g go Hg. exists go. split; [by apply lookup_snoc_old|done].
Qed.

(** What a returning call leaves behind, seen from outside: the store is
    extended; the node keeps its class and attributes and now holds the
    branches made for it, the outputs it handed back, and a rank; the
    outputs are new variables produced by it. *)
Lemma call_summary self fo inputs h h' r :
  functions h !! self = Some fo →
  Function.__call__ self inputs h = (h', Ok r) →
  extends self h h' ∧
  (length (variables h) + length inputs ≤ length (variables h'))%nat ∧
  Forall (λ y, (length (variables h) + length inputs ≤ y < length (variables h'))%nat ∧
               v_creator <$> variables h' !! y = Some (Some self)) (result_vars r) ∧
  ∃ fo' rk,
    functions h' !! self = Some fo' ∧
    f_class fo' = f_class fo ∧ f_attrs fo' = f_attrs fo ∧
    f_inputs fo' = Some (seq (length (variables h)) (length inputs)) ∧
    f_outputs fo' = Some (result_vars r) ∧ f_rank fo' = Some rk.
Proof.
  intros Hf H.
  destruct (call_inv _ _ _ _ _ _ Hf H)
    as (h1 & fo1 & ranks & rk & datas & arrs' & outputs & Hext & Harr & Hlen & Hf1 & Hi1
        & Hranks & Hmax & Hdatas & Hfwd & -> & ->).
  rewrite result_vars_pack. cbn [variables functions].
  destruct Hext as (L1 & V1 & M1 & F1).
  destruct (F1 _ _ Hf) as (fo1' & Hf1' & Hc1 & Ha1 & _).
  assert (fo1' = fo1) as -> by congruence.
  split_and!.
  - unfold extends. cbn [variables functions]. split_and!.
    + rewrite length_app. lia.
    + intros v xv Hv. destruct (V1 _ _ Hv) as (xv' & Hv' & Hst).
      exists xv'. split; [by apply lookup_app_l_Some|done].
    + rewrite !length_alter. lia.
    + intros g go Hg. destruct (F1 _ _ Hg) as (go' & Hg' & Hc & Ha & Hsame).
      destruct (decide (self = g)) as [->|Hne].
      * rewrite !list_lookup_alter_eq, Hg'. cbn. eexists. split; [done|]. by split_and!.
      * rewrite !list_lookup_alter_ne, Hg' by done. exists go'.
        split_and!; first [done | intros _ Hns; by apply Hsame].
  - rewrite length_app. lia.
  - apply Forall_forall. intros y [Hy1 Hy2]%elem_of_seq.
    rewrite length_app, length_map. split; [lia|].
    rewrite lookup_app_r by lia.
    change (map ?g outputs) with (g <$> outputs). rewrite list_lookup_fmap.
    destruct (lookup_lt_is_Some_2 outputs (y - length (variables h1))) as [o ->]; [lia|].
    done.
  - eexists _, rk. rewrite !list_lookup_alter_eq, Hf1. cbn. by split_and!.
Qed.



End call_facts.

(** ** Calls that get as far as forward: the bookkeeping always succeeds on
    inputs whose branch links are in order *)

Section bookkeeping.
Context {T : Type} `{!Tensor T}.
Implicit Types (h : Heap T) (v x y d : vref) (f s self : fref) (a : aref).
Implicit Types (fo so : FunctionObj T) (xv : VariableObj).

Lemma quiet_refl self h : quiet self h h.
Proof. split; [done|]. intros y yv Hy Hc. by exists yv. Qed.

Lemma quiet_trans self h1 h2 h3 :
  quiet self h1 h2 → quiet self h2 h3 → quiet self h1 h3.
Proof.
  intros [O1 C1] [O2 C2]. split; [congruence|].
  intros y yv3 Hy Hc. destruct (C2 _ _ Hy Hc) as (yv2 & Hy2 & Hc2). eauto.
Qed.

Lemma quiet_update_self self h fo (g : FunctionObj T → FunctionObj T) :
  functions h !! self = Some fo → f_outputs (g fo) = f_outputs fo →
  quiet self h (with_functions (alter g self) h).
Proof.
  intros Hf Ho. split; cbn.
  - rewrite list_lookup_alter_eq, Hf. cbn. by rewrite Ho.
  - intros y yv Hy Hc. by exists yv.
Qed.

(** One consumption by a proper operation, on a variable that is ready. *)
Lemma resolve_input_total self fo l i x h :
  functions h !! self = Some fo → f_class fo ≠ SplitClass →
  f_inputs fo = Some l → (i < length l)%nat →
  branch_ready h x →
  ∃ h' xv dv,
    Function.resolve_input self i x h = (h', Ok tt) ∧
    quiet self h h' ∧
    variables h !! x = Some xv ∧
    variables h' !! length (variables h) = Some dv ∧ v_data dv = v_data xv ∧
    (∀ x', branch_ready h x' → branch_ready h' x').
Proof.
  intros Hf Hcls Hi Hlt [xv Hx Hsp | xv s so r outs Hx Hsp Hs Hc Hsi Hr Ho].
  - rewrite (resolve_input_first _ _ _ _ _ _ _ Hx Hsp Hf Hi Hlt).
    set (s := length (functions h)). set (d := length (variables h)).
    assert (Hself : (self < s)%nat) by (by eapply lookup_lt_Some).
    eexists _, xv, (branch_variable s (v_rank xv) xv). split; [reflexivity|].
    split_and!; try done.
    + split; cbn [variables functions].
      * rewrite (lookup_snoc_old _ _ (set_inputs_field (Some (<[i := d]> l)) fo));
          [by rewrite Hf|]. by rewrite list_lookup_alter_eq, Hf.
      * intros y yv' [Hy|[Hy1 Hy2]]%lookup_app_Some Hcr.
        -- rewrite list_lookup_alter in Hy. case_decide; subst.
           ++ rewrite Hx in Hy. injection Hy as <-. eauto.
           ++ eauto.
        -- rewrite length_alter in Hy1, Hy2.
           apply list_lookup_singleton_Some in Hy2 as [_ <-].
           cbn in Hcr. injection Hcr as ->. lia.
    + cbn [variables]. apply list_lookup_middle. by rewrite length_alter.
    + intros x' [xv' Hx' Hsp' | xv' s' so' r' outs' Hx' Hsp' Hs' Hc' Hsi' Hr' Ho'].
      * destruct (decide (x' = x)) as [->|Hne].
        -- eapply ready_branched; cbn [variables functions].
           ++ apply lookup_snoc_old. by rewrite list_lookup_alter_eq, Hx.
           ++ done.
           ++ apply list_lookup_middle. by rewrite length_alter.
           ++ done.
           ++ done.
           ++ done.
           ++ done.
        -- eapply ready_unbranched; cbn [variables]; [|exact Hsp'].
           apply lookup_snoc_old. by rewrite list_lookup_alter_ne.
      * assert (x' ≠ x) by (intros ->; congruence).
        assert (self ≠ s') by (intros ->; congruence).
        eapply ready_branched; cbn [variables functions].
        -- apply lookup_snoc_old. by rewrite list_lookup_alter_ne.
        -- exact Hsp'.
        -- apply lookup_snoc_old. by rewrite list_lookup_alter_ne.
        -- done.
        -- done.
        -- done.
        -- done.
  - assert (Hne : self ≠ s) by (intros ->; congruence).
    rewrite (resolve_input_again _ _ _ _ _ _ _ _ _ _ [] _ _ _
               Hx Hsp Hs Hc Hsi Hr Ho Hx Hf Hi Hlt).
    set (d := length (variables h)).
    eexists _, xv, (branch_variable s r xv). split; [reflexivity|].
    split_and!; try done.
    + split; cbn [variables functions].
      * by rewrite list_lookup_alter_eq, list_lookup_alter_ne, Hf.
      * intros y yv' [Hy|[Hy1 Hy2]]%lookup_app_Some Hcr; [eauto|].
        apply list_lookup_singleton_Some in Hy2 as [_ <-].
        cbn in Hcr. congruence.
    + cbn [variables]. apply lookup_snoc_new.
    + intros x' [xv' Hx' Hsp' | xv' s' so' r' outs' Hx' Hsp' Hs' Hc' Hsi' Hr' Ho'].
      * eapply ready_unbranched; cbn [variables]; [|exact Hsp'].
        by apply lookup_snoc_old.
      * assert (self ≠ s') by (intros ->; congruence).
        destruct (decide (s' = s)) as [->|Hss].
        -- assert (so' = so) as -> by congruence.
           eapply (ready_branched _ _ xv' s (set_outputs_field _ so));
             cbn [variables functions].
           ++ by apply lookup_snoc_old.
           ++ done.
           ++ rewrite list_lookup_alter_ne by done.
              by rewrite list_lookup_alter_eq, Hs.
           ++ done.
           ++ done.
           ++ done.
           ++ done.
        -- eapply ready_branched; cbn [variables functions].
           ++ by apply lookup_snoc_old.
           ++ exact Hsp'.
           ++ by rewrite !list_lookup_alter_ne.
           ++ done.
           ++ done.
           ++ done.
           ++ done.
Qed.

(** The whole first loop, on inputs that are all ready: it returns, leaves
    [self] quiet, and the branch made for input number [k] carries the raw
    value of that input. *)
Lemma resolve_inputs_total self xs : ∀ i h fo l,
  functions h !! self = Some fo → f_class fo ≠ SplitClass →
  f_inputs fo = Some l → (i + length xs ≤ length l)%nat →
  Forall (branch_ready h) xs →
  ∃ h',
    Function.resolve_inputs self i xs h = (h', Ok tt) ∧
    quiet self h h' ∧
    (∀ k x, xs !! k = Some x →
       v_data <$> variables h' !! (length (variables h) + k)%nat
       = v_data <$> variables h !! x).
Proof.
  induction xs as [|x xs IH]; intros i h fo l Hf Hcls Hi Hle Hready.
  { exists h. split_and!; [done|apply quiet_refl|]. by intros k x. }
  inversion_clear Hready as [|? ? Hx Hxs]. cbn [length] in Hle.
  destruct (resolve_input_total self fo l i x h) as (h1 & xv & dv & E & Hq & Hxv & Hdv & Hd & Hkeep);
    [done|done|done|lia|done|].
  destruct (resolve_input_step _ _ _ _ _ _ _ Hf E)
    as (Hext1 & Harr1 & Hlen1 & l0 & fo1 & Hi0 & Hlt & Hf1 & Hi1).
  assert (l0 = l) as -> by congruence.
  assert (Hcls1 : f_class fo1 ≠ SplitClass).
  { destruct Hext1 as (_ & _ & _ & F).
    destruct (F _ _ Hf) as (fo1' & Hf1' & Hc1 & _). congruence. }
  destruct (IH (S i) h1 fo1 (<[i := length (variables h)]> l)) as (h' & E' & Hq' & Hdata);
    [done|done|done|rewrite length_insert; lia| |].
  { eapply Forall_impl; [exact Hxs|]. intros x'. apply Hkeep. }
  exists h'. split_and!.
  - cbn [Function.resolve_inputs]. by rewrite (bind_ok _ _ _ _ _ E).
  - by eapply quiet_trans.
  - destruct (resolve_inputs_step _ _ _ _ _ _ _ _ Hf1 Hi1 E') as ((_ & V' & _) & _).
    intros [|k] x' Hk.
    + injection Hk as <-. rewrite Nat.add_0_r, Hxv. cbn.
      destruct (V' _ _ Hdv) as (dv' & -> & Hsd & _). cbn. congruence.
    + cbn in Hk. replace (length (variables h) + S k)%nat
        with (length (variables h1) + k)%nat by lia.
      rewrite (Hdata _ _ Hk).
      assert (Hx' : branch_ready h x').
      { rewrite Forall_forall in Hxs. apply Hxs. by eapply list_elem_of_lookup_2. }
      assert (∃ xv', variables h !! x' = Some xv') as [xv' Hxv'].
      { destruct Hx'; eauto. }
      destruct Hext1 as (_ & V1 & _).
      destruct (V1 _ _ Hxv') as (xv1 & -> & Hsd & _). rewrite Hxv'. cbn. congruence.
Qed.

Lemma compute_rank_ok self fo ins ranks rk h :
  functions h !! self = Some fo → f_inputs fo = Some ins →
  mapM (λ x, v_rank <$> variables h !! x) ins = Some ranks →
  py_max ranks = Ok rk →
  Function.compute_rank self h
  = (with_functions (alter (set_rank_of_function (Some rk)) self) h, Ok tt).
Proof.
  intros Hf Hi Hr Hm. unfold Function.compute_rank.
  rewrite (bind_ok _ _ _ _ _ (get_inputs_ok _ _ _ _ Hf Hi)).
  rewrite bind_unfold.
  rewrite (map_m_pure _ (λ h x, v_rank <$> variables h !! x) DanglingReference)
    by (intros; apply rank_of_pure).
  rewrite Hr. unfold lift. rewrite bind_unfold, Hm.
  by apply update_fun_ok with fo.
Qed.

(** [forward] on a class without the method the inputs select. *)
Lemma forward_not_implemented self fo datas h :
  functions h !! self = Some fo →
  (if _is_gpu_input (arrays h) datas
   then m_forward_gpu (methods_of (f_class fo))
   else m_forward_cpu (methods_of (f_class fo))) = None →
  Function.forward self datas h = (h, Raise NotImplementedError).
Proof.
  intros Hf Hm. unfold Function.forward, gets. rewrite bind_unfold.
  destruct (_is_gpu_input (arrays h) datas);
    unfold Function.forward_gpu, Function.forward_cpu;
    by rewrite (bind_ok _ _ _ _ _ (get_fun_ok _ _ _ Hf)), Hm.
Qed.

(** The outputs of the branch point of a variable, read off the store. *)
Lemma branch_outputs_unbranched h x xv :
  variables h !! x = Some xv → v_splitter xv = None → branch_outputs h x = [].
Proof. intros Hx Hsp. unfold branch_outputs, branch_of. by rewrite Hx, Hsp. Qed.

Lemma branch_outputs_branched h x xv s so outs :
  variables h !! x = Some xv → v_splitter xv = Some (Some s) →
  functions h !! s = Some so → f_outputs so = Some outs →
  branch_outputs h x = outs.
Proof.
  intros Hx Hsp Hs Ho. unfold branch_outputs, branch_of.
  by rewrite Hx, Hsp, Hs, Ho.
Qed.

Lemma branch_outputs_update_self h self (g : FunctionObj T → FunctionObj T) x :
  (∀ fo, f_outputs (g fo) = f_outputs fo) →
  branch_outputs (with_functions (alter g self) h) x = branch_outputs h x.
Proof.
  intros Hg. unfold branch_outputs, branch_of. cbn [variables functions with_functions].
  destruct (variables h !! x) as [xv|]; [|done].
  destruct (v_splitter xv) as [[s|]|]; [|done|done].
  destruct (decide (self = s)) as [->|Hne]; [|by rewrite list_lookup_alter_ne].
  rewrite list_lookup_alter_eq.
  destruct (functions h !! s) as [so|]; [|done]. cbn. by rewrite Hg.
Qed.

(** One consumption of [x] adds one output to the branch point of [x] and
    none to that of any other variable. *)
Lemma resolve_input_outputs self fo l i x h h' :
  functions h !! self = Some fo → f_class fo ≠ SplitClass →
  f_inputs fo = Some l → (i < length l)%nat →
  branch_ready h x →
  Function.resolve_input self i x h = (h', Ok tt) →
  ∀ x', branch_ready h x' →
    branch_outputs h' x'
    = branch_outputs h x' ++ (if decide (x' = x) then [length (variables h)] else []).
Proof.
  intros Hf Hcls Hi Hlt [xv Hx Hsp | xv s so r outs Hx Hsp Hs Hc Hsi Hr Ho] E.
  - rewrite (resolve_input_first _ _ _ _ _ _ _ Hx Hsp Hf Hi Hlt) in E.
    injection E as <-.
    assert (Hself : (self < length (functions h))%nat) by (by eapply lookup_lt_Some).
    intros x' [xv' Hx' Hsp' | xv' s' so' r' outs' Hx' Hsp' Hs' Hc' Hsi' Hr' Ho'].
    + rewrite (branch_outputs_unbranched h x' xv') by done.
      case_decide as Hxx; [subst x'|].
      * eapply branch_outputs_branched; cbn [variables functions].
        -- apply lookup_snoc_old. by rewrite list_lookup_alter_eq, Hx.
        -- done.
        -- apply list_lookup_middle. by rewrite length_alter.
        -- done.
      * eapply branch_outputs_unbranched; cbn [variables]; [|exact Hsp'].
        apply lookup_snoc_old. by rewrite list_lookup_alter_ne.
    + assert (x' ≠ x) by (intros ->; congruence).
      assert (self ≠ s') by (intros ->; congruence).
      rewrite (branch_outputs_branched h x' xv' s' so' outs') by done.
      rewrite decide_False, app_nil_r by done.
      eapply branch_outputs_branched; cbn [variables functions].
      * apply lookup_snoc_old. by rewrite list_lookup_alter_ne.
      * exact Hsp'.
      * apply lookup_snoc_old. by rewrite list_lookup_alter_ne.
      * done.
  - assert (Hne : self ≠ s) by (intros ->; congruence).
    rewrite (resolve_input_again _ _ _ _ _ _ _ _ _ _ [] _ _ _
               Hx Hsp Hs Hc Hsi Hr Ho Hx Hf Hi Hlt) in E.
    injection E as <-.
    intros x' [xv' Hx' Hsp' | xv' s' so' r' outs' Hx' Hsp' Hs' Hc' Hsi' Hr' Ho'].
    + assert (x' ≠ x) by (intros ->; congruence).
      rewrite (branch_outputs_unbranched h x' xv') by done.
      rewrite decide_False by done.
      eapply branch_outputs_unbranched; cbn [variables]; [|exact Hsp'].
      by apply lookup_snoc_old.
    + assert (self ≠ s') by (intros ->; congruence).
      rewrite (branch_outputs_branched h x' xv' s' so' outs') by done.
      destruct (decide (s' = s)) as [->|Hss].
      * assert (so' = so) as -> by congruence.
        assert (x' = x) as -> by congruence.
        assert (outs' = outs) as -> by congruence.
        rewrite decide_True by done.
        eapply branch_outputs_branched; cbn [variables functions].
        -- by apply lookup_snoc_old.
        -- done.
        -- rewrite list_lookup_alter_ne by done.
           by rewrite list_lookup_alter_eq, Hs.
        -- done.
      * assert (x' ≠ x) by (intros ->; congruence).
        rewrite decide_False, app_nil_r by done.
        eapply branch_outputs_branched; cbn [variables functions].
        -- by apply lookup_snoc_old.
        -- exact Hsp'.
        -- by rewrite !list_lookup_alter_ne.
        -- done.
Qed.

(** The whole first loop adds to the branch point of each variable as many
    outputs as the variable occurs among the inputs. *)
Lemma resolve_inputs_outputs self xs : ∀ i h h' fo l,
  functions h !! self = Some fo → f_class fo ≠ SplitClass →
  f_inputs fo = Some l → (i + length xs ≤ length l)%nat →
  Forall (branch_ready h) xs →
  Function.resolve_inputs self i xs h = (h', Ok tt) →
  ∀ x', branch_ready h x' →
    length (branch_outputs h' x')
    = (length (branch_outputs h x') + consumptions x' xs)%nat.
Proof.
  induction xs as [|x xs IH]; intros i h h' fo l Hf Hcls Hi Hle Hready E x' Hx'.
  { injection E as <-. cbn. lia. }
  inversion_clear Hready as [|? ? Hx Hxs]. cbn [length] in Hle.
  destruct (resolve_input_total self fo l i x h) as (h1 & xv & dv & E1 & _ & _ & _ & _ & Hkeep);
    [done|done|done|lia|done|].
  cbn [Function.resolve_inputs] in E. rewrite (bind_ok _ _ _ _ _ E1) in E.
  destruct (resolve_input_step _ _ _ _ _ _ _ Hf E1)
    as (Hext1 & _ & _ & l0 & fo1 & Hi0 & Hlt & Hf1 & Hi1).
  assert (l0 = l) as -> by congruence.
  assert (Hcls1 : f_class fo1 ≠ SplitClass).
  { destruct Hext1 as (_ & _ & _ & F).
    destruct (F _ _ Hf) as (fo1' & Hf1' & Hc1 & _). congruence. }
  rewrite (IH (S i) h1 h' fo1 (<[i := length (variables h)]> l));
    [|done|done|done|rewrite length_insert; lia| |done|by apply Hkeep].
  2:{ eapply Forall_impl; [exact Hxs|]. intros y. apply Hkeep. }
  rewrite (resolve_input_outputs self fo l i x h h1) by (done || lia).
  unfold consumptions. rewrite length_app, filter_cons.
  case_decide as Hd1; case_decide as Hd2; subst; try done; cbn; lia.
Qed.

Lemma branch_ready_update_self h self fo (g : FunctionObj T → FunctionObj T) x :
  functions h !! self = Some fo → f_class fo ≠ SplitClass →
  branch_ready h x → branch_ready (with_functions (alter g self) h) x.
Proof.
  intros Hf Hcls [xv ? ?|xv s so r outs ? ? Hs Hc ? ? ?].
  - by eapply ready_unbranched.
  - assert (self ≠ s) by (intros ->; congruence).
    eapply ready_branched; cbn [variables functions with_functions]; try done.
    by rewrite list_lookup_alter_ne.
Qed.

(** The first half of a call adds to the branch point of each variable as
    many outputs as the variable occurs among the inputs; a variable that
    occurs has a branch point afterwards. *)
Lemma chain_inputs_outputs self fo inputs h h2 :
  functions h !! self = Some fo → f_class fo ≠ SplitClass →
  Forall (branch_ready h) inputs →
  Function.chain_inputs self inputs h = (h2, Ok tt) →
  ∀ x', branch_ready h x' →
    length (branch_outputs h2 x')
    = (length (branch_outputs h x') + consumptions x' inputs)%nat ∧
    (x' ∈ inputs → is_Some (branch_of h2 x')).
Proof.
  intros Hf Hcls Hready E x' Hx'.
  unfold Function.chain_inputs in E.
  rewrite (bind_ok _ _ _ _ _ (update_fun_ok _ _ _ _ Hf)) in E.
  set (h0 := with_functions _ h) in E.
  assert (Hf0 : functions h0 !! self = Some (set_inputs_field (Some inputs) fo)).
  { unfold h0. cbn. by rewrite list_lookup_alter_eq, Hf. }
  bind_inv E as h1 u1 E1. destruct u1.
  apply compute_rank_inv in E as (fo1 & ins & ranks & rk & _ & _ & _ & _ & ->).
  assert (Hlen : length (branch_outputs
                           (with_functions (alter (set_rank_of_function (Some rk)) self) h1) x')
                 = (length (branch_outputs h x') + consumptions x' inputs)%nat).
  { rewrite branch_outputs_update_self by done.
    rewrite (resolve_inputs_outputs self inputs 0 h0 h1 _ inputs Hf0);
      [|done|done|cbn; lia| |done|by eapply branch_ready_update_self].
    2:{ eapply Forall_impl; [exact Hready|]. intros y.
        by eapply branch_ready_update_self. }
    unfold h0. by rewrite branch_outputs_update_self. }
  split; [exact Hlen|].
  intros Hin.
  assert (0 < consumptions x' inputs)%nat.
  { unfold consumptions.
    assert (x' ∈ filter (λ y, y = x') inputs) as Hf' by (by apply list_elem_of_filter).
    destruct (filter _ inputs); [by apply not_elem_of_nil in Hf'|cbn; lia]. }
  unfold branch_outputs in Hlen.
  destruct (branch_of _ x') as [s|]; [by eexists|]. cbn in Hlen. lia.
Qed.

Lemma ready_inputs_have_data (inputs : list vref) h :
  Forall (branch_ready h) inputs →
  ∃ datas, mapM (λ x, v_data <$> variables h !! x) inputs = Some datas.
Proof.
  intros Hready. apply mapM_is_Some_2.
  eapply Forall_impl; [exact Hready|]. intros x Hx. cbn.
  destruct Hx as [xv Hxv _|xv ? ? ? ? Hxv _ _ _ _ _ _]; by rewrite Hxv.
Qed.

(** The first half of a call by a proper operation on at least one input,
    all ready: it returns, leaves [self] quiet and the arrays alone, and the
    branches it stores carry the raw values of the inputs, in order. *)
Lemma chain_inputs_total self (fo : FunctionObj T)
    (inputs : list vref) (datas : list aref) h :
  functions h !! self = Some fo →
  f_class fo ≠ SplitClass →
  inputs ≠ [] →
  Forall (branch_ready h) inputs →
  mapM (λ x, v_data <$> variables h !! x) inputs = Some datas →
  ∃ h2 fo2,
    Function.chain_inputs self inputs h = (h2, Ok tt) ∧
    arrays h2 = arrays h ∧ quiet self h h2 ∧
    functions h2 !! self = Some fo2 ∧ f_class fo2 = f_class fo ∧
    f_inputs fo2 = Some (seq (length (variables h)) (length inputs)) ∧
    mapM (λ x, v_data <$> variables h2 !! x) (seq (length (variables h)) (length inputs))
      = Some datas.
Proof.
  intros Hf Hcls Hne Hready Hdatas.
  (* self.inputs = list(inputs) *)
  set (h0 := with_functions (alter (set_inputs_field (Some inputs)) self) h).
  assert (E0 : update_fun self (set_inputs_field (Some inputs)) h = (h0, Ok tt))
    by (by apply update_fun_ok with fo).
  assert (Hf0 : functions h0 !! self = Some (set_inputs_field (Some inputs) fo)).
  { unfold h0. cbn. by rewrite list_lookup_alter_eq, Hf. }
  assert (Hq0 : quiet self h h0) by (by apply quiet_update_self with fo).
  assert (Hready0 : Forall (branch_ready h0) inputs).
  { eapply Forall_impl; [exact Hready|]. intros x [xv ? ?|xv s so r outs ? ? Hs Hc ? ? ?].
    - by eapply ready_unbranched.
    - assert (self ≠ s) by (intros ->; congruence).
      eapply ready_branched; cbn [h0 variables functions with_functions]; try done.
      by rewrite list_lookup_alter_ne. }
  (* the first loop *)
  destruct (resolve_inputs_total self inputs 0 h0 _ inputs Hf0) as (h1 & E1 & Hq1 & Hshare);
    [done|done|cbn; lia|done|].
  destruct (resolve_inputs_step _ _ _ _ _ _ _ _ Hf0 eq_refl E1)
    as (Hext1 & Harr1 & Hlen1 & fo1 & l' & Hf1 & Hi1 & Hll & _ & Hin).
  assert (l' = seq (length (variables h)) (length inputs)) as ->.
  { apply list_is_seq; [done|]. intros k Hk. exact (Hin k Hk). }
  assert (Hc1 : f_class fo1 = f_class fo).
  { destruct Hext1 as (_ & _ & _ & F).
    destruct (F _ _ Hf0) as (fo1' & Hf1' & Hc1 & _). cbn in Hc1. congruence. }
  (* the rank *)
  assert (Hvalid : ∀ x, x ∈ seq (length (variables h)) (length inputs) →
                        is_Some (variables h1 !! x)).
  { intros x [? ?]%elem_of_seq. apply lookup_lt_is_Some. cbn in Hlen1. lia. }
  destruct (mapM (λ x, v_rank <$> variables h1 !! x)
              (seq (length (variables h)) (length inputs))) as [ranks|] eqn:Hranks.
  2:{ apply mapM_None_1, Exists_exists in Hranks as (x & Hx & Hnone).
      destruct (Hvalid x Hx) as [xv Hxv]. by rewrite Hxv in Hnone. }
  assert (∃ rk, py_max ranks = Ok rk) as [rk Hmax].
  { apply length_mapM in Hranks. rewrite length_seq in Hranks.
    destruct ranks as [|r0 ranks]; [by destruct inputs|]. by eexists. }
  set (h2 := with_functions (alter (set_rank_of_function (Some rk)) self) h1).
  assert (E2 : Function.compute_rank self h1 = (h2, Ok tt))
    by (by apply compute_rank_ok
             with fo1 (seq (length (variables h)) (length inputs)) ranks).
  assert (Hf2 : functions h2 !! self = Some (set_rank_of_function (Some rk) fo1)).
  { unfold h2. cbn. by rewrite list_lookup_alter_eq, Hf1. }
  assert (Hq2 : quiet self h1 h2) by (by apply quiet_update_self with fo1).
  exists h2, (set_rank_of_function (Some rk) fo1). split_and!.
  - unfold Function.chain_inputs.
    by rewrite (bind_ok _ _ _ _ _ E0), (bind_ok _ _ _ _ _ E1).
  - cbn. by rewrite Harr1.
  - exact (quiet_trans _ _ _ _ Hq0 (quiet_trans _ _ _ _ Hq1 Hq2)).
  - done.
  - done.
  - done.
  - (* the raw values of the branches are those of the inputs *)
    apply mapM_Some_2, Forall2_same_length_lookup_2.
    + rewrite length_seq. by eapply length_mapM.
    + intros k d y Hd Hy. apply mapM_Some_1 in Hdatas.
      assert (Hk : (k < length inputs)%nat).
      { apply lookup_lt_Some in Hd. by rewrite length_seq in Hd. }
      rewrite lookup_seq_lt in Hd by done. injection Hd as <-.
      destruct (lookup_lt_is_Some_2 inputs k Hk) as [x Hx].
      pose proof (Hshare _ _ Hx) as Hsh. unfold h0 in Hsh. cbn in Hsh.
      unfold h2. cbn [variables with_functions]. rewrite Hsh.
      by eapply (Forall2_lookup_lr _ _ _ _ _ _ Hdatas).
Qed.

(** A proper operation without the forward method its inputs select:
    [Function.__call__] gets through its first half, raises
    NotImplementedError from forward, and [self] stays quiet. *)
Lemma call_with_missing_forward self (fo : FunctionObj T)
    (inputs : list vref) (datas : list aref) h :
  functions h !! self = Some fo →
  f_class fo ≠ SplitClass →
  inputs ≠ [] →
  Forall (branch_ready h) inputs →
  mapM (λ x, v_data <$> variables h !! x) inputs = Some datas →
  (if _is_gpu_input (arrays h) datas
   then m_forward_gpu (methods_of (f_class fo))
   else m_forward_cpu (methods_of (f_class fo))) = None →
  ∃ h',
    Function.__call__ self inputs h = (h', Raise NotImplementedError) ∧
    arrays h' = arrays h ∧ quiet self h h'.
Proof.
  intros Hf Hcls Hne Hready Hdatas Hmiss.
  destruct (chain_inputs_total _ _ _ _ _ Hf Hcls Hne Hready Hdatas)
    as (h2 & fo2 & E & Harr & Hq & Hf2 & Hc2 & Hi2 & Hdatas2).
  exists h2. split_and!; [|done|done].
  unfold Function.__call__. rewrite (bind_ok _ _ _ _ _ E).
  unfold Function.run_forward.
  rewrite (bind_ok _ _ _ _ _ (get_inputs_ok _ _ _ _ Hf2 Hi2)).
  rewrite bind_unfold.
  rewrite (map_m_pure _ (λ h x, v_data <$> variables h !! x) DanglingReference)
    by (intros; apply data_of_pure).
  rewrite Hdatas2. apply bind_raise.
  apply forward_not_implemented with fo2; [done|].
  by rewrite Hc2, Harr.
Qed.
End bookkeeping.

(** ** Properties of the graph core *)

Section claims.
Context {T : Type} `{!Tensor T}.
Implicit Types (h : Heap T) (v x y : vref) (f s self : fref) (a : aref).

(** *** Capability accessors of the base class *)

(** C5.  On the base class, reading [parameters] or [gradients] gives the
    empty tuple and leaves the store alone; assigning the empty tuple to
    either is accepted and does nothing; assigning any other value raises
    RuntimeError, the invalid-state error, again without touching the
    store.  These are the accessors that reading [parameters] or
    [gradients] reaches on every object that is not parameterized. *)
Theorem base_parameter_accessors self (values : PyValue) h :
  Function.parameters self h = (h, Ok []) ∧
  Function.gradients self h = (h, Ok []) ∧
  Function.set_parameters self values h =
    (h, if bool_decide (values = PyTuple [])
        then Ok tt else Raise (RuntimeError "Cannot set parameters")) ∧
  Function.set_gradients self values h =
    (h, if bool_decide (values = PyTuple [])
        then Ok tt else Raise (RuntimeError "Cannot set gradients")) ∧
  (∀ fo : FunctionObj T,
     functions h !! self = Some fo →
     (∀ m pn gn, f_class fo ≠ ParameterizedClass m pn gn) →
     read_parameters self h = (h, Ok []) ∧ read_gradients self h = (h, Ok [])).
Proof.
  split_and!; try reflexivity.
  - unfold Function.set_parameters.
    destruct values as [|[|i items]|items]; reflexivity.
  - unfold Function.set_gradients.
    destruct values as [|[|i items]|items]; reflexivity.
  - intros fo Hf Hnp. unfold read_parameters, read_gradients, class_of.
    rewrite !bind_unfold, (get_fun_ok _ _ _ Hf). cbn [ret].
    destruct (f_class fo) as [|m|m pn gn]; [done|done|]. by destruct (Hnp m pn gn).
Qed.

(** *** Backend dispatch *)

(** [_is_gpu_input] holds exactly when some input is a GPUArray. *)
Lemma is_gpu_input_spec (arrs : list (Array T)) (inputs : list aref) :
  _is_gpu_input arrs inputs = true ↔
  ∃ x arr, x ∈ inputs ∧ arrs !! x = Some arr ∧ a_type arr = GPUArray.
Proof.
  unfold _is_gpu_input. rewrite existsb_exists. split.
  - intros (x & Hx%list_elem_of_In & Hb%bool_decide_eq_true).
    destruct (arrs !! x) as [arr|] eqn:E; [|discriminate].
    injection Hb as Hb. eauto.
  - intros (x & arr & Hx%list_elem_of_In & E & Ht).
    exists x. split; [done|]. apply bool_decide_eq_true. by rewrite E, <- Ht.
Qed.

(** C6.  [forward] and [backward] each take the GPU method exactly when
    at least one of the raw inputs of that very call is a GPUArray, and the
    CPU method otherwise; the choice reads nothing but the [inputs]
    argument of the call. *)
Theorem backend_dispatch self (inputs : list aref) (grad_outputs : list (option aref)) h :
  (_is_gpu_input (arrays h) inputs = true ↔
     ∃ x arr, x ∈ inputs ∧ arrays h !! x = Some arr ∧ a_type arr = GPUArray) ∧
  Function.forward self inputs h =
    (if _is_gpu_input (arrays h) inputs
     then Function.forward_gpu self inputs h
     else Function.forward_cpu self inputs h) ∧
  Function.backward self inputs grad_outputs h =
    (if _is_gpu_input (arrays h) inputs
     then Function.backward_gpu self inputs grad_outputs h
     else Function.backward_cpu self inputs grad_outputs h).
Proof.
  split; [apply is_gpu_input_spec|].
  unfold Function.forward, Function.backward, gets. rewrite !bind_unfold.
  by destruct (_is_gpu_input (arrays h) inputs).
Qed.

(** *** The default backward *)

(** The accumulation loop of [Split.backward] passes over None entries. *)
Lemma accumulate_all_none (n k : nat) (gx : option aref) h :
  Split.accumulate n gx (replicate k None) h = (h, Ok gx).
Proof. induction k as [|k IH]; [done|]. cbn. apply IH. Qed.

(** C9.  An operation that overrides neither [backward_cpu] nor
    [backward_gpu] answers [backward], on whichever path the inputs select,
    with one None per input and without touching the store; and a branch
    point that receives only None gradients accumulates to None. *)
Theorem default_backward_is_inert self (fo : FunctionObj T)
    (inputs : list aref) (grad_outputs : list (option aref)) h :
  functions h !! self = Some fo →
  m_backward_cpu (methods_of (f_class fo)) = None →
  m_backward_gpu (methods_of (f_class fo)) = None →
  Function.backward_cpu self inputs grad_outputs h
    = (h, Ok (replicate (length inputs) None)) ∧
  Function.backward_gpu self inputs grad_outputs h
    = (h, Ok (replicate (length inputs) None)) ∧
  Function.backward self inputs grad_outputs h
    = (h, Ok (replicate (length inputs) None)) ∧
  Split.backward inputs (replicate (length inputs) None) h = (h, Ok [None]).
Proof.
  intros Hf Hcpu Hgpu.
  assert (Hmap : map (λ _ : aref, @None aref) inputs = replicate (length inputs) None).
  { induction inputs as [|i inputs IH]; [done|]. cbn. by rewrite IH. }
  assert (Ec : Function.backward_cpu self inputs grad_outputs h
               = (h, Ok (replicate (length inputs) None))).
  { unfold Function.backward_cpu.
    rewrite (bind_ok _ _ _ _ _ (get_fun_ok _ _ _ Hf)), Hcpu. by rewrite Hmap. }
  assert (Eg : Function.backward_gpu self inputs grad_outputs h
               = (h, Ok (replicate (length inputs) None))).
  { unfold Function.backward_gpu.
    rewrite (bind_ok _ _ _ _ _ (get_fun_ok _ _ _ Hf)), Hgpu. by rewrite Hmap. }
  repeat split; try done.
  - unfold Function.backward, gets. rewrite bind_unfold.
    by destruct (_is_gpu_input (arrays h) inputs).
  - unfold Split.backward.
    by rewrite (bind_ok _ _ _ _ _ (accumulate_all_none _ _ _ _)).
Qed.

(** *** Calls without inputs *)

(** C10.  Called on no inputs, [__call__] stores the empty input list,
    then raises ValueError from the [max] of the rank computation: it is
    the first half of [__call__] that raises, so forward is never reached,
    and the store is otherwise as before, whatever forward methods the
    class has.  The same holds through the copy that a parameterized
    function makes, and a call that returns had an input. *)
Theorem call_without_inputs_fails self (fo : FunctionObj T) h :
  functions h !! self = Some fo →
  Function.chain_inputs self [] h
    = (with_functions (alter (set_inputs_field (Some [])) self) h, Raise ValueError) ∧
  Function.__call__ self [] h
    = (with_functions (alter (set_inputs_field (Some [])) self) h, Raise ValueError) ∧
  (∃ h', invoke self [] h = (h', Raise ValueError) ∧
         arrays h' = arrays h ∧ variables h' = variables h) ∧
  (∀ inputs h' r, invoke self inputs h = (h', Ok r) → inputs ≠ []).
Proof.
  intros Hf.
  assert (Hchain : ∀ g go h0, functions h0 !! g = Some go →
    Function.chain_inputs g [] h0
    = (with_functions (alter (set_inputs_field (Some [])) g) h0, Raise ValueError)).
  { intros g go h0 Hg. unfold Function.chain_inputs.
    rewrite (bind_ok _ _ _ _ _ (update_fun_ok _ _ _ _ Hg)).
    cbn [Function.resolve_inputs]. rewrite bind_ret.
    unfold Function.compute_rank, Function.get_inputs.
    set (h1 := with_functions _ h0).
    assert (Hg1 : functions h1 !! g = Some (set_inputs_field (Some []) go)).
    { unfold h1. cbn. by rewrite list_lookup_alter_eq, Hg. }
    rewrite bind_unfold, (bind_ok _ _ _ _ _ (get_fun_ok _ _ _ Hg1)). cbn.
    reflexivity. }
  assert (Hcall : ∀ g go h0, functions h0 !! g = Some go →
    Function.__call__ g [] h0
    = (with_functions (alter (set_inputs_field (Some [])) g) h0, Raise ValueError)).
  { intros g go h0 Hg. unfold Function.__call__. apply bind_raise. by eapply Hchain. }
  assert (Hinv : ∃ h', invoke self [] h = (h', Raise ValueError) ∧
                       arrays h' = arrays h ∧ variables h' = variables h).
  { unfold invoke, class_of.
    rewrite bind_unfold, (bind_ok _ _ _ _ _ (get_fun_ok _ _ _ Hf)). cbn [ret].
    destruct (f_class fo) eqn:Ec.
    - rewrite (Hcall _ _ _ Hf). eauto.
    - rewrite (Hcall _ _ _ Hf). eauto.
    - unfold ParameterizedFunction.__call__, ParameterizedFunction.shallow_copy.
      rewrite bind_unfold, (bind_ok _ _ _ _ _ (get_fun_ok _ _ _ Hf)).
      unfold alloc_fun.
      erewrite Hcall; [eauto|].
      cbn. apply lookup_snoc_new. }
  split; [by eapply Hchain|]. split; [by eapply Hcall|]. split; [done|].
  intros inputs h' r E ->. destruct Hinv as (h1 & E1 & _). congruence.
Qed.

(** *** Branch gradients *)

Lemma omap_id_fmap {A B} (g : A → option B) (l : list A) :
  omap id (g <$> l) = omap g l.
Proof. induction l as [|x l IH]; [done|]. cbn. rewrite IH. by destruct (g x). Qed.

(** Once the accumulator is a fresh copy at the end of the array store,
    every further present gradient is added into it in place and nothing
    else moves. *)
Lemma accumulate_into_copy (n : nat) (arrs0 : list (Array T)) ty (acc : T) vars funs
    (rest : list (option aref)) :
  grads_valid arrs0 rest →
  Split.accumulate n (Some (length arrs0)) rest
      (mkHeap (arrs0 ++ [mkArray ty acc]) vars funs)
  = (mkHeap (arrs0 ++ [mkArray ty (foldl tadd acc (omap (grad_value arrs0) rest))])
            vars funs,
     Ok (Some (length arrs0))).
Proof.
  intros Hv. revert acc. induction Hv as [|og rest Hog _ IH]; intros acc; [done|].
  destruct og as [gy|]; cbn [Split.accumulate]; [|apply IH].
  destruct (Hog gy eq_refl) as [b Hb].
  unfold Split.array_iadd.
  rewrite bind_unfold, bind_unfold.
  rewrite (get_array_ok _ gy b) by (cbn; by apply lookup_app_l_Some).
  rewrite (update_array_ok _ _ _ (mkArray ty acc)) by (cbn; apply lookup_snoc_new).
  unfold with_arrays. cbn [arrays variables functions].
  rewrite alter_snoc_new. cbn [a_type a_val].
  rewrite IH. cbn [omap]. unfold grad_value at 2. cbn. by rewrite Hb.
Qed.

(** From an empty accumulator, when the tuple does not have exactly one
    element: the first present gradient is copied, the others are added to
    the copy. *)
Lemma accumulate_from_none (n : nat) (gys : list (option aref)) h :
  n ≠ 1%nat → grads_valid (arrays h) gys →
  ∃ h' gx,
    Split.accumulate n None gys h = (h', Ok gx) ∧
    grad_value (arrays h') gx = sum_of_present (grad_value (arrays h) <$> gys) ∧
    (gx = None ↔ Forall (λ og, og = None) gys) ∧
    (gx = None → h' = h) ∧
    (∀ a, (a < length (arrays h))%nat → arrays h' !! a = arrays h !! a) ∧
    variables h' = variables h ∧ functions h' = functions h ∧
    (∀ g, gx = Some g → g = length (arrays h)).
Proof.
  intros Hn Hv. induction Hv as [|og gys Hog Hv IH].
  { exists h, None. split_and!; try done. }
  destruct og as [gy|]; cbn [Split.accumulate].
  - apply Nat.eqb_neq in Hn as ->.
    destruct (Hog gy eq_refl) as [b Hb].
    unfold Split.array_copy.
    rewrite bind_unfold, bind_unfold, (get_array_ok _ _ _ Hb).
    unfold alloc_array, with_arrays. destruct b as [ty v].
    rewrite accumulate_into_copy by done.
    eexists _, _. split; [reflexivity|]. cbn [arrays variables functions].
    split_and!; try done.
    + cbn. rewrite lookup_snoc_new, Hb. cbn.
      unfold sum_of_present. cbn. by rewrite omap_id_fmap.
    + split; [done|]. inversion 1. discriminate.
    + intros a Ha. by apply lookup_app_l.
    + by intros g [= <-].
  - destruct IH as (h' & gx & E & Hval & Hnone & Hsame & Hframe & Hvars & Hfuns & Hfresh).
    exists h', gx. split_and!; try done.
    split.
    + intros Hgx. constructor; [done|]. by apply Hnone.
    + intros Hall. apply Hnone. by inversion Hall.
Qed.

(** C1.  [Split.backward] always returns a one-element tuple.  Its element
    holds the left-to-right sum of the gradients that are present, and is
    None exactly when all are absent; absent entries are passed over.  No
    incoming gradient array is modified.  A tuple with a single, present
    gradient gives that very object back and changes nothing; otherwise
    the accumulator is a newly allocated copy. *)
Theorem split_backward_sums_present_gradients
    (inputs : list aref) (grad_outputs : list (option aref)) h :
  grads_valid (arrays h) grad_outputs →
  ∃ h' gx,
    Split.backward inputs grad_outputs h = (h', Ok [gx]) ∧
    grad_value (arrays h') gx
      = sum_of_present (grad_value (arrays h) <$> grad_outputs) ∧
    (gx = None ↔ Forall (λ og, og = None) grad_outputs) ∧
    (∀ a, (a < length (arrays h))%nat → arrays h' !! a = arrays h !! a) ∧
    variables h' = variables h ∧ functions h' = functions h ∧
    (∀ g, grad_outputs = [Some g] → gx = Some g ∧ h' = h) ∧
    (length grad_outputs ≠ 1%nat → ∀ g, gx = Some g → g = length (arrays h)).
Proof.
  intros Hv. unfold Split.backward.
  destruct (decide (length grad_outputs = 1%nat)) as [H1|H1].
  - destruct grad_outputs as [|og [|]]; try discriminate.
    destruct og as [g|].
    + exists h, (Some g). inversion_clear Hv as [|? ? Hg _].
      destruct (Hg g eq_refl) as [b Hb].
      split_and!; try done.
      * cbn. by rewrite Hb.
      * split; [done|]. inversion 1. discriminate.
      * by intros g' [= ->].
    + exists h, None. split_and!; try done.
      split; [by repeat constructor | done].
  - destruct (accumulate_from_none _ _ _ H1 Hv)
      as (h' & gx & E & Hval & Hnone & _ & Hframe & Hvars & Hfuns & Hfresh).
    exists h', gx. rewrite (bind_ok _ _ _ _ _ E).
    split_and!; try done.
    intros g ->. done.
Qed.

(** *** Forgetting a node *)

(** C7.  [forget] on a node that has input and output lists returns
    normally.  Afterwards every former output has no creator and every
    former input (the branch-resolved variables the node held) has its
    splitter attribute set to None; the node holds neither list.  Nothing
    is deallocated: the raw arrays are the same, every variable is still
    there with the same raw value, and the other function objects are
    untouched; a creator changes only on the outputs, a splitter only on
    the inputs. *)
Theorem forget_clears_links self (fo : FunctionObj T) (ins outs : list vref) h :
  functions h !! self = Some fo →
  f_inputs fo = Some ins →
  f_outputs fo = Some outs →
  Forall (λ x, is_Some (variables h !! x)) ins →
  Forall (λ y, is_Some (variables h !! y)) outs →
  ∃ h',
    Function.forget self h = (h', Ok tt) ∧
    (∀ y, y ∈ outs → v_creator <$> variables h' !! y = Some None) ∧
    (∀ x, x ∈ ins → v_splitter <$> variables h' !! x = Some (Some None)) ∧
    functions h' !! self
      = Some (mkFunction (f_class fo) None None (f_rank fo) (f_attrs fo)) ∧
    arrays h' = arrays h ∧
    length (variables h') = length (variables h) ∧
    (∀ v, v_data <$> variables h' !! v = v_data <$> variables h !! v) ∧
    (∀ v, v ∉ outs → v_creator <$> variables h' !! v = v_creator <$> variables h !! v) ∧
    (∀ v, v ∉ ins → v_splitter <$> variables h' !! v = v_splitter <$> variables h !! v) ∧
    (∀ g, g ≠ self → functions h' !! g = functions h !! g).
Proof.
  intros Hf Hins Houts Hvi Hvo.
  set (vs1 := foldl (λ l y, alter (set_creator_field None) y l) (variables h) outs).
  set (vs2 := foldl (λ l x, alter (set_splitter_field (Some None)) x l) vs1 ins).
  assert (Hc : ∀ o, set_creator_field None (set_creator_field None o)
                    = set_creator_field None o) by done.
  assert (Hs : ∀ o, set_splitter_field (Some None) (set_splitter_field (Some None) o)
                    = set_splitter_field (Some None) o) by done.
  assert (L1 : ∀ v, vs1 !! v = if decide (v ∈ outs)
                               then set_creator_field None <$> variables h !! v
                               else variables h !! v).
  { intros v. by apply foldl_alter_lookup. }
  assert (L2 : ∀ v, vs2 !! v = if decide (v ∈ ins)
                               then set_splitter_field (Some None) <$> vs1 !! v
                               else vs1 !! v).
  { intros v. by apply foldl_alter_lookup. }
  exists (mkHeap (arrays h) vs2
            (alter (set_inputs_field None) self
               (alter (set_outputs_field None) self (functions h)))).
  split_and!.
  - unfold Function.forget, Function.get_outputs, Function.get_inputs.
    rewrite bind_unfold, bind_unfold, (get_fun_ok _ _ _ Hf), Houts. cbn [ret].
    rewrite bind_unfold, (for_each_update_var _ _ _ Hvo).
    rewrite bind_unfold, bind_unfold.
    rewrite (get_fun_ok _ _ fo) by done. rewrite Hins. cbn [ret].
    rewrite bind_unfold, for_each_update_var.
    2:{ eapply Forall_impl; [exact Hvi|]. intros z Hz. cbn.
        apply lookup_lt_is_Some. rewrite foldl_alter_length.
        by apply lookup_lt_is_Some. }
    rewrite bind_unfold, (update_fun_ok _ _ _ fo) by done.
    erewrite update_fun_ok; [done|].
    cbn. by rewrite list_lookup_alter_eq, Hf.
  - intros y Hy. cbn. rewrite L2, L1, (decide_True (P := y ∈ outs)) by done.
    rewrite Forall_forall in Hvo. destruct (Hvo y Hy) as [xv ->].
    by case_decide.
  - intros x Hx. cbn. rewrite L2, (decide_True (P := x ∈ ins)) by done.
    rewrite L1. rewrite Forall_forall in Hvi. destruct (Hvi x Hx) as [xv ->].
    by case_decide.
  - cbn. rewrite !list_lookup_alter_eq, Hf. cbn.
    unfold set_inputs_field, set_outputs_field. cbn. done.
  - done.
  - cbn. unfold vs2, vs1. by rewrite !foldl_alter_length.
  - intros v. cbn. rewrite L2, L1.
    destruct (variables h !! v) as [xv|]; repeat case_decide; done.
  - intros v Hv. cbn. rewrite L2, L1, (decide_False (P := v ∈ outs)) by done.
    destruct (variables h !! v) as [xv|]; case_decide; done.
  - intros v Hv. cbn. rewrite L2, L1, (decide_False (P := v ∈ ins)) by done.
    destruct (variables h !! v) as [xv|]; case_decide; done.
  - intros g Hg. cbn. by rewrite !list_lookup_alter_ne.
Qed.

(** *** Rank *)

(** C2.  Whenever the first half of [__call__] returns, there was at least
    one input, and the operation then holds one branch per input and a rank
    that is the maximum of the ranks of these branches, so that no input's
    rank exceeds it; and this is still so when [__call__] ends, whether
    forward returned or raised.  For a proper operation the first half
    always returns when there is an input and every input is ready to be
    consumed.  A Split made for a variable has that variable as its only
    input and carries its rank. *)
Theorem rank_is_max_over_resolved_inputs self (fo : FunctionObj T)
    (inputs : list vref) h :
  functions h !! self = Some fo →
  (∀ h1 u,
     Function.chain_inputs self inputs h = (h1, Ok u) →
     inputs ≠ [] ∧
     rank_is_max self (length inputs) h1 ∧
     ∀ h' res, Function.__call__ self inputs h = (h', res) →
               rank_is_max self (length inputs) h') ∧
  (∀ h' r,
     Function.__call__ self inputs h = (h', Ok r) →
     rank_is_max self (length inputs) h') ∧
  (f_class fo ≠ SplitClass → inputs ≠ [] → Forall (branch_ready h) inputs →
   ∃ h1, Function.chain_inputs self inputs h = (h1, Ok tt)) ∧
  (∀ x xv, variables h !! x = Some xv →
     ∃ h1 s so,
       Split.__init__ x h = (h1, Ok s) ∧ functions h1 !! s = Some so ∧
       f_class so = SplitClass ∧ f_inputs so = Some [x] ∧
       f_rank so = Some (v_rank xv) ∧ variables h1 !! x = Some xv).
Proof.
  intros Hf.
  assert (Hchain : ∀ h1 u,
    Function.chain_inputs self inputs h = (h1, Ok u) →
    inputs ≠ [] ∧
    rank_is_max self (length inputs) h1 ∧
    ∀ h' res, Function.__call__ self inputs h = (h', res) →
              rank_is_max self (length inputs) h').
  { intros h1 u E.
    destruct (chain_inputs_inv _ _ _ _ _ _ Hf E)
      as (h0 & fo0 & ranks & rk & Hext & Harr & Hlen & Hf0 & Hi0 & Hranks & Hmax & ->).
    assert (Hf1 : functions (with_functions (alter (set_rank_of_function (Some rk)) self) h0)
                    !! self = Some (set_rank_of_function (Some rk) fo0)).
    { cbn. by rewrite list_lookup_alter_eq, Hf0. }
    assert (Hmax1 : rank_is_max self (length inputs)
                      (with_functions (alter (set_rank_of_function (Some rk)) self) h0)).
    { eapply rank_is_max_intro; [exact Hf1|exact Hi0|done|by rewrite length_seq| |exact Hmax].
      exact Hranks. }
    split_and!.
    - intros ->. cbn in Hranks. injection Hranks as <-. discriminate.
    - exact Hmax1.
    - intros h' res H. unfold Function.__call__ in H.
      destruct u. rewrite (bind_ok _ _ _ _ _ E) in H.
      destruct (run_forward_keeps_rank _ _ rk _ _ _ Hf1 eq_refl H) as [Hv Hfs].
      eapply rank_is_max_frame; [exact Hmax1|exact Hv|].
      intros fo1 Hfo1. assert (fo1 = set_rank_of_function (Some rk) fo0) as -> by congruence.
      exact Hfs. }
  split_and!.
  - exact Hchain.
  - intros h' r H. pose proof H as H0. unfold Function.__call__ in H.
    apply bind_ok_inv in H as (h1 & u & E & _).
    by eapply Hchain.
  - intros Hcls Hne Hready.
    destruct (ready_inputs_have_data _ _ Hready) as [datas Hdatas].
    destruct (chain_inputs_total _ _ _ _ _ Hf Hcls Hne Hready Hdatas) as (h2 & fo2 & E & _).
    eauto.
  - intros x xv Hx. rewrite (Split_init_ok _ _ _ Hx).
    eexists _, _, _. split; [reflexivity|]. cbn.
    split; [apply lookup_snoc_new|]. done.
Qed.

(** *** Branch points *)

(** C3, as amended.  Consuming [x] once, the body of the first loop of
    [__call__] for input slot [i] of a proper operation [self], always
    leaves [x] with a Split.  If [x] had none, the Split is allocated now,
    at this first consumption; if it had one, that one is kept and no
    function object is allocated.  Either way the Split gains exactly one
    output, a new variable [d] whose raw value is the very array of [x]
    and whose creator is the Split; no array is touched; slot [i] of the
    operation now holds [d]; and [x] is ready to be consumed again.  Over
    the whole loop of a call, the Split of every variable gains as many
    outputs as the variable occurs among the inputs, and every input has a
    Split afterwards. *)
Theorem branch_made_at_first_consumption self (fo : FunctionObj T)
    (l : list vref) (i : nat) x h :
  functions h !! self = Some fo →
  f_class fo ≠ SplitClass →
  f_inputs fo = Some l → (i < length l)%nat →
  branch_ready h x →
  ∃ h' s d xv dv,
    Function.resolve_input self i x h = (h', Ok tt) ∧
    variables h !! x = Some xv ∧
    branch_of h' x = Some s ∧
    (branch_of h x = None →
       s = length (functions h) ∧
       length (functions h') = S (length (functions h))) ∧
    (∀ s0, branch_of h x = Some s0 →
       s = s0 ∧ length (functions h') = length (functions h)) ∧
    branch_outputs h' x = branch_outputs h x ++ [d] ∧
    d = length (variables h) ∧ length (variables h') = S d ∧
    variables h' !! d = Some dv ∧
    v_data dv = v_data xv ∧ v_creator dv = Some s ∧
    arrays h' = arrays h ∧
    f_inputs <$> functions h' !! self = Some (Some (<[i := d]> l)) ∧
    branch_ready h' x ∧
    (∀ inputs h2,
       Forall (branch_ready h) inputs →
       Function.chain_inputs self inputs h = (h2, Ok tt) →
       ∀ x', branch_ready h x' →
         length (branch_outputs h2 x')
         = (length (branch_outputs h x') + consumptions x' inputs)%nat ∧
         (x' ∈ inputs → is_Some (branch_of h2 x'))).
Proof.
  intros Hf Hcls Hi Hlt Hrx.
  assert (Hloop : ∀ inputs h2,
    Forall (branch_ready h) inputs →
    Function.chain_inputs self inputs h = (h2, Ok tt) →
    ∀ x', branch_ready h x' →
      length (branch_outputs h2 x')
      = (length (branch_outputs h x') + consumptions x' inputs)%nat ∧
      (x' ∈ inputs → is_Some (branch_of h2 x'))).
  { intros inputs h2 Hready E. by eapply chain_inputs_outputs. }
  destruct Hrx as [xv Hx Hsp | xv s so r outs Hx Hsp Hs Hc Hsi Hr Ho].
  - rewrite (resolve_input_first _ _ _ _ _ _ _ Hx Hsp Hf Hi Hlt).
    set (s := length (functions h)). set (d := length (variables h)).
    assert (Hself : (self < s)%nat) by (by eapply lookup_lt_Some).
    assert (Hx' : (alter (set_splitter_field (Some (Some s))) x (variables h)
                     ++ [branch_variable s (v_rank xv) xv]) !! x
                  = Some (set_splitter_field (Some (Some s)) xv)).
    { apply lookup_snoc_old. by rewrite list_lookup_alter_eq, Hx. }
    assert (Hs' : (alter (set_inputs_field (Some (<[i := d]> l))) self (functions h)
                     ++ [mkFunction SplitClass (Some [x]) (Some [d])
                                    (Some (v_rank xv)) ∅]) !! s
                  = Some (mkFunction SplitClass (Some [x]) (Some [d])
                                     (Some (v_rank xv)) ∅)).
    { apply list_lookup_middle. by rewrite length_alter. }
    assert (Hb : branch_of h x = None) by (unfold branch_of; by rewrite Hx; cbn; rewrite Hsp).
    eexists _, s, d, xv, (branch_variable s (v_rank xv) xv). split; [reflexivity|].
    cbn [arrays variables functions]. split_and!; try done.
    + unfold branch_of. cbn [variables]. by rewrite Hx'.
    + intros _. split; [done|]. rewrite length_app, length_alter. cbn. lia.
    + intros s0. by rewrite Hb.
    + unfold branch_outputs at 1. unfold branch_of. cbn [variables functions].
      rewrite Hx'. cbn. rewrite Hs'. cbn.
      unfold branch_outputs. by rewrite Hb.
    + rewrite length_app, length_alter. cbn. lia.
    + apply list_lookup_middle. by rewrite length_alter.
    + rewrite (lookup_snoc_old _ _ (set_inputs_field (Some (<[i := d]> l)) fo)); [done|].
      by rewrite list_lookup_alter_eq, Hf.
    + eapply ready_branched; cbn [variables functions]; [exact Hx'|done|exact Hs'|done..].
  - assert (Hne : self ≠ s) by (intros ->; congruence).
    rewrite (resolve_input_again _ _ _ _ _ _ _ _ _ _ [] _ _ _
               Hx Hsp Hs Hc Hsi Hr Ho Hx Hf Hi Hlt).
    set (d := length (variables h)).
    assert (Hb : branch_of h x = Some s) by (unfold branch_of; by rewrite Hx; cbn; rewrite Hsp).
    assert (Hs' : alter (set_inputs_field (Some (<[i := d]> l))) self
                    (alter (set_outputs_field (Some (outs ++ [d]))) s (functions h)) !! s
                  = Some (set_outputs_field (Some (outs ++ [d])) so)).
    { rewrite list_lookup_alter_ne by done. by rewrite list_lookup_alter_eq, Hs. }
    eexists _, s, d, xv, (branch_variable s r xv). split; [reflexivity|].
    cbn [arrays variables functions]. split_and!; try done.
    + unfold branch_of. cbn [variables]. rewrite (lookup_snoc_old _ _ _ _ Hx). cbn.
      by rewrite Hsp.
    + by rewrite Hb.
    + intros s0. rewrite Hb. intros [= <-]. by rewrite !length_alter.
    + unfold branch_outputs at 1. unfold branch_of. cbn [variables functions].
      rewrite (lookup_snoc_old _ _ _ _ Hx). cbn. rewrite Hsp. cbn. rewrite Hs'. cbn.
      unfold branch_outputs. rewrite Hb. cbn. by rewrite Hs, Ho.
    + rewrite length_app. cbn. lia.
    + apply lookup_snoc_new.
    + by rewrite list_lookup_alter_eq, list_lookup_alter_ne, Hf.
    + eapply ready_branched; cbn [variables functions];
        [by apply lookup_snoc_old|done|exact Hs'|done..].
Qed.

(** *** Parameterized functions *)


(** *** A missing forward *)

(** C8, as amended.  A proper operation is called on at least one input,
    all of them ready to be consumed, and its class does not define the
    forward method that the raw values of these inputs select.  Then the
    call raises NotImplementedError.  Let [node] be the graph node of the
    call: the object itself, or the copy that a parameterized function
    makes of itself.  No kernel has run (the arrays are as before); the
    node's output list is what the object's was, and no variable has come
    to name the node as its creator.  So when the object had no output
    list and the node had produced nothing, the node has no output list
    and no variable anywhere has it as its creator. *)
Theorem missing_forward_raises_before_outputs self (fo : FunctionObj T)
    (inputs : list vref) (datas : list aref) h :
  functions h !! self = Some fo →
  f_class fo ≠ SplitClass →
  inputs ≠ [] →
  Forall (branch_ready h) inputs →
  mapM (λ x, v_data <$> variables h !! x) inputs = Some datas →
  (if _is_gpu_input (arrays h) datas
   then m_forward_gpu (methods_of (f_class fo))
   else m_forward_cpu (methods_of (f_class fo))) = None →
  ∃ h' node,
    invoke self inputs h = (h', Raise NotImplementedError) ∧
    node = match f_class fo with
           | ParameterizedClass _ _ _ => length (functions h)
           | _ => self
           end ∧
    arrays h' = arrays h ∧
    f_outputs <$> functions h' !! node = Some (f_outputs fo) ∧
    (∀ y yv', variables h' !! y = Some yv' → v_creator yv' = Some node →
              ∃ yv, variables h !! y = Some yv ∧ v_creator yv = Some node) ∧
    (f_outputs fo = None → f_outputs <$> functions h' !! node = Some None) ∧
    ((∀ y yv, variables h !! y = Some yv → v_creator yv ≠ Some node) →
     ∀ y yv', variables h' !! y = Some yv' → v_creator yv' ≠ Some node).
Proof.
  intros Hf Hcls Hne Hready Hdatas Hmiss.
  assert (Hgoal : ∀ h0 node h',
    arrays h0 = arrays h → variables h0 = variables h →
    functions h0 !! node = Some fo →
    arrays h' = arrays h0 → quiet node h0 h' →
    arrays h' = arrays h ∧
    f_outputs <$> functions h' !! node = Some (f_outputs fo) ∧
    (∀ y yv', variables h' !! y = Some yv' → v_creator yv' = Some node →
              ∃ yv, variables h !! y = Some yv ∧ v_creator yv = Some node) ∧
    (f_outputs fo = None → f_outputs <$> functions h' !! node = Some None) ∧
    ((∀ y yv, variables h !! y = Some yv → v_creator yv ≠ Some node) →
     ∀ y yv', variables h' !! y = Some yv' → v_creator yv' ≠ Some node)).
  { intros h0 node h' Ha Hv Hn Ha' [Hout Hcre]. rewrite Hv in Hcre.
    split_and!.
    - congruence.
    - by rewrite Hout, Hn.
    - done.
    - intros Hnone. rewrite Hout, Hn. cbn. by rewrite Hnone.
    - intros Hnew y yv' Hy Hc. destruct (Hcre _ _ Hy Hc) as (yv & Hyv & Hcyv).
      by eapply Hnew. }
  unfold invoke, class_of.
  rewrite bind_unfold, (bind_ok _ _ _ _ _ (get_fun_ok _ _ _ Hf)). cbn [ret].
  destruct (f_class fo) as [|m|m pn gn] eqn:Hc; [done| |].
  - destruct (call_with_missing_forward self fo inputs datas h) as (h' & E & Ha & Hq);
      [done|by rewrite Hc|done|done|done|by rewrite Hc|].
    exists h', self. split; [done|]. split; [done|]. by apply (Hgoal h self h').
  - unfold ParameterizedFunction.__call__, ParameterizedFunction.shallow_copy.
    rewrite bind_unfold, (bind_ok _ _ _ _ _ (get_fun_ok _ _ _ Hf)).
    unfold alloc_fun. set (h0 := with_functions _ h).
    assert (Hcp : functions h0 !! length (functions h) = Some fo) by apply lookup_snoc_new.
    destruct (call_with_missing_forward (length (functions h)) fo inputs datas h0)
      as (h' & E & Ha & Hq); [done|by rewrite Hc|done| |done|by rewrite Hc|].
    { eapply Forall_impl; [exact Hready|].
      intros x [xv ? ?|xv s so r outs ? ? Hs ? ? ? ?].
      - by eapply ready_unbranched.
      - eapply ready_branched; try done. by apply lookup_snoc_old. }
    exists h', (length (functions h)). split; [done|]. split; [done|].
    by apply (Hgoal h0 (length (functions h)) h').
Qed.
End claims.

(** ** The statements at concrete stores *)

(** A decidable side condition, settled by evaluation. *)
Ltac decided := apply (bool_decide_unpack _); vm_compute; exact I.

Example add_one_call_returns :
  Function.__call__ 0%nat [0%nat] leaf_and_add_one = (after_add_one, Ok (Single 2%nat)).
Proof. vm_compute. reflexivity. Qed.



(** C1 at two gradients 2 and 5 with an absent one between them: the sum is 7. *)
Lemma split_backward_at_two_gradients :
  grads_valid (arrays two_gradients) [Some 0%nat; None; Some 1%nat] ∧
  ∃ h' gx,
    Split.backward [] [Some 0%nat; None; Some 1%nat] two_gradients = (h', Ok [gx]) ∧
    grad_value (arrays h') gx = Some 7.
Proof.
  assert (Hv : grads_valid (arrays two_gradients) [Some 0%nat; None; Some 1%nat]).
  { repeat constructor; intros a [= <-]; by eexists. }
  split; [exact Hv|].
  destruct (split_backward_sums_present_gradients [] _ two_gradients Hv)
    as (h' & gx & E & Hval & _).
  exists h', gx. split; [exact E | exact Hval].
Defined.

(** C2 at the call of [add_one] on the leaf. *)
Lemma rank_after_add_one :
  rank_is_max 0%nat 1 after_add_one ∧
  ∃ h1, Function.chain_inputs 0%nat [0%nat] leaf_and_add_one = (h1, Ok tt).
Proof.
  destruct (rank_is_max_over_resolved_inputs 0%nat
              (mkFunction add_one None None None ∅) [0%nat]
              leaf_and_add_one eq_refl)
    as (_ & Hcall & Htotal & _).
  split.
  - exact (Hcall after_add_one (Single 2%nat) add_one_call_returns).
  - apply Htotal; [done|done|].
    constructor; [|constructor]. by eapply ready_unbranched.
Defined.

(** C3 as worded fails: after its first consumption the leaf already has a
    branch point. *)
Lemma branch_exists_after_first_consumption : ¬ branch_made_at_second_consumption.
Proof.
  intros H.
  specialize (H leaf_and_add_one after_add_one 0%nat 0%nat (Single 2%nat)
                eq_refl add_one_call_returns).
  vm_compute in H. discriminate.
Qed.

(** C3 as amended, at the first consumption of the leaf. *)
Lemma first_consumption_of_leaf :
  branch_ready add_one_with_slot 0%nat ∧
  ∃ h' s d,
    Function.resolve_input 0%nat 0%nat 0%nat add_one_with_slot = (h', Ok tt) ∧
    branch_of add_one_with_slot 0%nat = None ∧
    branch_of h' 0%nat = Some s ∧
    branch_outputs h' 0%nat = [d].
Proof.
  assert (Hr : branch_ready add_one_with_slot 0%nat).
  { by eapply ready_unbranched. }
  split; [exact Hr|].
  destruct (branch_made_at_first_consumption 0%nat
              (mkFunction add_one (Some [0%nat]) None None ∅) [0%nat] 0%nat 0%nat
              add_one_with_slot eq_refl ltac:(done) eq_refl ltac:(cbn; lia) Hr)
    as (h' & s & d & xv & dv & E & _ & Hb & _ & _ & Ho & _).
  exists h', s, d. split_and!; [exact E | reflexivity | exact Hb | exact Ho].
Defined.


(** C7 at the node made by calling [add_one] on the leaf. *)
Lemma forget_add_one_node :
  ∃ h',
    Function.forget 0%nat after_add_one = (h', Ok tt) ∧
    v_creator <$> variables h' !! 2%nat = Some None ∧
    v_splitter <$> variables h' !! 1%nat = Some (Some None) ∧
    arrays h' = arrays after_add_one.
Proof.
  destruct (forget_clears_links 0%nat _ [1%nat] [2%nat] after_add_one
              eq_refl eq_refl eq_refl)
    as (h' & E & Hc & Hs & _ & Ha & _).
  - repeat constructor. by eexists.
  - repeat constructor. by eexists.
  - exists h'. split_and!; [exact E | | | exact Ha].
    + apply Hc, list_elem_of_here.
    + apply Hs, list_elem_of_here.
Defined.

Example host_only_first_call_returns :
  Function.__call__ 0%nat [0%nat] two_leaves_and_host_only
  = (host_only_called_on_host, Ok (Single 3%nat)).
Proof. vm_compute. reflexivity. Qed.

(** C8 as worded fails: [host_only] has been called on the host leaf and is
    then called on the accelerator leaf, for which it has no forward.  The
    call raises NotImplementedError, and afterwards the node still lists
    the output of the first call, which still names it as creator. *)
Lemma outputs_survive_a_failed_call : ¬ failed_call_leaves_no_outputs.
Proof.
  intros H.
  destruct (H host_only_called_on_host
              (invoke 0%nat [1%nat] host_only_called_on_host).1
              0%nat
              (mkFunction host_only (Some [2%nat]) (Some [3%nat]) (Some 0) ∅)
              [1%nat] [1%nat]) as [Hout _].
  - reflexivity.
  - discriminate.
  - discriminate.
  - repeat constructor. by eapply ready_unbranched.
  - reflexivity.
  - reflexivity.
  - vm_compute. reflexivity.
  - vm_compute in Hout. discriminate.
Qed.

(** C8 as amended, at an object of the class without methods, called on the
    leaf. *)
Lemma abstract_op_call_raises :
  ∃ h',
    invoke 0%nat [0%nat] leaf_and_abstract_op = (h', Raise NotImplementedError) ∧
    f_outputs <$> functions h' !! 0%nat = Some None ∧
    ∀ y yv', variables h' !! y = Some yv' → v_creator yv' ≠ Some 0%nat.
Proof.
  destruct (missing_forward_raises_before_outputs 0%nat
              (mkFunction abstract_op None None None ∅) [0%nat] [0%nat]
              leaf_and_abstract_op eq_refl ltac:(done) ltac:(done))
    as (h' & node & E & -> & _ & _ & _ & Ho & Hc).
  - constructor; [|constructor]. by eapply ready_unbranched.
  - reflexivity.
  - reflexivity.
  - exists h'. split_and!; [exact E | by apply Ho |].
    apply Hc. intros [|y] yv Hy; [|done]. by injection Hy as <-.
Defined.

(** C9 at [add_one], which defines no backward method. *)
Lemma add_one_backward_is_inert :
  Function.backward 0%nat [0%nat] [None] leaf_and_add_one
  = (leaf_and_add_one, Ok [None]).
Proof.
  destruct (default_backward_is_inert 0%nat
              (mkFunction add_one None None None ∅) [0%nat] [None]
              leaf_and_add_one eq_refl eq_refl eq_refl)
    as (_ & _ & E & _).
  exact E.
Defined.

(** C10 at [add_one], called on nothing. *)
Lemma add_one_call_on_nothing :
  ∃ h', invoke 0%nat [] leaf_and_add_one = (h', Raise ValueError).
Proof.
  destruct (call_without_inputs_fails 0%nat
              (mkFunction add_one None None None ∅) leaf_and_add_one eq_refl)
    as (_ & _ & (h' & E & _) & _).
  by exists h'.
Defined.

(** ** Further properties of the graph core *)

Section more_facts.
Context {T : Type} `{!Tensor T}.
Implicit Types (h : Heap T) (v x y d : vref) (f s self : fref) (a : aref).
Implicit Types (fo so : FunctionObj T) (xv : VariableObj).

(** *** Forgetting *)

(** [forget] on a node that holds both lists: the store it leaves. *)
Lemma forget_runs self fo (ins outs : list vref) h :
  functions h !! self = Some fo →
  f_inputs fo = Some ins → f_outputs fo = Some outs →
  Forall (λ x, is_Some (variables h !! x)) ins →
  Forall (λ y, is_Some (variables h !! y)) outs →
  Function.forget self h
  = (mkHeap (arrays h)
       (foldl (λ l x, alter (set_splitter_field (Some None)) x l)
          (foldl (λ l y, alter (set_creator_field None) y l) (variables h) outs) ins)
       (alter (set_inputs_field None) self
          (alter (set_outputs_field None) self (functions h))),
     Ok tt).
Proof.
  intros Hf Hins Houts Hvi Hvo.
  unfold Function.forget, Function.get_outputs, Function.get_inputs.
  rewrite bind_unfold, bind_unfold, (get_fun_ok _ _ _ Hf), Houts. cbn [ret].
  rewrite bind_unfold, (for_each_update_var _ _ _ Hvo).
  rewrite bind_unfold, bind_unfold.
  rewrite (get_fun_ok _ _ fo) by done. rewrite Hins. cbn [ret].
  rewrite bind_unfold, for_each_update_var.
  2:{ eapply Forall_impl; [exact Hvi|]. intros z Hz. cbn.
      apply lookup_lt_is_Some. rewrite foldl_alter_length.
      by apply lookup_lt_is_Some. }
  rewrite bind_unfold, (update_fun_ok _ _ _ fo) by done.
  erewrite update_fun_ok; [done|].
  cbn. by rewrite list_lookup_alter_eq, Hf.
Qed.

Lemma forget_without_outputs self fo h :
  functions h !! self = Some fo → f_outputs fo = None →
  Function.forget self h = (h, Raise TypeError).
Proof.
  intros Hf Ho. unfold Function.forget, Function.get_outputs.
  by rewrite bind_unfold, bind_unfold, (get_fun_ok _ _ _ Hf), Ho.
Qed.

(** X1.  [forget] needs a node that has been called and not yet forgotten.
    On a node just made by [Function.__init__] it raises TypeError and
    changes nothing; and after a [forget] that returned, a second [forget]
    on the same node raises TypeError and changes nothing. *)
Theorem forget_only_once self fo (ins outs : list vref) h :
  functions h !! self = Some fo →
  f_inputs fo = Some ins → f_outputs fo = Some outs →
  Forall (λ x, is_Some (variables h !! x)) ins →
  Forall (λ y, is_Some (variables h !! y)) outs →
  (∃ h1, Function.forget self h = (h1, Ok tt) ∧
         Function.forget self h1 = (h1, Raise TypeError)) ∧
  (∀ (c : FunctionClass T) attrs h0 h1 f,
     Function.__init__ c attrs h0 = (h1, Ok f) →
     Function.forget f h1 = (h1, Raise TypeError)).
Proof.
  intros Hf Hins Houts Hvi Hvo. split.
  - rewrite (forget_runs _ _ _ _ _ Hf Hins Houts Hvi Hvo).
    eexists. split; [reflexivity|].
    eapply forget_without_outputs.
    + cbn. by rewrite !list_lookup_alter_eq, Hf.
    + done.
  - intros c attrs h0 h1 f [= <- <-].
    eapply forget_without_outputs; [cbn; apply lookup_snoc_new|done].
Qed.

(** *** Operations without a forward *)

Lemma forward_without_methods self fo datas h :
  functions h !! self = Some fo →
  m_forward_cpu (methods_of (f_class fo)) = None →
  m_forward_gpu (methods_of (f_class fo)) = None →
  Function.forward self datas h = (h, Raise NotImplementedError).
Proof.
  intros Hf Hc Hg. apply forward_not_implemented with fo; [done|].
  by destruct (_is_gpu_input _ _).
Qed.

Lemma call_without_methods self fo inputs h h' (r : CallResult) :
  functions h !! self = Some fo →
  m_forward_cpu (methods_of (f_class fo)) = None →
  m_forward_gpu (methods_of (f_class fo)) = None →
  Function.__call__ self inputs h ≠ (h', Ok r).
Proof.
  intros Hf Hc Hg H.
  destruct (call_inv _ _ _ _ _ _ Hf H)
    as (h1 & fo1 & ranks & rk & datas & arrs' & outputs & Hext & _ & _ & Hf1 & _
        & _ & _ & _ & Hfwd & _).
  destruct Hext as (_ & _ & _ & F).
  destruct (F _ _ Hf) as (fo1' & Hf1' & Hc1 & _).
  assert (fo1' = fo1) as -> by congruence.
  rewrite (forward_without_methods self (set_rank_of_function (Some rk) fo1)) in Hfwd.
  - discriminate.
  - cbn. by rewrite list_lookup_alter_eq, Hf1.
  - cbn. by rewrite Hc1.
  - cbn. by rewrite Hc1.
Qed.

(** X2.  An object whose class defines neither [forward_cpu] nor
    [forward_gpu], and leaves [forward] as inherited, can never be called
    with success: whatever the inputs and the store, the call ends in an
    exception.  A Split is such an object: it inherits [__call__] and
    defines no forward. *)
Theorem call_never_returns_without_forward self fo (inputs : list vref) h :
  functions h !! self = Some fo →
  m_forward_cpu (methods_of (f_class fo)) = None →
  m_forward_gpu (methods_of (f_class fo)) = None →
  (∃ h' e, invoke self inputs h = (h', Raise e)) ∧
  (∃ h' e, Function.__call__ self inputs h = (h', Raise e)).
Proof.
  intros Hf Hc Hg.
  assert (Hcall : ∀ g h0, functions h0 !! g = Some fo →
                  ∃ h' e, Function.__call__ g inputs h0 = (h', Raise e)).
  { intros g h0 Hg0.
    destruct (Function.__call__ g inputs h0) as [h' [r|e]] eqn:E; [|eauto].
    by destruct (call_without_methods _ _ _ _ _ _ Hg0 Hc Hg E). }
  split_and!.
  - unfold invoke, class_of.
    rewrite bind_unfold, (bind_ok _ _ _ _ _ (get_fun_ok _ _ _ Hf)). cbn [ret].
    destruct (f_class fo) as [|m|m pn gn] eqn:Hcls; [by apply Hcall..|].
    unfold ParameterizedFunction.__call__, ParameterizedFunction.shallow_copy.
    rewrite bind_unfold, (bind_ok _ _ _ _ _ (get_fun_ok _ _ _ Hf)).
    unfold alloc_fun. apply Hcall. cbn. apply lookup_snoc_new.
  - by apply Hcall.
Qed.

(** *** Forward raises where backward stays silent *)

(** X3.  The two inherited dispatchers treat a missing method
    differently.  When the class lacks the forward method that the inputs
    select, [forward] raises NotImplementedError; when it lacks the
    backward method that the inputs select, [backward] returns one None
    per input and raises nothing, even if the method for the other backend
    is defined.  Neither touches the store. *)
Theorem missing_backward_is_silent self fo (inputs : list aref)
    (grad_outputs : list (option aref)) h :
  functions h !! self = Some fo →
  (if _is_gpu_input (arrays h) inputs
   then m_forward_gpu (methods_of (f_class fo))
   else m_forward_cpu (methods_of (f_class fo))) = None →
  (if _is_gpu_input (arrays h) inputs
   then m_backward_gpu (methods_of (f_class fo))
   else m_backward_cpu (methods_of (f_class fo))) = None →
  Function.forward self inputs h = (h, Raise NotImplementedError) ∧
  Function.backward self inputs grad_outputs h
    = (h, Ok (replicate (length inputs) None)).
Proof.
  intros Hf Hfw Hbw. split; [by apply forward_not_implemented with fo|].
  assert (Hmap : map (λ _ : aref, @None aref) inputs = replicate (length inputs) None).
  { clear. induction inputs as [|i inputs IH]; [done|]. cbn. by rewrite IH. }
  unfold Function.backward, gets. rewrite bind_unfold.
  destruct (_is_gpu_input (arrays h) inputs);
    unfold Function.backward_gpu, Function.backward_cpu;
    by rewrite (bind_ok _ _ _ _ _ (get_fun_ok _ _ _ Hf)), Hbw, Hmap.
Qed.

(** *** Calling a plain function object twice *)

(** X4.  A function object that is not parameterized is not copied when it
    is called, so a second call overwrites what the first one recorded.
    After two returning calls the object lists only the outputs of the
    second call and holds only the branches made by the second call as
    inputs; the outputs of the first call are different variables, still
    name the object as their creator, and are no longer among its
    outputs. *)
Theorem second_call_overwrites_first self fo (xs1 xs2 : list vref)
    h0 h1 h2 (r1 r2 : CallResult) :
  functions h0 !! self = Some fo →
  Function.__call__ self xs1 h0 = (h1, Ok r1) →
  Function.__call__ self xs2 h1 = (h2, Ok r2) →
  ∃ fo2,
    functions h2 !! self = Some fo2 ∧
    f_outputs fo2 = Some (result_vars r2) ∧
    f_inputs fo2 = Some (seq (length (variables h1)) (length xs2)) ∧
    (∀ x, x ∈ seq (length (variables h0)) (length xs1) →
          x ∉ seq (length (variables h1)) (length xs2)) ∧
    Forall (λ y, (y ∉ result_vars r2) ∧
                 v_creator <$> variables h2 !! y = Some (Some self)) (result_vars r1).
Proof.
  intros Hf H1 H2.
  destruct (call_summary _ _ _ _ _ _ Hf H1)
    as (Hext1 & Hlen1 & Hout1 & fo1 & rk1 & Hf1 & _).
  destruct (call_summary _ _ _ _ _ _ Hf1 H2)
    as (Hext2 & Hlen2 & Hout2 & fo2 & rk2 & Hf2 & _ & _ & Hi2 & Ho2 & _).
  exists fo2. split_and!; try done.
  - intros x [_ Hx1]%elem_of_seq [Hx2 _]%elem_of_seq. lia.
  - rewrite Forall_forall in Hout1, Hout2. apply Forall_forall. intros y Hy.
    destruct (Hout1 _ Hy) as [[_ Hlt] Hcr]. split.
    + intros Hy2. destruct (Hout2 _ Hy2) as [[Hge _] _]. lia.
    + destruct (variables h1 !! y) as [yv|] eqn:E; [|discriminate].
      destruct Hext2 as (_ & V2 & _).
      destruct (V2 y yv E) as (yv' & -> & _ & Hcr' & _). cbn in *. congruence.
Qed.


(** *** Assigning and reading parameters and gradients *)
















(** *** What a call computes *)

Lemma parameterized_call_on_copy self fo (xs : list vref) h :
  functions h !! self = Some fo →
  ParameterizedFunction.__call__ self xs h
  = Function.__call__ (length (functions h)) xs (with_functions (λ l, l ++ [fo]) h).
Proof.
  intros Hf. unfold ParameterizedFunction.__call__, ParameterizedFunction.shallow_copy.
  by rewrite bind_unfold, (bind_ok _ _ _ _ _ (get_fun_ok _ _ _ Hf)).
Qed.


Lemma forward_selected self fo (datas : list aref) (k : forward_kernel T) h :
  functions h !! self = Some fo →
  (if _is_gpu_input (arrays h) datas
   then m_forward_gpu (methods_of (f_class fo))
   else m_forward_cpu (methods_of (f_class fo))) = Some k →
  Function.forward self datas h = run_kernel (k (f_attrs fo) datas) h.
Proof.
  intros Hf Hm. unfold Function.forward, gets. rewrite bind_unfold.
  destruct (_is_gpu_input (arrays h) datas);
    unfold Function.forward_gpu, Function.forward_cpu;
    by rewrite (bind_ok _ _ _ _ _ (get_fun_ok _ _ _ Hf)), Hm.
Qed.

Lemma run_forward_ok self fo rk (ins : list vref) (datas outputs : list aref)
    (arrs' : list (Array T)) h :
  functions h !! self = Some fo → f_rank fo = Some rk → f_inputs fo = Some ins →
  mapM (λ x, v_data <$> variables h !! x) ins = Some datas →
  Function.forward self datas h = (with_arrays (λ _, arrs') h, Ok outputs) →
  Function.run_forward self h
  = (mkHeap arrs'
       (variables h ++ map (λ y, produced_by self rk (leaf_variable y)) outputs)
       (alter (set_outputs_field (Some (seq (length (variables h)) (length outputs))))
          self (functions h)),
     Ok (pack_outputs (seq (length (variables h)) (length outputs)))).
Proof.
  intros Hf Hr Hi Hd Hfw. unfold Function.run_forward.
  rewrite (bind_ok _ _ _ _ _ (get_inputs_ok _ _ _ _ Hf Hi)).
  rewrite bind_unfold.
  rewrite (map_m_pure _ (λ h x, v_data <$> variables h !! x) DanglingReference)
    by (intros; apply data_of_pure).
  rewrite Hd, (bind_ok _ _ _ _ _ Hfw).
  rewrite bind_unfold, map_m_Variable_init.
  rewrite bind_unfold.
  erewrite update_fun_ok by (cbn; exact Hf).
  rewrite bind_unfold.
  erewrite (for_each_set_creator self (set_outputs_field _ fo) rk).
  2:{ cbn. by rewrite list_lookup_alter_eq, Hf. }
  2:{ done. }
  2:{ cbn. apply Forall_forall. intros y [Hy1 Hy2]%elem_of_seq.
      apply lookup_lt_is_Some. rewrite length_app, length_map. lia. }
  cbn. unfold ret, with_variables, with_functions, with_arrays.
  cbn [arrays variables functions]. f_equal. f_equal.
  rewrite (foldl_alter_appended (produced_by self rk)) by (by rewrite ?length_map).
  by rewrite map_map.
Qed.

Lemma run_forward_raise self fo (ins : list vref) (datas : list aref) h h' e :
  functions h !! self = Some fo → f_inputs fo = Some ins →
  mapM (λ x, v_data <$> variables h !! x) ins = Some datas →
  Function.forward self datas h = (h', Raise e) →
  Function.run_forward self h = (h', Raise e).
Proof.
  intros Hf Hi Hd Hfw. unfold Function.run_forward.
  rewrite (bind_ok _ _ _ _ _ (get_inputs_ok _ _ _ _ Hf Hi)).
  rewrite bind_unfold.
  rewrite (map_m_pure _ (λ h x, v_data <$> variables h !! x) DanglingReference)
    by (intros; apply data_of_pure).
  rewrite Hd. by apply bind_raise.
Qed.

(** The store in which [forward] runs during a call on ready inputs. *)
Lemma call_reaches_forward self fo (inputs : list vref) (datas : list aref) h :
  functions h !! self = Some fo → f_class fo ≠ SplitClass → inputs ≠ [] →
  Forall (branch_ready h) inputs →
  mapM (λ x, v_data <$> variables h !! x) inputs = Some datas →
  ∃ h2 fo2 rk,
    Function.chain_inputs self inputs h = (h2, Ok tt) ∧
    arrays h2 = arrays h ∧ quiet self h h2 ∧
    length (variables h2) = (length (variables h) + length inputs)%nat ∧
    functions h2 !! self = Some fo2 ∧
    f_class fo2 = f_class fo ∧ f_attrs fo2 = f_attrs fo ∧ f_rank fo2 = Some rk ∧
    f_inputs fo2 = Some (seq (length (variables h)) (length inputs)) ∧
    mapM (λ x, v_data <$> variables h2 !! x) (seq (length (variables h)) (length inputs))
      = Some datas ∧
    ∀ x, branch_ready h x →
      length (branch_outputs h2 x)
      = (length (branch_outputs h x) + consumptions x inputs)%nat.
Proof.
  intros Hf Hcls Hne Hready Hdatas.
  destruct (chain_inputs_total _ _ _ _ _ Hf Hcls Hne Hready Hdatas)
    as (h2 & fo2 & E & Harr & Hq & Hf2 & Hc2 & Hi2 & Hdatas2).
  destruct (chain_inputs_inv _ _ _ _ _ _ Hf E)
    as (h1 & fo1 & ranks & rk & Hext & _ & Hlen & Hf1 & _ & _ & _ & ->).
  destruct Hext as (_ & _ & _ & F).
  destruct (F _ _ Hf) as (fo1' & Hf1' & Hc1 & Ha1 & _).
  assert (fo1' = fo1) as -> by congruence.
  cbn in Hf2. rewrite list_lookup_alter_eq, Hf1 in Hf2. injection Hf2 as <-.
  exists (with_functions (alter (set_rank_of_function (Some rk)) self) h1),
         (set_rank_of_function (Some rk) fo1), rk.
  split_and!; try done.
  - cbn. by rewrite list_lookup_alter_eq, Hf1.
  - intros x Hx.
    by destruct (chain_inputs_outputs _ _ _ _ _ Hf Hcls Hready E x Hx).
Qed.

Lemma call_returns self fo (inputs : list vref)
    (datas outputs : list aref) (k : forward_kernel T) (arrs' : list (Array T)) h :
  functions h !! self = Some fo → f_class fo ≠ SplitClass → inputs ≠ [] →
  Forall (branch_ready h) inputs →
  mapM (λ x, v_data <$> variables h !! x) inputs = Some datas →
  (if _is_gpu_input (arrays h) datas
   then m_forward_gpu (methods_of (f_class fo))
   else m_forward_cpu (methods_of (f_class fo))) = Some k →
  k (f_attrs fo) datas (arrays h) = (arrs', Ok outputs) →
  let n := (length (variables h) + length inputs)%nat in
  ∃ h' fo',
    Function.__call__ self inputs h
      = (h', Ok (pack_outputs (seq n (length outputs)))) ∧
    arrays h' = arrs' ∧
    length (variables h') = (n + length outputs)%nat ∧
    (∀ j a, outputs !! j = Some a →
       ∃ yv, variables h' !! (n + j)%nat = Some yv ∧ v_data yv = a ∧
             v_creator yv = Some self ∧ v_splitter yv = None) ∧
    functions h' !! self = Some fo' ∧ f_attrs fo' = f_attrs fo ∧
    f_outputs fo' = Some (seq n (length outputs)) ∧
    (∀ y, pack_outputs (seq n (length outputs)) = Single y ↔
          length outputs = 1%nat ∧ y = n).
Proof.
  intros Hf Hcls Hne Hready Hdatas Hk Hrun n.
  destruct (call_reaches_forward _ _ _ _ _ Hf Hcls Hne Hready Hdatas)
    as (h2 & fo2 & rk & E & Harr & Hq & Hlen & Hf2 & Hc2 & Ha2 & Hr2 & Hi2 & Hd2 & _).
  assert (Hfw : Function.forward self datas h2
                = (with_arrays (λ _, arrs') h2, Ok outputs)).
  { rewrite (forward_selected self fo2 datas k) by (by rewrite ?Hc2, ?Harr).
    unfold run_kernel. by rewrite Ha2, Harr, Hrun. }
  pose proof (run_forward_ok _ _ _ _ _ _ _ _ Hf2 Hr2 Hi2 Hd2 Hfw) as Hrf.
  rewrite Hlen in Hrf. fold n in Hrf.
  eexists _, _. split_and!.
  - unfold Function.__call__. rewrite (bind_ok _ _ _ _ _ E). exact Hrf.
  - done.
  - cbn. rewrite length_app, length_map. lia.
  - intros j a Hj. cbn [variables].
    exists (produced_by self rk (leaf_variable a)). split; [|done].
    rewrite lookup_app_r by lia.
    replace (n + j - length (variables h2))%nat with j by lia.
    by rewrite list_lookup_fmap, Hj.
  - cbn [functions]. by rewrite list_lookup_alter_eq, Hf2.
  - done.
  - done.
  - intros y. destruct outputs as [|a [|b outputs]]; cbn;
      (split; [intros H0; try discriminate; by injection H0 as <-
              |intros [H0 H1]; try discriminate; by subst]).
Qed.

(** X10.  What a call returns.  On a node that is not a Split, called on
    at least one input, all of them consumable with their branch links in
    order: when the forward method that the raw input arrays select is
    defined and returns, the call returns; forward has received the data
    arrays of the inputs in order; the array store is the one forward
    left; every array forward returned is wrapped in one new variable
    that holds it, names the node as creator and has no splitter
    attribute; the node lists these variables as its outputs; and the
    caller gets the variable itself when there is exactly one and the list
    otherwise. *)
Theorem call_wraps_forward_outputs self fo (inputs : list vref)
    (datas outputs : list aref) (k : forward_kernel T) (arrs' : list (Array T)) h :
  functions h !! self = Some fo → f_class fo ≠ SplitClass → inputs ≠ [] →
  Forall (branch_ready h) inputs →
  mapM (λ x, v_data <$> variables h !! x) inputs = Some datas →
  (if _is_gpu_input (arrays h) datas
   then m_forward_gpu (methods_of (f_class fo))
   else m_forward_cpu (methods_of (f_class fo))) = Some k →
  k (f_attrs fo) datas (arrays h) = (arrs', Ok outputs) →
  let n := (length (variables h) + length inputs)%nat in
  ∃ h' fo',
    Function.__call__ self inputs h
      = (h', Ok (pack_outputs (seq n (length outputs)))) ∧
    arrays h' = arrs' ∧
    length (variables h') = (n + length outputs)%nat ∧
    (∀ j a, outputs !! j = Some a →
       ∃ yv, variables h' !! (n + j)%nat = Some yv ∧ v_data yv = a ∧
             v_creator yv = Some self ∧ v_splitter yv = None) ∧
    functions h' !! self = Some fo' ∧ f_attrs fo' = f_attrs fo ∧
    f_outputs fo' = Some (seq n (length outputs)) ∧
    (∀ y, pack_outputs (seq n (length outputs)) = Single y ↔
          length outputs = 1%nat ∧ y = n).
Proof. apply call_returns. Qed.

(** X11.  A failing forward.  Under the same conditions, when the selected
    forward method raises, the call raises the same exception.  The array
    store is the one forward left behind.  The call is not rolled back:
    the inputs have been branched, each input has gained as many branch
    outputs as it has occurrences among the inputs; but the node's output
    list is as before and no variable has come to name the node as its
    creator. *)
Theorem call_passes_forward_error_on self fo (inputs : list vref)
    (datas : list aref) (k : forward_kernel T) (arrs' : list (Array T))
    (e : PyError) h :
  functions h !! self = Some fo → f_class fo ≠ SplitClass → inputs ≠ [] →
  Forall (branch_ready h) inputs →
  mapM (λ x, v_data <$> variables h !! x) inputs = Some datas →
  (if _is_gpu_input (arrays h) datas
   then m_forward_gpu (methods_of (f_class fo))
   else m_forward_cpu (methods_of (f_class fo))) = Some k →
  k (f_attrs fo) datas (arrays h) = (arrs', Raise e) →
  ∃ h',
    Function.__call__ self inputs h = (h', Raise e) ∧
    arrays h' = arrs' ∧
    quiet self h h' ∧
    length (variables h') = (length (variables h) + length inputs)%nat ∧
    ∀ x, branch_ready h x →
      length (branch_outputs h' x)
      = (length (branch_outputs h x) + consumptions x inputs)%nat.
Proof.
  intros Hf Hcls Hne Hready Hdatas Hk Hrun.
  destruct (call_reaches_forward _ _ _ _ _ Hf Hcls Hne Hready Hdatas)
    as (h2 & fo2 & rk & E & Harr & Hq & Hlen & Hf2 & Hc2 & Ha2 & Hr2 & Hi2 & Hd2 & Hbr).
  assert (Hfw : Function.forward self datas h2
                = (with_arrays (λ _, arrs') h2, Raise e)).
  { rewrite (forward_selected self fo2 datas k) by (by rewrite ?Hc2, ?Harr).
    unfold run_kernel. by rewrite Ha2, Harr, Hrun. }
  exists (with_arrays (λ _, arrs') h2). split_and!; try done.
  unfold Function.__call__. rewrite (bind_ok _ _ _ _ _ E).
  by eapply run_forward_raise.
Qed.

(** *** Consuming an input of a forgotten node *)

(** X12.  [forget] sets the splitter attribute of the node's inputs to
    None instead of removing it, and [__call__] tests only whether the
    attribute exists.  So once a node has been forgotten, a call that
    takes one of its former inputs as first input raises AttributeError,
    whatever function object is called. *)
Theorem forgotten_input_cannot_be_consumed self fo (ins outs : list vref)
    g go (x : vref) (rest : list vref) h :
  functions h !! self = Some fo →
  f_inputs fo = Some ins → f_outputs fo = Some outs →
  Forall (λ x, is_Some (variables h !! x)) ins →
  Forall (λ y, is_Some (variables h !! y)) outs →
  x ∈ ins → functions h !! g = Some go →
  ∃ h1 h2,
    Function.forget self h = (h1, Ok tt) ∧
    v_splitter <$> variables h1 !! x = Some (Some None) ∧
    Function.__call__ g (x :: rest) h1 = (h2, Raise AttributeError).
Proof.
  intros Hf Hins Houts Hvi Hvo Hx Hg.
  rewrite (forget_runs _ _ _ _ _ Hf Hins Houts Hvi Hvo).
  eexists _, _. split; [reflexivity|].
  assert (Hxv : is_Some (variables h !! x)).
  { rewrite Forall_forall in Hvi. by apply Hvi. }
  destruct Hxv as [xv Hxv].
  assert (Hsp : ∃ xv', (foldl (λ l x, alter (set_splitter_field (Some None)) x l)
             (foldl (λ l y, alter (set_creator_field None) y l) (variables h) outs) ins)
             !! x = Some xv' ∧ v_splitter xv' = Some None).
  { rewrite foldl_alter_lookup by done. rewrite decide_True by done.
    rewrite foldl_alter_lookup by done.
    case_decide; rewrite Hxv; cbn; eauto. }
  destruct Hsp as (xv' & Hxv' & Hsp).
  split; [cbn; by rewrite Hxv'; cbn; rewrite Hsp|].
  assert (Hg' : is_Some ((alter (set_inputs_field None) self
             (alter (set_outputs_field None) self (functions h))) !! g)).
  { apply lookup_lt_is_Some. rewrite !length_alter. by eapply lookup_lt_Some. }
  destruct Hg' as [go' Hg'].
  unfold Function.__call__. apply bind_raise.
  unfold Function.chain_inputs. rewrite bind_unfold.
  erewrite update_fun_ok by (cbn; exact Hg').
  apply bind_raise. cbn [Function.resolve_inputs]. apply bind_raise.
  unfold Function.resolve_input.
  rewrite bind_unfold, (get_var_ok _ _ xv') by (cbn; exact Hxv').
  rewrite bind_unfold, Hsp. cbn [ret].
  rewrite bind_unfold, (get_var_ok _ _ xv') by (cbn; exact Hxv').
  by rewrite Hsp.
Qed.

(** *** The links a call leaves in the graph *)

Lemma linked_preserved h h' x d :
  (∀ v xv, variables h !! v = Some xv → variables h' !! v = Some xv) →
  (∀ g go, functions h !! g = Some go → f_class go = SplitClass →
           functions h' !! g = Some go) →
  linked h x d → linked h' x d.
Proof.
  intros V F (s & so & xv & dv & outs & Hx & Hsp & Hs & Hc & Hi & Ho & Hd & Hdv & Hcr & Hda).
  exists s, so, xv, dv, outs. split_and!; auto.
Qed.

Lemma branch_ready_preserved h h' x :
  (∀ v xv, variables h !! v = Some xv → variables h' !! v = Some xv) →
  (∀ g go, functions h !! g = Some go → f_class go = SplitClass →
           functions h' !! g = Some go) →
  branch_ready h x → branch_ready h' x.
Proof.
  intros V F [xv Hx Hsp|xv s so r outs Hx Hsp Hs Hc Hi Hr Ho].
  - eapply ready_unbranched; eauto.
  - eapply ready_branched; eauto.
Qed.

Lemma resolve_input_links self fo l i x h h' :
  functions h !! self = Some fo → f_class fo ≠ SplitClass →
  f_inputs fo = Some l → (i < length l)%nat →
  branch_ready h x →
  Function.resolve_input self i x h = (h', Ok tt) →
  linked h' x (length (variables h)) ∧
  ∀ x0 d0, linked h x0 d0 → linked h' x0 d0.
Proof.
  intros Hf Hcls Hi Hlt [xv Hx Hsp | xv s so r outs Hx Hsp Hs Hc Hsi Hr Ho] H.
  - rewrite (resolve_input_first _ _ _ _ _ _ _ Hx Hsp Hf Hi Hlt) in H.
    injection H as <-.
    set (s := length (functions h)). set (d := length (variables h)).
    assert (Hself : (self < s)%nat) by (by eapply lookup_lt_Some).
    assert (Hxd : (x < d)%nat) by (by eapply lookup_lt_Some).
    split.
    + exists s, (mkFunction SplitClass (Some [x]) (Some [d]) (Some (v_rank xv)) ∅),
        (set_splitter_field (Some (Some s)) xv), (branch_variable s (v_rank xv) xv), [d].
      cbn [variables functions]. split_and!; try done.
      * apply lookup_snoc_old. by rewrite list_lookup_alter_eq, Hx.
      * apply list_lookup_middle. by rewrite length_alter.
      * apply list_elem_of_singleton. done.
      * apply list_lookup_middle. by rewrite length_alter.
    + intros x0 d0 (s0 & so0 & xv0 & dv0 & outs0 & Hx0 & Hsp0 & Hs0 & Hc0 & Hi0 & Ho0
                    & Hd0 & Hdv0 & Hcr0 & Hda0).
      assert (x0 ≠ x) by (intros ->; congruence).
      assert (self ≠ s0) by (intros ->; congruence).
      exists s0, so0, xv0.
      destruct (decide (d0 = x)) as [->|Hdx].
      * exists (set_splitter_field (Some (Some s)) dv0), outs0.
        cbn [variables functions]. split_and!; try done.
        -- apply lookup_snoc_old. by rewrite list_lookup_alter_ne.
        -- apply lookup_snoc_old. by rewrite list_lookup_alter_ne.
        -- apply lookup_snoc_old. by rewrite list_lookup_alter_eq, Hdv0.
      * exists dv0, outs0.
        cbn [variables functions]. split_and!; try done.
        -- apply lookup_snoc_old. by rewrite list_lookup_alter_ne.
        -- apply lookup_snoc_old. by rewrite list_lookup_alter_ne.
        -- apply lookup_snoc_old. by rewrite list_lookup_alter_ne.
  - assert (Hne : self ≠ s) by (intros ->; congruence).
    rewrite (resolve_input_again _ _ _ _ _ _ _ _ _ _ [] _ _ _
               Hx Hsp Hs Hc Hsi Hr Ho Hx Hf Hi Hlt) in H.
    injection H as <-.
    set (d := length (variables h)).
    split.
    + exists s, (set_outputs_field (Some (outs ++ [d])) so), xv,
        (branch_variable s r xv), (outs ++ [d]).
      cbn [variables functions]. split_and!; try done.
      * by apply lookup_snoc_old.
      * rewrite list_lookup_alter_ne by done. by rewrite list_lookup_alter_eq, Hs.
      * apply elem_of_app. right. by apply list_elem_of_singleton.
      * apply lookup_snoc_new.
    + intros x0 d0 (s0 & so0 & xv0 & dv0 & outs0 & Hx0 & Hsp0 & Hs0 & Hc0 & Hi0 & Ho0
                    & Hd0 & Hdv0 & Hcr0 & Hda0).
      assert (self ≠ s0) by (intros ->; congruence).
      destruct (decide (s0 = s)) as [->|Hss].
      * assert (so0 = so) as -> by congruence.
        assert (outs0 = outs) as -> by congruence.
        exists s, (set_outputs_field (Some (outs ++ [d])) so), xv0, dv0, (outs ++ [d]).
        cbn [variables functions]. split_and!; try done.
        -- by apply lookup_snoc_old.
        -- rewrite list_lookup_alter_ne by done. by rewrite list_lookup_alter_eq, Hs.
        -- apply elem_of_app. by left.
        -- by apply lookup_snoc_old.
      * exists s0, so0, xv0, dv0, outs0.
        cbn [variables functions]. split_and!; try done.
        -- by apply lookup_snoc_old.
        -- by rewrite !list_lookup_alter_ne.
        -- by apply lookup_snoc_old.
Qed.

Lemma resolve_inputs_links self xs : ∀ i h h' fo l,
  functions h !! self = Some fo → f_class fo ≠ SplitClass →
  f_inputs fo = Some l → (i + length xs ≤ length l)%nat →
  Forall (branch_ready h) xs →
  Function.resolve_inputs self i xs h = (h', Ok tt) →
  (∀ k x, xs !! k = Some x → linked h' x (length (variables h) + k)) ∧
  (∀ x0 d0, linked h x0 d0 → linked h' x0 d0) ∧
  (∀ x0, branch_ready h x0 → branch_ready h' x0).
Proof.
  induction xs as [|x xs IH]; intros i h h' fo l Hf Hcls Hi Hle Hready H.
  { injection H as <-. split_and!; [by intros k x|done|done]. }
  inversion_clear Hready as [|? ? Hx Hxs]. cbn [length] in Hle.
  cbn [Function.resolve_inputs] in H. bind_inv H as h1 u1 E. destruct u1.
  destruct (resolve_input_total self fo l i x h)
    as (h1' & xv & dv & E' & _ & _ & _ & _ & Hkeep); [done|done|done|lia|done|].
  assert (h1' = h1) as -> by congruence.
  assert (Hlt0 : (i < length l)%nat) by lia.
  destruct (resolve_input_links _ _ _ _ _ _ _ Hf Hcls Hi Hlt0 Hx E) as [Hnew Hold].
  destruct (resolve_input_step _ _ _ _ _ _ _ Hf E)
    as (Hext1 & Harr1 & Hlen1 & l0 & fo1 & Hi0 & Hlt & Hf1 & Hi1).
  assert (l0 = l) as -> by congruence.
  assert (Hcls1 : f_class fo1 ≠ SplitClass).
  { destruct Hext1 as (_ & _ & _ & F).
    destruct (F _ _ Hf) as (fo1' & Hf1' & Hc1 & _). congruence. }
  destruct (IH (S i) h1 h' fo1 (<[i := length (variables h)]> l))
    as (Hk & Hold' & Hkeep'); [done|done|done|rewrite length_insert; lia| |done|].
  { eapply Forall_impl; [exact Hxs|]. intros x'. apply Hkeep. }
  split_and!.
  - intros [|k] x' Hx'.
    + injection Hx' as <-. rewrite Nat.add_0_r. by apply Hold'.
    + cbn in Hx'. replace (length (variables h) + S k)%nat
        with (length (variables h1) + k)%nat by lia.
      by apply Hk.
  - intros x0 d0 H0. by apply Hold', Hold.
  - intros x0 H0. by apply Hkeep', Hkeep.
Qed.

(** The stages of a returning call. *)
Lemma call_stages self fo (inputs : list vref) h h' (r : CallResult) :
  functions h !! self = Some fo →
  Function.__call__ self inputs h = (h', Ok r) →
  ∃ h1 h2,
    Function.resolve_inputs self 0 inputs
      (with_functions (alter (set_inputs_field (Some inputs)) self) h) = (h1, Ok tt) ∧
    Function.compute_rank self h1 = (h2, Ok tt) ∧
    Function.run_forward self h2 = (h', Ok r).
Proof.
  intros Hf H. unfold Function.__call__ in H. bind_inv H as h2 u E. destruct u.
  unfold Function.chain_inputs in E.
  rewrite (bind_ok _ _ _ _ _ (update_fun_ok _ _ _ _ Hf)) in E.
  bind_inv E as h1 u1 E1. destruct u1. by exists h1, h2.
Qed.

Lemma call_keeps_the_graph self fo (inputs : list vref) h h' (r : CallResult) :
  functions h !! self = Some fo → f_class fo ≠ SplitClass →
  Forall (branch_ready h) inputs →
  Function.__call__ self inputs h = (h', Ok r) →
  (∀ k x, inputs !! k = Some x → linked h' x (length (variables h) + k)) ∧
  (∀ x0 d0, linked h x0 d0 → linked h' x0 d0) ∧
  (∀ x0, branch_ready h x0 → branch_ready h' x0) ∧
  Forall (branch_ready h') (result_vars r).
Proof.
  intros Hf Hcls Hready H.
  destruct (call_stages _ _ _ _ _ _ Hf H) as (h1 & h2 & E1 & E2 & E3).
  set (h0 := with_functions (alter (set_inputs_field (Some inputs)) self) h) in E1.
  assert (Hf0 : functions h0 !! self = Some (set_inputs_field (Some inputs) fo)).
  { unfold h0. cbn. by rewrite list_lookup_alter_eq, Hf. }
  assert (F0 : ∀ g go, functions h !! g = Some go → f_class go = SplitClass →
                       functions h0 !! g = Some go).
  { intros g go Hg Hc. unfold h0. cbn.
    rewrite list_lookup_alter_ne; [done|]. intros ->. congruence. }
  assert (Hready0 : Forall (branch_ready h0) inputs).
  { eapply Forall_impl; [exact Hready|]. intros x.
    by apply branch_ready_preserved. }
  destruct (resolve_inputs_links self inputs 0 h0 h1 _ inputs Hf0)
    as (Hk & Hold & Hkeep); [done|done|cbn; lia|done|done|].
  destruct (resolve_inputs_step _ _ _ _ _ _ _ _ Hf0 eq_refl E1)
    as (Hext1 & _ & _ & fo1 & l1 & Hf1 & _).
  assert (Hcls1 : f_class fo1 ≠ SplitClass).
  { destruct Hext1 as (_ & _ & _ & F).
    destruct (F _ _ Hf0) as (fo1' & Hf1' & Hc1 & _). cbn in Hc1. congruence. }
  apply compute_rank_inv in E2
    as (fo1' & ins & ranks & rk & Hf1' & Hi1' & Hranks & Hmax & ->).
  assert (fo1' = fo1) as -> by congruence.
  set (h2 := with_functions (alter (set_rank_of_function (Some rk)) self) h1) in E3.
  assert (Hf2 : functions h2 !! self = Some (set_rank_of_function (Some rk) fo1)).
  { unfold h2. cbn. by rewrite list_lookup_alter_eq, Hf1. }
  destruct (run_forward_inv _ _ rk _ _ _ Hf2 eq_refl E3)
    as (ins' & datas & arrs' & outputs & _ & _ & _ & Hh' & Hr).
  cbv zeta in Hh'.
  assert (V : ∀ v xv, variables h1 !! v = Some xv → variables h' !! v = Some xv).
  { intros v xv Hv. rewrite Hh'. cbn. by apply lookup_app_l_Some. }
  assert (F : ∀ g go, functions h1 !! g = Some go → f_class go = SplitClass →
                      functions h' !! g = Some go).
  { intros g go Hg Hc. rewrite Hh'. cbn.
    rewrite !list_lookup_alter_ne; [done|intros ->; congruence..]. }
  split_and!.
  - intros k x Hx. eapply linked_preserved; [exact V|exact F|]. by apply Hk.
  - intros x0 d0 H0. eapply linked_preserved; [exact V|exact F|].
    apply Hold. eapply linked_preserved; [| |exact H0]; [done|exact F0].
  - intros x0 H0. eapply branch_ready_preserved; [exact V|exact F|].
    apply Hkeep. by apply branch_ready_preserved with h.
  - rewrite Hr, result_vars_pack. apply Forall_forall.
    intros y [Hy1 Hy2]%elem_of_seq.
    unfold h2 in Hy1, Hy2. cbn [variables with_functions] in Hy1, Hy2.
    assert (Hj : ∃ a, outputs !! (y - length (variables h1))%nat = Some a).
    { apply lookup_lt_is_Some. lia. }
    destruct Hj as [a Hj].
    eapply (ready_unbranched _ _ (produced_by self rk (leaf_variable a))); [|done].
    rewrite Hh'. unfold h2. cbn [variables with_functions].
    rewrite lookup_app_r by lia. by rewrite list_lookup_fmap, Hj.
Qed.

(** X13.  Walking back from a node.  After a returning call of a node that
    is not a Split on inputs that were consumable with their branch links
    in order, the node holds one new variable per input, and the k-th of
    them is a branch of the k-th input: the input's splitter attribute
    holds a Split whose only input is that input and whose outputs contain
    the branch, the branch names this Split as its creator and holds the
    input's raw array.  Branches made by earlier calls are still
    branches. *)
Theorem call_links_node_to_arguments self fo (inputs : list vref) h h'
    (r : CallResult) :
  functions h !! self = Some fo → f_class fo ≠ SplitClass →
  Forall (branch_ready h) inputs →
  Function.__call__ self inputs h = (h', Ok r) →
  ∃ fo',
    functions h' !! self = Some fo' ∧
    f_inputs fo' = Some (seq (length (variables h)) (length inputs)) ∧
    (∀ k x, inputs !! k = Some x → linked h' x (length (variables h) + k)) ∧
    (∀ x0 d0, linked h x0 d0 → linked h' x0 d0).
Proof.
  intros Hf Hcls Hready H.
  destruct (call_summary _ _ _ _ _ _ Hf H) as (_ & _ & _ & fo' & rk & Hf' & _ & _ & Hi & _).
  destruct (call_keeps_the_graph _ _ _ _ _ _ Hf Hcls Hready H) as (Hk & Hold & _).
  by exists fo'.
Qed.

(** X14.  Calls can be chained.  A returning call, under the same
    conditions, keeps every variable that could be consumed consumable
    with its branch links in order, and the variables it hands back are
    consumable as well. *)
Theorem call_keeps_variables_consumable self fo (inputs : list vref) h h'
    (r : CallResult) :
  functions h !! self = Some fo → f_class fo ≠ SplitClass →
  Forall (branch_ready h) inputs →
  Function.__call__ self inputs h = (h', Ok r) →
  (∀ x0, branch_ready h x0 → branch_ready h' x0) ∧
  Forall (branch_ready h') (result_vars r).
Proof.
  intros Hf Hcls Hready H.
  by destruct (call_keeps_the_graph _ _ _ _ _ _ Hf Hcls Hready H) as (_ & _ & ? & ?).
Qed.

(** *** What a call leaves alone, whatever its outcome *)

Lemma bind_any {A B} (m : Py T A) (k : A → Py T B) h h' (res : result B) :
  bind m k h = (h', res) →
  (∃ e, m h = (h', Raise e) ∧ res = Raise e) ∨
  (∃ h1 (b : A), m h = (h1, Ok b) ∧ k b h1 = (h', res)).
Proof.
  rewrite bind_unfold. destruct (m h) as [h1 [b|e]].
  - intros H. right. by exists h1, b.
  - intros [= <- <-]. left. by exists e.
Qed.

Lemma get_var_any x h h' (res : result VariableObj) :
  get_var x h = (h', res) → h' = h.
Proof. unfold get_var, deref. by destruct (variables h !! x); intros [= <- _]. Qed.

Lemma get_fun_any f h h' (res : result (FunctionObj T)) :
  get_fun f h = (h', res) → h' = h.
Proof. unfold get_fun, deref. by destruct (functions h !! f); intros [= <- _]. Qed.

Lemma extends_update_var self h x (g : VariableObj → VariableObj) :
  (∀ o, var_stable o (g o)) →
  extends self h (with_variables (alter g x) h).
Proof.
  intros Hg. unfold extends. cbn. split_and!; [by rewrite length_alter| |done|].
  - intros v xv Hv. destruct (decide (x = v)) as [->|Hne].
    + exists (g xv). by rewrite list_lookup_alter_eq, Hv.
    + exists xv. by rewrite list_lookup_alter_ne.
  - intros f go Hf. by exists go.
Qed.

Lemma extends_append_vars self h (news : list VariableObj) :
  extends self h (with_variables (λ l, l ++ news) h).
Proof.
  unfold extends. cbn. split_and!; [rewrite length_app; lia| |done|].
  - intros v xv Hv. exists xv. split; [by apply lookup_app_l_Some|done].
  - intros f go Hf. by exists go.
Qed.

Lemma extends_update_fun self h s (g : FunctionObj T → FunctionObj T) :
  (∀ fo, f_class (g fo) = f_class fo ∧ f_attrs (g fo) = f_attrs fo) →
  s = self ∨ (∀ so, functions h !! s = Some so → f_class so = SplitClass) →
  extends self h (with_functions (alter g s) h).
Proof.
  intros Hg Hs. unfold extends. cbn. split_and!; [done| |by rewrite length_alter|].
  - intros v xv Hv. by exists xv.
  - intros f go Hf. destruct (decide (s = f)) as [->|Hne].
    + exists (g go). rewrite list_lookup_alter_eq, Hf.
      destruct (Hg go) as [Hc Ha]. split_and!; try done.
      intros Hfs Hnc. destruct Hs as [->|Hs]; [done|]. destruct Hnc. by apply Hs.
    + exists go. by rewrite list_lookup_alter_ne.
Qed.

Lemma update_var_any self x (g : VariableObj → VariableObj) h h' (res : result unit) :
  (∀ o, var_stable o (g o)) →
  update_var x g h = (h', res) → extends self h h'.
Proof.
  intros Hg H. unfold update_var in H.
  apply bind_any in H as [(e & H & ->)|(h1 & a & E & H)].
  - apply get_var_any in H as ->. apply extends_refl.
  - apply get_var_any in E as ->. injection H as <- _. by apply extends_update_var.
Qed.

Lemma update_fun_any self s (g : FunctionObj T → FunctionObj T) h h' (res : result unit) :
  (∀ fo, f_class (g fo) = f_class fo ∧ f_attrs (g fo) = f_attrs fo) →
  s = self ∨ (∀ so, functions h !! s = Some so → f_class so = SplitClass) →
  update_fun s g h = (h', res) → extends self h h'.
Proof.
  intros Hg Hs H. unfold update_fun in H.
  apply bind_any in H as [(e & H & ->)|(h1 & a & E & H)].
  - apply get_fun_any in H as ->. apply extends_refl.
  - apply get_fun_any in E as ->. injection H as <- _. by apply extends_update_fun.
Qed.

Lemma Split_init_any self x h h' (res : result fref) :
  Split.__init__ x h = (h', res) → extends self h h'.
Proof.
  intros H. unfold Split.__init__ in H.
  apply bind_any in H as [(e & H & ->)|(h1 & a & E & H)].
  - apply get_var_any in H as ->. apply extends_refl.
  - apply get_var_any in E as ->. injection H as <- _. apply extends_alloc_fun.
Qed.

(** A new variable and its [set_creator], taken together. *)
Lemma new_variable_any self (a : aref) (f : fref) h h1 h' v (res : result unit) :
  Variable_.__init__ a h = (h1, Ok v) →
  Variable_.set_creator v f h1 = (h', res) →
  extends self h h' ∧ functions h' = functions h.
Proof.
  intros [= <- <-] H. unfold Variable_.set_creator in H.
  apply bind_any in H as [(e & H & ->)|(h1 & fo & E & H)].
  { apply get_fun_any in H as ->. split; [apply extends_append_vars|done]. }
  apply get_fun_any in E as ->.
  destruct (f_rank fo) as [r|]; [|injection H as <- _;
                                  split; [apply extends_append_vars|done]].
  erewrite update_var_ok in H by (cbn; apply lookup_snoc_new).
  injection H as <- _. unfold with_variables. cbn [arrays variables functions].
  rewrite alter_snoc_new. split; [|done].
  exact (extends_append_vars self h [_]).
Qed.

Lemma add_branch_any self s h h' (res : result vref) :
  Split.add_branch s h = (h', res) → extends self h h'.
Proof.
  intros H. unfold Split.add_branch in H.
  apply bind_any in H as [(e & H & ->)|(h0 & so & E & H)].
  { apply get_fun_any in H as ->. apply extends_refl. }
  pose proof (get_fun_any _ _ _ _ E) as ->.
  apply get_fun_inv in E as [_ Hs].
  destruct (f_class so) eqn:Hc; try (injection H as <- _; apply extends_refl).
  apply bind_any in H as [(e & H & ->)|(h0 & ins & E & H)].
  { destruct (f_inputs so); injection H as <- _; apply extends_refl. }
  assert (h0 = h) as -> by (destruct (f_inputs so); by injection E as <-).
  clear E.
  apply bind_any in H as [(e & H & ->)|(h0 & x & E & H)].
  { destruct (ins !! 0%nat); injection H as <- _; apply extends_refl. }
  assert (h0 = h) as -> by (destruct (ins !! 0%nat); by injection E as <-).
  clear E.
  apply bind_any in H as [(e & H & ->)|(h0 & xv & E & H)].
  { apply get_var_any in H as ->. apply extends_refl. }
  apply get_var_any in E as ->.
  apply bind_any in H as [(e & H & ->)|(h1 & output & E & H)]; [discriminate|].
  apply bind_any in H as [(e & H & ->)|(h2 & u & E2 & H)].
  { by destruct (new_variable_any self _ _ _ _ _ _ _ E H). }
  destruct (new_variable_any self _ _ _ _ _ _ _ E E2) as [Hext Hfs].
  eapply extends_trans; [exact Hext|].
  apply bind_any in H as [(e & H & ->)|(h3 & so' & E3 & H)].
  { apply get_fun_any in H as ->. apply extends_refl. }
  apply get_fun_any in E3 as ->.
  destruct (f_outputs so') as [outs|]; [|injection H as <- _; apply extends_refl].
  apply bind_any in H as [(e & H & ->)|(h3 & u3 & E3 & H)].
  - eapply update_fun_any; [| |exact H]; [done| ].
    right. intros so0. rewrite Hfs, Hs. by intros [= <-].
  - injection H as <- _.
    eapply update_fun_any; [| |exact E3]; [done| ].
    right. intros so0. rewrite Hfs, Hs. by intros [= <-].
Qed.

Lemma set_input_any self i d h h' (res : result unit) :
  Function.set_input self i d h = (h', res) → extends self h h'.
Proof.
  intros H. unfold Function.set_input, Function.get_inputs in H.
  apply bind_any in H as [(e & H & ->)|(h0 & l & E & H)].
  - apply bind_any in H as [(e' & H & _)|(h0 & fo & E & H)].
    + apply get_fun_any in H as ->. apply extends_refl.
    + apply get_fun_any in E as ->.
      destruct (f_inputs fo); injection H as <- _; apply extends_refl.
  - assert (h0 = h) as ->.
    { apply bind_any in E as [(e' & E & ?)|(h1 & fo & E1 & E)]; [done|].
      apply get_fun_any in E1 as ->. by destruct (f_inputs fo); injection E as <-. }
    case_decide.
    + eapply update_fun_any; [| |exact H]; [done|by left].
    + injection H as <- _. apply extends_refl.
Qed.

Lemma resolve_input_any self i x h h' (res : result unit) :
  Function.resolve_input self i x h = (h', res) → extends self h h'.
Proof.
  intros H. unfold Function.resolve_input in H.
  apply bind_any in H as [(e & H & ->)|(h0 & xv & E & H)].
  { apply get_var_any in H as ->. apply extends_refl. }
  apply get_var_any in E as ->.
  assert (Htail : ∀ h1 h2 (r : result unit),
    (xv' <- get_var x ;;
     match v_splitter xv' with
     | Some (Some s) => d <- Split.add_branch s ;; Function.set_input self i d
     | _ => raise AttributeError
     end)%py h1 = (h2, r) → extends self h1 h2).
  { intros h1 h2 r H1.
    apply bind_any in H1 as [(e & H1 & ->)|(h0 & xv' & E & H1)].
    { apply get_var_any in H1 as ->. apply extends_refl. }
    apply get_var_any in E as ->.
    destruct (v_splitter xv') as [[s|]|]; try (injection H1 as <- _; apply extends_refl).
    apply bind_any in H1 as [(e & H1 & ->)|(h0 & d & E & H1)].
    - by eapply add_branch_any.
    - eapply extends_trans; [by eapply add_branch_any|by eapply set_input_any]. }
  apply bind_any in H as [(e & H & ->)|(h1 & u & E & H)].
  - destruct (v_splitter xv); [discriminate|].
    apply bind_any in H as [(e' & H & _)|(h1 & s & E & H)].
    + by eapply Split_init_any.
    + eapply extends_trans; [by eapply Split_init_any|].
      eapply update_var_any; [|exact H]. by intros o.
  - eapply extends_trans; [|by eapply Htail].
    destruct (v_splitter xv); [injection E as <- _; apply extends_refl|].
    apply bind_any in E as [(e' & E & ?)|(h0 & s & E0 & E)]; [done|].
    eapply extends_trans; [by eapply Split_init_any|].
    eapply update_var_any; [|exact E]. by intros o.
Qed.

Lemma resolve_inputs_any self (xs : list vref) : ∀ i h h' (res : result unit),
  Function.resolve_inputs self i xs h = (h', res) → extends self h h'.
Proof.
  induction xs as [|x xs IH]; intros i h h' res H.
  { injection H as <- _. apply extends_refl. }
  cbn [Function.resolve_inputs] in H.
  apply bind_any in H as [(e & H & ->)|(h1 & u & E & H)].
  - by eapply resolve_input_any.
  - eapply extends_trans; [by eapply resolve_input_any|by eapply IH].
Qed.

Lemma compute_rank_any self h h' (res : result unit) :
  Function.compute_rank self h = (h', res) → extends self h h'.
Proof.
  intros H. unfold Function.compute_rank, Function.get_inputs in H.
  apply bind_any in H as [(e & H & ->)|(h0 & ins & E & H)].
  { apply bind_any in H as [(e' & H & _)|(h0 & fo & E & H)].
    - apply get_fun_any in H as ->. apply extends_refl.
    - apply get_fun_any in E as ->.
      destruct (f_inputs fo); injection H as <- _; apply extends_refl. }
  assert (h0 = h) as ->.
  { apply bind_any in E as [(e' & E & ?)|(h1 & fo & E1 & E)]; [done|].
    apply get_fun_any in E1 as ->. by destruct (f_inputs fo); injection E as <-. }
  rewrite bind_unfold in H.
  rewrite (map_m_pure _ (λ h x, v_rank <$> variables h !! x) DanglingReference) in H
    by (intros; apply rank_of_pure).
  destruct (mapM _ ins) as [ranks|]; [|injection H as <- _; apply extends_refl].
  rewrite bind_unfold in H. unfold lift in H.
  destruct (py_max ranks) as [rk|]; [|injection H as <- _; apply extends_refl].
  eapply update_fun_any; [| |exact H]; [done|by left].
Qed.

Lemma chain_inputs_any self (inputs : list vref) h h' (res : result unit) :
  Function.chain_inputs self inputs h = (h', res) → extends self h h'.
Proof.
  intros H. unfold Function.chain_inputs in H.
  apply bind_any in H as [(e & H & ->)|(h1 & u & E & H)].
  { eapply update_fun_any; [| |exact H]; [done|by left]. }
  eapply extends_trans; [eapply update_fun_any; [| |exact E]; [done|by left]|].
  apply bind_any in H as [(e & H & ->)|(h2 & u2 & E2 & H)].
  - by eapply resolve_inputs_any.
  - eapply extends_trans; [by eapply resolve_inputs_any|by eapply compute_rank_any].
Qed.

Lemma run_forward_any self fo rk h h' (res : result CallResult) :
  functions h !! self = Some fo → f_rank fo = Some rk →
  Function.run_forward self h = (h', res) → extends self h h'.
Proof.
  intros Hf Hr H. destruct res as [r|e].
  - destruct (run_forward_inv _ _ _ _ _ _ Hf Hr H)
      as (ins & datas & arrs' & outputs & Hi & _ & _ & -> & _).
    unfold extends. cbn [variables functions]. split_and!.
    + rewrite length_app. lia.
    + intros v xv Hv. exists xv. split; [by apply lookup_app_l_Some|done].
    + by rewrite length_alter.
    + intros g go Hg. destruct (decide (self = g)) as [->|Hne].
      * eexists. rewrite list_lookup_alter_eq, Hg. by split_and!.
      * exists go. by rewrite list_lookup_alter_ne.
  - assert (variables h' = variables h ∧ functions h' = functions h) as [Hv Hfs].
    2:{ unfold extends. rewrite Hv, Hfs. split_and!; [done| |done|].
        - intros v xv Hxv. by exists xv.
        - intros g go Hg. by exists go. }
    destruct (run_forward_keeps_rank _ _ _ _ _ _ Hf Hr H) as [V _].
    unfold Function.run_forward, Function.get_inputs in H.
    rewrite bind_unfold, bind_unfold, (get_fun_ok _ _ _ Hf) in H.
    destruct (f_inputs fo) as [ins|]; [|by injection H as <- _].
    cbn [ret] in H. rewrite bind_unfold in H.
    rewrite (map_m_pure _ (λ h x, v_data <$> variables h !! x) DanglingReference) in H
      by (intros; apply data_of_pure).
    destruct (mapM _ ins) as [datas|]; [|by injection H as <- _].
    rewrite bind_unfold in H.
    destruct (Function.forward self datas h) as [h1 [outputs|e1]] eqn:E.
    2:{ injection H as <- _. by eapply forward_frame. }
    destruct (forward_frame _ _ _ _ _ E) as [Hv1 Hf1].
    rewrite bind_unfold, map_m_Variable_init in H.
    rewrite bind_unfold in H.
    erewrite update_fun_ok in H by (cbn; rewrite Hf1; exact Hf).
    rewrite bind_unfold in H.
    erewrite (for_each_set_creator self (set_outputs_field _ fo) rk) in H.
    + discriminate.
    + cbn. by rewrite Hf1, list_lookup_alter_eq, Hf.
    + done.
    + cbn. apply Forall_forall. intros y [Hy1 Hy2]%elem_of_seq.
      apply lookup_lt_is_Some. rewrite length_app, length_map. lia.
Qed.

Lemma call_any self (inputs : list vref) h h' (res : result CallResult) :
  Function.__call__ self inputs h = (h', res) → extends self h h'.
Proof.
  intros H. unfold Function.__call__ in H.
  apply bind_any in H as [(e & H & ->)|(h2 & u & E & H)].
  { by eapply chain_inputs_any. }
  eapply extends_trans; [by eapply chain_inputs_any|].
  destruct (functions h !! self) as [fo|] eqn:Hf.
  - destruct (chain_inputs_inv _ _ _ _ _ _ Hf E)
      as (h1 & fo1 & ranks & rk & _ & _ & _ & Hf1 & _ & _ & _ & ->).
    eapply (run_forward_any self (set_rank_of_function (Some rk) fo1) rk); [|done|exact H].
    cbn. by rewrite list_lookup_alter_eq, Hf1.
  - unfold Function.chain_inputs, update_fun, get_fun in E.
    rewrite bind_unfold, bind_unfold, Hf in E. discriminate.
Qed.

(** X15.  Whatever the outcome of a call, return or exception, nothing is
    deallocated; every variable that existed keeps its raw array, creator,
    rank and gradient (only its splitter attribute may change); every
    function object keeps its class and attribute values; and every
    function object other than the called one and the Splits is exactly as
    before.  For a parameterized object the called one is the copy, so the
    original is itself among the objects left exactly as before. *)
Theorem call_disturbs_nothing_else self (inputs : list vref) h h'
    (res : result CallResult) :
  (Function.__call__ self inputs h = (h', res) → extends self h h') ∧
  (ParameterizedFunction.__call__ self inputs h = (h', res) →
   extends (length (functions h)) h h' ∧
   ∀ fo, functions h !! self = Some fo → f_class fo ≠ SplitClass →
         functions h' !! self = Some fo).
Proof.
  split; [apply call_any|].
  intros H.
  assert (Hext : extends (length (functions h)) h h').
  { unfold ParameterizedFunction.__call__, ParameterizedFunction.shallow_copy in H.
    apply bind_any in H as [(e & H & ->)|(h1 & cp & E & H)].
    - apply bind_any in H as [(e' & H & _)|(h1 & fo & E & H)]; [|discriminate].
      apply get_fun_any in H as ->. apply extends_refl.
    - apply bind_any in E as [(e' & E & ?)|(h0 & fo & E0 & E)]; [done|].
      apply get_fun_any in E0 as ->. injection E as <- <-.
      eapply extends_trans; [apply extends_alloc_fun|].
      by apply call_any in H. }
  split; [exact Hext|].
  intros fo Hf Hcls. destruct Hext as (_ & _ & _ & F).
  destruct (F self fo Hf) as (go' & Hg' & _ & _ & Hsame).
  rewrite Hg', Hsame; [done| |done].
  apply lookup_lt_Some in Hf. lia.
Qed.

(** *** Calling a parameterized object *)

(** X16.  What a call of a parameterized object returns.  Under the
    conditions of X10 the call returns; forward runs with the attribute
    values of the original and on the data arrays of the inputs; the
    outputs name the copy as their creator, the copy holds the attribute
    values of the original and lists the outputs, and the original is
    exactly as it was, so it can be called again. *)
Theorem parameterized_call_returns self fo (m : Methods T) (pn gn : list string)
    (inputs : list vref) (datas outputs : list aref) (k : forward_kernel T)
    (arrs' : list (Array T)) h :
  functions h !! self = Some fo → f_class fo = ParameterizedClass m pn gn →
  inputs ≠ [] → Forall (branch_ready h) inputs →
  mapM (λ x, v_data <$> variables h !! x) inputs = Some datas →
  (if _is_gpu_input (arrays h) datas then m_forward_gpu m else m_forward_cpu m)
    = Some k →
  k (f_attrs fo) datas (arrays h) = (arrs', Ok outputs) →
  let cp := length (functions h) in
  let n := (length (variables h) + length inputs)%nat in
  ∃ h' fo',
    invoke self inputs h = (h', Ok (pack_outputs (seq n (length outputs)))) ∧
    arrays h' = arrs' ∧
    functions h' !! self = Some fo ∧
    functions h' !! cp = Some fo' ∧ f_attrs fo' = f_attrs fo ∧
    f_outputs fo' = Some (seq n (length outputs)) ∧
    (∀ j a, outputs !! j = Some a →
       ∃ yv, variables h' !! (n + j)%nat = Some yv ∧ v_data yv = a ∧
             v_creator yv = Some cp).
Proof.
  intros Hf Hc Hne Hready Hdatas Hk Hrun cp n.
  set (h0 := with_functions (λ l, l ++ [fo]) h).
  assert (Hcp : functions h0 !! cp = Some fo) by (cbn; apply lookup_snoc_new).
  assert (Hready0 : Forall (branch_ready h0) inputs).
  { eapply Forall_impl; [exact Hready|]. intros x.
    apply branch_ready_preserved; [done|].
    intros g go Hg _. cbn. by apply lookup_snoc_old. }
  destruct (call_returns cp fo inputs datas outputs k arrs' h0)
    as (h' & fo' & E & Harr & _ & Hout & Hf' & Ha' & Ho' & _);
    [done|by rewrite Hc|done|done|done|by rewrite Hc|done|].
  exists h', fo'. split_and!; try done.
  - unfold invoke, class_of.
    rewrite bind_unfold, (bind_ok _ _ _ _ _ (get_fun_ok _ _ _ Hf)). cbn [ret].
    rewrite Hc, (parameterized_call_on_copy _ _ _ _ Hf). exact E.
  - apply call_any in E. destruct E as (_ & _ & _ & F).
    destruct (F self fo) as (go' & Hg' & _ & _ & Hsame).
    { cbn. by apply lookup_snoc_old. }
    rewrite Hg', Hsame; [done| |by rewrite Hc].
    apply lookup_lt_Some in Hf. unfold cp. lia.
  - intros j a Hj. destruct (Hout j a Hj) as (yv & Hy & Hd & Hcr & _). by exists yv.
Qed.

(** *** Forgetting a node that a call has made *)

Lemma forget_lookup_outside (ins outs : list vref) (vars : list VariableObj) v :
  v ∉ ins → v ∉ outs →
  foldl (λ l x, alter (set_splitter_field (Some None)) x l)
    (foldl (λ l y, alter (set_creator_field None) y l) vars outs) ins !! v
  = vars !! v.
Proof.
  intros Hi Ho. rewrite foldl_alter_lookup by done. rewrite decide_False by done.
  rewrite foldl_alter_lookup by done. by rewrite decide_False.
Qed.

Lemma forget_lookup_input (ins outs : list vref) (vars : list VariableObj) v :
  v ∈ ins → v ∉ outs →
  foldl (λ l x, alter (set_splitter_field (Some None)) x l)
    (foldl (λ l y, alter (set_creator_field None) y l) vars outs) ins !! v
  = set_splitter_field (Some None) <$> vars !! v.
Proof.
  intros Hi Ho. rewrite foldl_alter_lookup by done. rewrite decide_True by done.
  rewrite foldl_alter_lookup by done. by rewrite decide_False.
Qed.

(** X17.  [forget] returns on every node that a call has returned from.
    It detaches the node only: every variable that could be consumed
    before the call still can, so the same arguments can be passed to a
    new call; and the branches the call made are still attached to the
    Splits of the arguments, which still list them as outputs and are
    still named by them as creator. *)
Theorem forget_after_call self fo (inputs : list vref) h h1 (r : CallResult) :
  functions h !! self = Some fo → f_class fo ≠ SplitClass →
  Forall (branch_ready h) inputs →
  Function.__call__ self inputs h = (h1, Ok r) →
  ∃ h2,
    Function.forget self h1 = (h2, Ok tt) ∧
    (∀ x, branch_ready h x → branch_ready h2 x) ∧
    (∀ k x, inputs !! k = Some x → linked h2 x (length (variables h) + k)).
Proof.
  intros Hf Hcls Hready H.
  destruct (call_summary _ _ _ _ _ _ Hf H)
    as (Hext & Hlen & Hout & fo1 & rk & Hf1 & Hc1 & _ & Hi1 & Ho1 & _).
  destruct (call_keeps_the_graph _ _ _ _ _ _ Hf Hcls Hready H) as (Hk & _ & Hkeep & _).
  set (n0 := length (variables h)) in *.
  set (ins := seq n0 (length inputs)) in *.
  set (outs := result_vars r) in *.
  assert (Hins : ∀ v, v ∈ ins → (n0 ≤ v < n0 + length inputs)%nat).
  { intros v Hv. by apply elem_of_seq in Hv. }
  assert (Houts : ∀ v, v ∈ outs →
            (n0 + length inputs ≤ v < length (variables h1))%nat).
  { intros v Hv. rewrite Forall_forall in Hout. by destruct (Hout v Hv). }
  rewrite (forget_runs self fo1 ins outs h1 Hf1 Hi1 Ho1).
  2:{ apply Forall_forall. intros v Hv%Hins. apply lookup_lt_is_Some. lia. }
  2:{ apply Forall_forall. intros v Hv%Houts. apply lookup_lt_is_Some. lia. }
  eexists. split; [reflexivity|].
  assert (Hold : ∀ v, (v < n0)%nat → (v ∉ ins) ∧ (v ∉ outs)).
  { intros v Hv. split; [intros ?%Hins|intros ?%Houts]; lia. }
  assert (Hsplit : ∀ s so, functions h1 !! s = Some so → f_class so = SplitClass →
            alter (set_inputs_field None) self
              (alter (set_outputs_field None) self (functions h1)) !! s = Some so).
  { intros s so Hs Hc. rewrite !list_lookup_alter_ne; [done|intros ->..];
      rewrite Hf1 in Hs; injection Hs as <-; congruence. }
  split.
  - intros x Hx.
    assert (Hxn : (x < n0)%nat).
    { destruct Hx as [xv Hxv _|xv ? ? ? ? Hxv _ _ _ _ _ _]; by eapply lookup_lt_Some. }
    destruct (Hold x Hxn) as [Hxi Hxo].
    destruct (Hkeep x Hx) as [xv Hxv Hsp|xv s so r0 outs0 Hxv Hsp Hs Hc Hsi Hr Ho].
    + eapply ready_unbranched; [|exact Hsp].
      cbn [variables]. by rewrite forget_lookup_outside.
    + eapply ready_branched; cbn [variables functions]; try done.
      * by rewrite forget_lookup_outside.
      * by apply Hsplit.
  - intros k x Hkx.
    assert (Hx : branch_ready h x).
    { rewrite Forall_forall in Hready. apply Hready. by eapply list_elem_of_lookup_2. }
    assert (Hxn : (x < n0)%nat).
    { destruct Hx as [xv Hxv _|xv ? ? ? ? Hxv _ _ _ _ _ _]; by eapply lookup_lt_Some. }
    destruct (Hold x Hxn) as [Hxi Hxo].
    assert (Hd : ((n0 + k)%nat ∈ ins) ∧ ((n0 + k)%nat ∉ outs)).
    { apply lookup_lt_Some in Hkx. split.
      - apply elem_of_seq. lia.
      - intros ?%Houts. lia. }
    destruct Hd as [Hdi Hdo].
    destruct (Hk k x Hkx)
      as (s & so & xv & dv & outs0 & Hxv & Hsp & Hs & Hc & Hsi & Ho & Hdin & Hdv & Hcr & Hda).
    exists s, so, xv, (set_splitter_field (Some None) dv), outs0.
    cbn [variables functions]. split_and!; try done.
    + by rewrite forget_lookup_outside.
    + by apply Hsplit.
    + by rewrite forget_lookup_input, Hdv.
Qed.
End more_facts.

(** ** The further properties at concrete stores *)

Example add_one_second_call_returns :
  Function.__call__ 0%nat [0%nat] after_add_one = (after_add_one_twice, Ok (Single 4%nat)).
Proof. vm_compute. reflexivity. Qed.

(** X1 at the node made by calling [add_one] on the leaf. *)
Lemma forget_add_one_node_twice :
  ∃ h1, Function.forget 0%nat after_add_one = (h1, Ok tt) ∧
        Function.forget 0%nat h1 = (h1, Raise TypeError).
Proof.
  destruct (forget_only_once 0%nat _ [1%nat] [2%nat] after_add_one
              eq_refl eq_refl eq_refl) as [H _].
  - repeat constructor. by eexists.
  - repeat constructor. by eexists.
  - exact H.
Defined.

(** X2 at the object of the class without methods. *)
Lemma abstract_op_never_returns :
  ∃ h' e, invoke 0%nat [0%nat] leaf_and_abstract_op = (h', Raise e).
Proof.
  destruct (call_never_returns_without_forward 0%nat
              (mkFunction abstract_op None None None ∅) [0%nat]
              leaf_and_abstract_op eq_refl eq_refl eq_refl) as [H _].
  exact H.
Defined.

(** X3 at a host-only operation given an accelerator array. *)
Lemma host_only_on_gpu_input :
  Function.forward 0%nat [0%nat] gpu_leaf_and_host_only
    = (gpu_leaf_and_host_only, Raise NotImplementedError) ∧
  Function.backward 0%nat [0%nat] [Some 0%nat] gpu_leaf_and_host_only
    = (gpu_leaf_and_host_only, Ok [None]).
Proof.
  exact (missing_backward_is_silent 0%nat
           (mkFunction host_only None None None ∅) [0%nat] [Some 0%nat]
           gpu_leaf_and_host_only eq_refl eq_refl eq_refl).
Defined.

(** X4 at [add_one], called twice on the leaf. *)
Lemma add_one_called_twice :
  ∃ fo2,
    functions after_add_one_twice !! 0%nat = Some fo2 ∧
    f_outputs fo2 = Some [4%nat] ∧
    v_creator <$> variables after_add_one_twice !! 2%nat = Some (Some 0%nat).
Proof.
  destruct (second_call_overwrites_first 0%nat _ [0%nat] [0%nat]
              leaf_and_add_one after_add_one after_add_one_twice
              (Single 2%nat) (Single 4%nat)
              eq_refl add_one_call_returns add_one_second_call_returns)
    as (fo2 & Hf2 & Ho2 & _ & _ & Hall).
  exists fo2. split_and!; [exact Hf2 | exact Ho2 |].
  apply Forall_inv in Hall. apply Hall.
Defined.






(** X10 at [add_one], called on the leaf holding 2: one output, holding 3. *)
Lemma add_one_call_wraps_its_output :
  ∃ h', Function.__call__ 0%nat [0%nat] leaf_and_add_one = (h', Ok (Single 2%nat)) ∧
        arrays h' = [mkArray ndarray 2; mkArray ndarray 3] ∧
        ∃ yv, variables h' !! 2%nat = Some yv ∧ v_data yv = 1%nat ∧
              v_creator yv = Some 0%nat.
Proof.
  destruct (call_wraps_forward_outputs 0%nat
              (mkFunction add_one None None None ∅) [0%nat] [0%nat] [1%nat]
              add_one_forward [mkArray ndarray 2; mkArray ndarray 3] leaf_and_add_one)
    as (h' & fo' & H1 & H2 & _ & H3 & _).
  - reflexivity.
  - discriminate.
  - discriminate.
  - repeat constructor. by eapply ready_unbranched.
  - reflexivity.
  - reflexivity.
  - reflexivity.
  - exists h'. split; [exact H1|]. split; [exact H2|].
    destruct (H3 0%nat 1%nat eq_refl) as (yv & Hy & Hd & Hc & _).
    exists yv. split; [exact Hy|]. split; [exact Hd | exact Hc].
Defined.

(** X11 at the failing operation, called on the leaf. *)
Lemma failing_op_call_raises :
  ∃ h', Function.__call__ 0%nat [0%nat] leaf_and_failing_op
          = (h', Raise (BackendError 7)) ∧
        arrays h' = [mkArray ndarray 2; mkArray ndarray 0] ∧
        length (variables h') = 2%nat.
Proof.
  destruct (call_passes_forward_error_on 0%nat
              (mkFunction failing_op None None None ∅) [0%nat] [0%nat]
              failing_forward [mkArray ndarray 2; mkArray ndarray 0] (BackendError 7)
              leaf_and_failing_op)
    as (h' & H1 & H2 & _ & H3 & _).
  - reflexivity.
  - discriminate.
  - discriminate.
  - repeat constructor. by eapply ready_unbranched.
  - reflexivity.
  - reflexivity.
  - reflexivity.
  - exists h'. split; [exact H1|]. split; [exact H2 | exact H3].
Defined.

(** X12 at the node made by calling [add_one] on the leaf: its input is the
    branch at address 1. *)
Lemma forgotten_branch_cannot_be_consumed :
  ∃ h1 h2, Function.forget 0%nat after_add_one = (h1, Ok tt) ∧
           Function.__call__ 0%nat [1%nat] h1 = (h2, Raise AttributeError).
Proof.
  destruct (forgotten_input_cannot_be_consumed 0%nat
              (mkFunction add_one (Some [1%nat]) (Some [2%nat]) (Some 0) ∅)
              [1%nat] [2%nat] 0%nat
              (mkFunction add_one (Some [1%nat]) (Some [2%nat]) (Some 0) ∅)
              1%nat [] after_add_one)
    as (h1 & h2 & H1 & _ & H2).
  - reflexivity.
  - reflexivity.
  - reflexivity.
  - repeat constructor. by eexists.
  - repeat constructor. by eexists.
  - decided.
  - reflexivity.
  - exists h1, h2. split; [exact H1 | exact H2].
Defined.

(** X13 at [add_one], called on the leaf: the node's input, at address 1,
    is a branch of the leaf. *)
Lemma add_one_input_is_a_branch_of_the_leaf : linked after_add_one 0%nat 1%nat.
Proof.
  destruct (call_links_node_to_arguments 0%nat
              (mkFunction add_one None None None ∅) [0%nat]
              leaf_and_add_one after_add_one (Single 2%nat))
    as (fo' & _ & _ & Hk & _).
  - reflexivity.
  - discriminate.
  - repeat constructor. by eapply ready_unbranched.
  - exact add_one_call_returns.
  - exact (Hk 0%nat 0%nat eq_refl).
Defined.

(** X14 at the same call: its output, at address 2, can be consumed. *)
Lemma add_one_output_is_consumable : branch_ready after_add_one 2%nat.
Proof.
  destruct (call_keeps_variables_consumable 0%nat
              (mkFunction add_one None None None ∅) [0%nat]
              leaf_and_add_one after_add_one (Single 2%nat))
    as [_ Hout].
  - reflexivity.
  - discriminate.
  - repeat constructor. by eapply ready_unbranched.
  - exact add_one_call_returns.
  - exact (Forall_inv Hout).
Defined.

(** X15 at the call of the failing operation, which raises. *)
Lemma failing_call_disturbs_nothing_else :
  extends 0%nat leaf_and_failing_op
    (Function.__call__ 0%nat [0%nat] leaf_and_failing_op).1.
Proof.
  destruct (call_disturbs_nothing_else 0%nat [0%nat] leaf_and_failing_op
              (Function.__call__ 0%nat [0%nat] leaf_and_failing_op).1
              (Raise (BackendError 7))) as [H _].
  apply H. vm_compute. reflexivity.
Defined.

(** X16 at [linear], called on the leaf. *)
Lemma linear_call_returns :
  ∃ h', invoke 0%nat [0%nat] linear_heap = (h', Ok (Single 2%nat)) ∧
        functions h' !! 0%nat = functions linear_heap !! 0%nat ∧
        ∃ yv, variables h' !! 2%nat = Some yv ∧ v_creator yv = Some 1%nat.
Proof.
  destruct (parameterized_call_returns 0%nat
              (mkFunction linear None None None (<["W" := 1%nat]> (<["gW" := 2%nat]> ∅)))
              (mkMethods (Some add_one_forward) None None None) ["W"] ["gW"]
              [0%nat] [0%nat] [3%nat] add_one_forward
              [mkArray ndarray 2; mkArray ndarray 10; mkArray ndarray 0; mkArray ndarray 3]
              linear_heap)
    as (h' & fo' & H1 & _ & H2 & _ & _ & _ & H3).
  - reflexivity.
  - reflexivity.
  - discriminate.
  - repeat constructor. by eapply ready_unbranched.
  - reflexivity.
  - reflexivity.
  - reflexivity.
  - exists h'. split; [exact H1|]. split; [exact H2|].
    destruct (H3 0%nat 3%nat eq_refl) as (yv & Hy & _ & Hc).
    exists yv. split; [exact Hy | exact Hc].
Defined.

(** X17 at [add_one], called on the leaf and then forgotten: the leaf can
    be consumed again and still has its branch. *)
Lemma add_one_forgotten_after_call :
  ∃ h2, Function.forget 0%nat after_add_one = (h2, Ok tt) ∧
        branch_ready h2 0%nat ∧ linked h2 0%nat 1%nat.
Proof.
  destruct (forget_after_call 0%nat
              (mkFunction add_one None None None ∅) [0%nat]
              leaf_and_add_one after_add_one (Single 2%nat))
    as (h2 & H1 & H2 & H3).
  - reflexivity.
  - discriminate.
  - repeat constructor. by eapply ready_unbranched.
  - exact add_one_call_returns.
  - exists h2. split; [exact H1|]. split.
    + apply H2. by eapply ready_unbranched.
    + exact (H3 0%nat 0%nat eq_refl).
Defined.
